(** * WTF-8 string core of Duktape: validator, sanitizer, character length,
      substring, search and the lazy character length of string handles.

    Shallow embedding of [src-input/duk_unicode_wtf8.c] and
    [src-input/duk_hstring_misc.c].

    Conventions of the embedding.
    - A [const duk_uint8_t *] together with its end pointer is the list of
      the bytes between the two pointers; [p++] is taking the tail, [*q++ = b]
      is appending [b] to the output written so far.
    - A [duk_uint8_t] is a [byte]; [byte.unsigned] gives its value in
      [0, 256) and [byte.of_Z] is the truncating store into a byte.
    - [duk_uint32_t] arithmetic is arithmetic on [Z] followed by [wrap32].
    - A [while (p != p_end)] loop whose body consumes at least one byte is a
      [Fixpoint] on a fuel that is initialised with the input length. *)

From Stdlib Require Import ZArith List Lia Bool.
From coqutil Require Import Byte.
Import ListNotations.
Local Open Scope Z_scope.

Local Abbreviation u8 := byte.unsigned (only parsing).

Definition wrap32 (z : Z) : Z := z mod 2 ^ 32.

(** ** Validator *)

(** [duk_unicode_is_valid_wtf8], lines 8-62.  The tests [p_end - p >= k]
    together with the reads [p[1]], ..., [p[k-1]] are the patterns on the
    remaining input. *)
Fixpoint duk_unicode_is_valid_wtf8 (p : list byte) : bool :=
  match p with
  | [] => true
  | b :: p1 =>
    let t := u8 b in
    if t <=? 0x7f then duk_unicode_is_valid_wtf8 p1
    else if t <=? 0xc1 then false
    else if t <=? 0xdf then
      match p1 with
      | c1 :: p2 =>
        if (0x80 <=? u8 c1) && (u8 c1 <=? 0xbf)
        then duk_unicode_is_valid_wtf8 p2 else false
      | _ => false
      end
    else if t <=? 0xef then
      let lower := if t =? 0xe0 then 0xa0 else 0x80 in
      match p1 with
      | c1 :: c2 :: p3 =>
        if (lower <=? u8 c1) && (u8 c1 <=? 0xbf) &&
           (0x80 <=? u8 c2) && (u8 c2 <=? 0xbf)
        then duk_unicode_is_valid_wtf8 p3 else false
      | _ => false
      end
    else if t <=? 0xf4 then
      let lower := if t =? 0xf0 then 0x90 else 0x80 in
      let upper := if t =? 0xf4 then 0x8f else 0xbf in
      match p1 with
      | c1 :: c2 :: c3 :: p4 =>
        if (lower <=? u8 c1) && (u8 c1 <=? upper) &&
           (0x80 <=? u8 c2) && (u8 c2 <=? 0xbf) &&
           (0x80 <=? u8 c3) && (u8 c3 <=? 0xbf)
        then duk_unicode_is_valid_wtf8 p4 else false
      | _ => false
      end
    else false
  end.

(** ** Sanitizer *)

(** The three bytes written at the [replacement] label: U+FFFD. *)
Definition replacement_bytes : list byte :=
  [byte.of_Z 0xef; byte.of_Z 0xbf; byte.of_Z 0xbd].

(** Lines 112-138: the initial byte selects the initial [cp], the number of
    continuation bytes and the bounds of the first continuation byte;
    [None] is [goto replacement]. *)
Definition lead_params (t : Z) : option (Z * nat * Z * Z) :=
  if 0xc2 <=? t then
    if t <=? 0xdf then Some (Z.land t 0x1f, 1%nat, 0x80, 0xbf)
    else if t <=? 0xef then
      Some (Z.land t 0x0f, 2%nat, (if t =? 0xe0 then 0xa0 else 0x80), 0xbf)
    else if t <=? 0xf4 then
      Some (Z.land t 0x07, 3%nat,
            (if t =? 0xf0 then 0x90 else 0x80),
            (if t =? 0xf4 then 0x8f else 0xbf))
    else None
  else None.

(** Result of the continuation byte loop: either the decoded codepoint and
    the read position after it, or a jump to [replacement] with the read
    position at that moment. *)
Inductive decode_outcome : Type :=
| Decoded (cp : Z) (p : list byte)
| Replacement (p : list byte).

(** Lines 141-158, the [do ... while (--num_cont != 0)] loop; it is entered
    with [num_cont > 0].  On an invalid continuation byte the read position
    is stepped back ([p--]), so the returned position still holds the byte. *)
Fixpoint read_continuation (num_cont : nat) (lower upper cp : Z)
         (p : list byte) : decode_outcome :=
  match num_cont with
  | O => Decoded cp p
  | S n =>
    match p with
    | [] => Replacement []
    | b :: p' =>
      let t := u8 b in
      if (lower <=? t) && (t <=? upper)
      then read_continuation n 0x80 0xbf (Z.shiftl cp 6 + Z.land t 0x3f) p'
      else Replacement p
    end
  end.

(** Line 164: [is_paired]. *)
Definition is_paired (p : list byte) : bool :=
  match p with
  | b0 :: b1 :: b2 :: _ =>
    (u8 b0 =? 0xed) && (0xb0 <=? u8 b1) && (u8 b1 <=? 0xbf) &&
    (0x80 <=? u8 b2) && (u8 b2 <=? 0xbf)
  | _ => false
  end.

(** Lines 160-181: surrogate pair combination.  Returns the codepoint to
    emit and the read position. *)
Definition combine_surrogates (cp : Z) (p : list byte) : Z * list byte :=
  if (0xd800 <=? cp) && (cp <=? 0xdfff) then
    if cp <? 0xdc00 then
      match p with
      | b0 :: b1 :: b2 :: p' =>
        if is_paired p then
          let hi := Z.land cp 0x3ff in
          let lo := Z.shiftl (Z.land (u8 b1) 0x0f) 6 + Z.land (u8 b2) 0x3f in
          (0x10000 + Z.shiftl hi 10 + lo, p')
        else (cp, p)
      | _ => (cp, p)
      end
    else (cp, p)
  else (cp, p).

(** Lines 186-201: the bytes written for [cp] and the amount added to
    [out_clen_sub]. *)
Definition emit_codepoint (cp : Z) : list byte * Z :=
  if cp <=? 0x7ff then
    ([byte.of_Z (0xc0 + Z.shiftr cp 6);
      byte.of_Z (0x80 + Z.land cp 0x3f)], 1)
  else if cp <=? 0xffff then
    ([byte.of_Z (0xe0 + Z.shiftr cp 12);
      byte.of_Z (0x80 + Z.land (Z.shiftr cp 6) 0x3f);
      byte.of_Z (0x80 + Z.land cp 0x3f)], 2)
  else
    ([byte.of_Z (0xf0 + Z.shiftr cp 18);
      byte.of_Z (0x80 + Z.land (Z.shiftr cp 12) 0x3f);
      byte.of_Z (0x80 + Z.land (Z.shiftr cp 6) 0x3f);
      byte.of_Z (0x80 + Z.land cp 0x3f)], 3).

(** One iteration of the main loop (lines 84-209) after [t = *p++]: the
    bytes appended to the output, the amount added to [out_clen_sub] and the
    new read position. *)
Definition sanitize_step (b : byte) (p : list byte)
  : list byte * Z * list byte :=
  let t := u8 b in
  if t <? 0x80 then ([b], 0, p)
  else
    match lead_params t with
    | None => (replacement_bytes, 2, p)
    | Some (cp, num_cont, lower, upper) =>
      match read_continuation num_cont lower upper cp p with
      | Replacement p' => (replacement_bytes, 2, p')
      | Decoded cp' p' =>
        let '(cp'', p'') := combine_surrogates cp' p' in
        let '(w, d) := emit_codepoint cp'' in
        (w, d, p'')
      end
    end.

(** The main loop, with the output written so far [q] and
    [out_clen_sub]. *)
Fixpoint sanitize_loop (fuel : nat) (p q : list byte) (out_clen_sub : Z)
  : list byte * Z :=
  match fuel, p with
  | S fuel', b :: p' =>
    let '(w, d, p'') := sanitize_step b p' in
    sanitize_loop fuel' p'' (q ++ w) (wrap32 (out_clen_sub + d))
  | _, _ => (q, out_clen_sub)
  end.

(** Values of the locals at line 213 of
    [duk__unicode_wtf8_sanitize_string_reference]. *)
Record sanitize_locals : Type := {
  out_data : list byte;   (* bytes written to [out_data] *)
  out_clen_sub : Z;
  out_blen : Z;
  out_clen : Z            (* computed, then dropped by DUK_UNREF *)
}.

Definition sanitize_string_locals (str : list byte) : sanitize_locals :=
  let '(q, sub) := sanitize_loop (length str) str [] 0 in
  let blen := wrap32 (Z.of_nat (length q)) in
  {| out_data := q; out_clen_sub := sub; out_blen := blen;
     out_clen := wrap32 (blen - sub) |}.

(** [duk__unicode_wtf8_sanitize_string_reference], lines 67-217: the
    contents of the output buffer and the returned [duk_uint32_t], which is
    [out_blen]. *)
Definition duk__unicode_wtf8_sanitize_string_reference (str : list byte)
  : list byte * Z :=
  let l := sanitize_string_locals str in (out_data l, out_blen l).

(** [duk__unicode_wtf8_sanitize_symbol_reference], lines 220-228. *)
Definition duk__unicode_wtf8_sanitize_symbol_reference (str : list byte)
  : list byte * Z :=
  (str, Z.of_nat (length str)).

Definition duk_unicode_wtf8_sanitize_symbol (str : list byte) :=
  duk__unicode_wtf8_sanitize_symbol_reference str.

Definition duk_unicode_wtf8_sanitize_string (str : list byte) :=
  duk__unicode_wtf8_sanitize_string_reference str.

(** [duk_unicode_wtf8_sanitize_detect], lines 238-260.  [DUK_LIKELY] and
    [DUK_UNLIKELY] are branch hints and leave the value of the test as it
    is. *)
Definition duk_unicode_wtf8_sanitize_detect (str : list byte)
  : list byte * Z :=
  let symbol :=
    match str with
    | [] => false
    | b :: _ =>
      let ib := u8 b in
      if ib <=? 0x7f then false
      else (ib =? 0x80) || (ib =? 0x81) || (ib =? 0x82) || (ib =? 0xff)
    end in
  if symbol then duk_unicode_wtf8_sanitize_symbol str
  else duk_unicode_wtf8_sanitize_string str.

(** The sanitized bytes alone. *)
Definition sanitize (str : list byte) : list byte :=
  fst (duk_unicode_wtf8_sanitize_string str).

(** ** Character length and decoding *)

(** The loop of [duk_unicode_wtf8_charlength], lines 384-411, with the
    accumulated [adj].  The input is assumed valid by the caller; when a
    step [p += k] would move [p] past [p_end] the C loop reads outside the
    buffer, which is [None] here. *)
Fixpoint charlength_loop (p : list byte) (adj : Z) : option Z :=
  match p with
  | [] => Some adj
  | b :: p1 =>
    let x := u8 b in
    if x <=? 0x7f then charlength_loop p1 adj
    else if x <=? 0xdf then
      match p1 with
      | _ :: p2 => charlength_loop p2 (adj + (2 - 1))
      | _ => None
      end
    else if x <=? 0xef then
      match p1 with
      | _ :: _ :: p3 => charlength_loop p3 (adj + (3 - 1))
      | _ => None
      end
    else
      match p1 with
      | _ :: _ :: _ :: p4 => charlength_loop p4 (adj + (4 - 2))
      | _ => None
      end
  end.

(** [duk_unicode_wtf8_charlength], lines 373-417: [clen = blen - adj].
    [adj] never exceeds [blen] (lemma [charlength_loop_bound]), so the
    unsigned subtraction does not wrap. *)
Definition duk_unicode_wtf8_charlength (data : list byte) : option Z :=
  match charlength_loop data 0 with
  | Some adj => Some (Z.of_nat (length data) - adj)
  | None => None
  end.

(** [duk_unicode_wtf8_decode_known], lines 735-772; the argument is the
    buffer from the pointer [p] on, and [None] is a read past its end. *)
Definition duk_unicode_wtf8_decode_known (p : list byte) : option Z :=
  match p with
  | [] => None
  | b :: p1 =>
    let t := u8 b in
    if t <=? 0x7f then Some t
    else if t <=? 0xdf then
      match p1 with
      | c1 :: _ =>
        Some (Z.shiftl (Z.land t 0x1f) 6 + Z.land (u8 c1) 0x3f)
      | _ => None
      end
    else if t <=? 0xef then
      match p1 with
      | c1 :: c2 :: _ =>
        Some (Z.shiftl (Z.land t 0x0f) 12 +
              Z.shiftl (Z.land (u8 c1) 0x3f) 6 + Z.land (u8 c2) 0x3f)
      | _ => None
      end
    else
      match p1 with
      | c1 :: c2 :: c3 :: _ =>
        Some (Z.shiftl (Z.land t 0x07) 18 +
              Z.shiftl (Z.land (u8 c1) 0x3f) 12 +
              Z.shiftl (Z.land (u8 c2) 0x3f) 6 + Z.land (u8 c3) 0x3f)
      | _ => None
      end
  end.

(** ** String handles ([duk_hstring_misc.c]) *)

(** The build options that select a variant of the character length code. *)
Record duk_config : Type := {
  USE_HSTRING_LAZY_CLEN : bool;
  USE_HSTRING_CLEN : bool;
  USE_ROM_STRINGS : bool;
  USE_STRLEN16 : bool
}.

(** The fields of a [duk_hstring] that this code reads or writes.  The
    bytes of the string are stored with the handle; [blen] is their
    number. *)
Record duk_hstring : Type := {
  h_readonly : bool;   (* DUK_HEAPHDR_HAS_READONLY *)
  h_symbol : bool;     (* DUK_HSTRING_HAS_SYMBOL *)
  h_ascii : bool;      (* DUK_HSTRING_HAS_ASCII, set lazily *)
  h_clen : Z;          (* clen, or clen16 *)
  h_data : list byte
}.

Definition duk_hstring_get_data (h : duk_hstring) : list byte := h_data h.

Definition duk_hstring_get_bytelen (h : duk_hstring) : Z :=
  Z.of_nat (length (h_data h)).

(** [h->clen = (duk_uint32_t) res], or [h->clen16 = (duk_uint16_t) res]. *)
Definition set_clen (cfg : duk_config) (h : duk_hstring) (res : Z)
  : duk_hstring :=
  {| h_readonly := h_readonly h; h_symbol := h_symbol h;
     h_ascii := h_ascii h;
     h_clen := if USE_STRLEN16 cfg then res mod 2 ^ 16 else wrap32 res;
     h_data := h_data h |}.

(** [DUK_HSTRING_SET_ASCII]. *)
Definition set_ascii (h : duk_hstring) : duk_hstring :=
  {| h_readonly := h_readonly h; h_symbol := h_symbol h;
     h_ascii := true; h_clen := h_clen h; h_data := h_data h |}.

(** [duk__hstring_get_charlen_slowpath], lines 117-145 (the handle has a
    [clen] field) and lines 147-177 (it has none).  The result is the
    returned length and the handle after the call; [None] is an
    out-of-buffer read in [duk_unicode_wtf8_charlength]. *)
Definition duk__hstring_get_charlen_slowpath (cfg : duk_config)
           (h : duk_hstring) : option (Z * duk_hstring) :=
  if USE_HSTRING_CLEN cfg then
    if USE_ROM_STRINGS cfg && h_readonly h then Some (0, h)
    else if h_symbol h then Some (0, h)
    else
      match duk_unicode_wtf8_charlength (duk_hstring_get_data h) with
      | None => None
      | Some res =>
        let h1 := set_clen cfg h res in
        Some (res, if res =? duk_hstring_get_bytelen h1
                   then set_ascii h1 else h1)
      end
  else
    if h_ascii h then Some (duk_hstring_get_bytelen h, h)
    else if h_symbol h then Some (0, h)
    else
      match duk_unicode_wtf8_charlength (duk_hstring_get_data h) with
      | None => None
      | Some res =>
        if USE_ROM_STRINGS cfg && h_readonly h then Some (res, h)
        else Some (res, if res =? duk_hstring_get_bytelen h
                        then set_ascii h else h)
      end.

(** [duk_hstring_get_charlen], lines 102-108 (not lazy), 181-192 (lazy,
    with a [clen] field) and 194-197 (lazy, no [clen] field). *)
Definition duk_hstring_get_charlen (cfg : duk_config) (h : duk_hstring)
  : option (Z * duk_hstring) :=
  if USE_HSTRING_LAZY_CLEN cfg then
    if USE_HSTRING_CLEN cfg then
      if negb (h_clen h =? 0) then Some (h_clen h, h)
      else duk__hstring_get_charlen_slowpath cfg h
    else duk__hstring_get_charlen_slowpath cfg h
  else Some (h_clen h, h).

(** The length that [duk_hstring_get_charlen] returns.  The call may fill
    the lazy fields of the handle; the substring and search code below only
    uses the returned length and the bytes, which the call does not
    change. *)
Definition hstring_charlen (cfg : duk_config) (h : duk_hstring) : option Z :=
  option_map fst (duk_hstring_get_charlen cfg h).

(** ** Substring and search *)

(** Modelled from the spec: the char-to-byte cache
    [duk_strcache_scan_char2byte_wtf8] is not part of these files.  Section
    6 gives its contract: for a character offset it returns a byte offset
    and the character offset of that byte, which is the requested offset,
    or one less when the byte starts a supplementary codepoint and the
    requested offset is its low half.  Here it is a scan from the start of
    the string. *)
Fixpoint scan_char2byte (p : list byte) (char_pos byteoff charoff : Z)
  : Z * Z :=
  match p with
  | [] => (byteoff, charoff)
  | b :: p1 =>
    if charoff =? char_pos then (byteoff, charoff)
    else
      let x := u8 b in
      if x <=? 0x7F then scan_char2byte p1 char_pos (byteoff + 1) (charoff + 1)
      else if x <=? 0xDF then
        match p1 with
        | _ :: p2 => scan_char2byte p2 char_pos (byteoff + 2) (charoff + 1)
        | _ => (byteoff, charoff)
        end
      else if x <=? 0xEF then
        match p1 with
        | _ :: _ :: p3 =>
          scan_char2byte p3 char_pos (byteoff + 3) (charoff + 1)
        | _ => (byteoff, charoff)
        end
      else if charoff + 1 =? char_pos then (byteoff, charoff)
      else
        match p1 with
        | _ :: _ :: _ :: p4 =>
          scan_char2byte p4 char_pos (byteoff + 4) (charoff + 2)
        | _ => (byteoff, charoff)
        end
  end.

(** Modelled from the spec: the cache call on a handle, as the scan of its
    bytes from offset 0. *)
Definition duk_strcache_scan_char2byte_wtf8 (h : duk_hstring) (char_pos : Z)
  : Z * Z :=
  scan_char2byte (duk_hstring_get_data h) char_pos 0 0.

(** Modelled from the spec: [duk_push_lstring] and [duk_push_hstring_empty]
    are not part of these files.  By sections 3 and 6 a string handle is
    born by sanitizing the given bytes and interning the result, and two
    handles are the same handle exactly when their bytes are equal.  A
    pushed string is represented by the bytes of its handle. *)
Definition duk_push_lstring (bytes : list byte) : list byte :=
  fst (duk_unicode_wtf8_sanitize_detect bytes).

(** Modelled from the spec: [duk_push_hstring_empty] pushes the interned
    empty string. *)
Definition duk_push_hstring_empty : list byte := duk_push_lstring [].

(** The [len] bytes of [data] from offset [start]; [None] when they are not
    all inside the buffer. *)
Definition read_bytes (data : list byte) (start len : Z)
  : option (list byte) :=
  if (0 <=? start) && (0 <=? len) &&
     (start + len <=? Z.of_nat (length data))
  then Some (firstn (Z.to_nat len) (skipn (Z.to_nat start) data))
  else None.

(** The three bytes written for a manufactured surrogate, lines 539-541 and
    548-550. *)
Definition surrogate_bytes (s : Z) : list byte :=
  [byte.of_Z 0xed; byte.of_Z (0x80 + Z.land (Z.shiftr s 6) 0x3f);
   byte.of_Z (0x80 + Z.land s 0x3f)].

(** Lines 472-485: the scan to the start offset.  Returns
    [prefix_surrogate] (0 for none) and [copy_start].  The subtraction
    [start_cp - 0x10000UL] is unsigned; it cannot wrap when the decoded
    codepoint is supplementary. *)
Definition substring_start (h_input : duk_hstring) (start_offset : Z)
  : option (Z * Z) :=
  let '(start_byteoff, start_charoff) :=
    duk_strcache_scan_char2byte_wtf8 h_input start_offset in
  if negb (start_charoff =? start_offset) then
    match duk_unicode_wtf8_decode_known
            (skipn (Z.to_nat start_byteoff)
                   (duk_hstring_get_data h_input)) with
    | None => None
    | Some start_cp =>
      Some (0xdc00 + Z.land (wrap32 (start_cp - 0x10000)) 0x3ff,
            start_byteoff + 4)
    end
  else Some (0, start_byteoff).

(** Lines 489-502: the scan to the end offset.  Returns
    [suffix_surrogate] (0 for none) and [copy_end]. *)
Definition substring_end (h_input : duk_hstring) (end_offset : Z)
  : option (Z * Z) :=
  let '(end_byteoff, end_charoff) :=
    duk_strcache_scan_char2byte_wtf8 h_input end_offset in
  if negb (end_charoff =? end_offset) then
    match duk_unicode_wtf8_decode_known
            (skipn (Z.to_nat end_byteoff)
                   (duk_hstring_get_data h_input)) with
    | None => None
    | Some end_cp =>
      Some (0xd800 + Z.shiftr (wrap32 (end_cp - 0x10000)) 10, end_byteoff)
    end
  else Some (0, end_byteoff).

(** The bytes that [duk_push_wtf8_substring_hstring] hands to
    [duk_push_lstring] on the path of lines 471-556 (the input is not
    ASCII and the range is not empty). *)
Definition substring_bytes (h_input : duk_hstring)
           (start_offset end_offset : Z) : option (list byte) :=
  match substring_start h_input start_offset with
  | None => None
  | Some (prefix_surrogate, copy_start) =>
    match substring_end h_input end_offset with
    | None => None
    | Some (suffix_surrogate, copy_end) =>
      match read_bytes (duk_hstring_get_data h_input) copy_start
                       (copy_end - copy_start) with
      | None => None
      | Some middle =>
        if (prefix_surrogate =? 0) && (suffix_surrogate =? 0)
        then Some middle
        else
          Some ((if negb (prefix_surrogate =? 0)
                 then surrogate_bytes prefix_surrogate else []) ++
                middle ++
                (if negb (suffix_surrogate =? 0)
                 then surrogate_bytes suffix_surrogate else []))
      end
    end
  end.

(** [duk_push_wtf8_substring_hstring], lines 429-560: the bytes of the
    string left on the value stack. *)
Definition duk_push_wtf8_substring_hstring (cfg : duk_config)
           (h_input : duk_hstring) (start_offset end_offset : Z)
  : option (list byte) :=
  match hstring_charlen cfg h_input with
  | None => None
  | Some clen =>
    if clen =? duk_hstring_get_bytelen h_input then
      option_map duk_push_lstring
        (read_bytes (duk_hstring_get_data h_input) start_offset
                    (end_offset - start_offset))
    else if start_offset =? end_offset then Some duk_push_hstring_empty
    else option_map duk_push_lstring
                    (substring_bytes h_input start_offset end_offset)
  end.

Definition bytes_eqb (a b : list byte) : bool :=
  if list_eq_dec Byte.byte_eq_dec a b then true else false.

(** The cast [(duk_int_t) charoff]. *)
Definition to_int32 (z : Z) : Z :=
  if wrap32 z <? 2 ^ 31 then wrap32 z else wrap32 z - 2 ^ 32.

(** The [for] loop of [duk__unicode_wtf8_search_forwards_reference], lines
    585-601.  [fuel] bounds the number of iterations; running out of it
    while the loop condition still holds is [None]. *)
Fixpoint search_forwards_loop (fuel : nat) (cfg : duk_config)
         (h_input h_match : duk_hstring)
         (input_charlen match_charlen charoff : Z) : option Z :=
  if charoff <=? input_charlen then
    match fuel with
    | O => None
    | S fuel' =>
      let next :=
        search_forwards_loop fuel' cfg h_input h_match
                             input_charlen match_charlen
                             (wrap32 (charoff + 1)) in
      if wrap32 (charoff + match_charlen) <=? input_charlen then
        match duk_push_wtf8_substring_hstring
                cfg h_input charoff (wrap32 (charoff + match_charlen)) with
        | None => None
        | Some h_tmp =>
          if bytes_eqb h_tmp (duk_hstring_get_data h_match)
          then Some (to_int32 charoff)
          else next
        end
      else next
    end
  else Some (-1).

(** [duk__unicode_wtf8_search_forwards_reference], lines 570-603, and
    [duk_unicode_wtf8_search_forwards]. *)
Definition duk__unicode_wtf8_search_forwards_reference (cfg : duk_config)
           (h_input h_match : duk_hstring) (start_charoff : Z) : option Z :=
  match hstring_charlen cfg h_input, hstring_charlen cfg h_match with
  | Some input_clen, Some match_clen =>
    let input_charlen := wrap32 input_clen in
    let match_charlen := wrap32 match_clen in
    search_forwards_loop
      (Z.to_nat (input_charlen + 1 - start_charoff)) cfg h_input h_match
      input_charlen match_charlen start_charoff
  | _, _ => None
  end.

Definition duk_unicode_wtf8_search_forwards :=
  duk__unicode_wtf8_search_forwards_reference.

(** ** Reference notions used to state the properties *)

(** The encoding of one scalar value in generalized UTF-8 (WTF-8), in
    textbook form with division and remainder. *)
Definition wtf8_encode (cp : Z) : list byte :=
  if cp <? 0x80 then [byte.of_Z cp]
  else if cp <? 0x800 then
    [byte.of_Z (0xC0 + cp / 64); byte.of_Z (0x80 + cp mod 64)]
  else if cp <? 0x10000 then
    [byte.of_Z (0xE0 + cp / 4096); byte.of_Z (0x80 + (cp / 64) mod 64);
     byte.of_Z (0x80 + cp mod 64)]
  else
    [byte.of_Z (0xF0 + cp / 262144); byte.of_Z (0x80 + (cp / 4096) mod 64);
     byte.of_Z (0x80 + (cp / 64) mod 64); byte.of_Z (0x80 + cp mod 64)].

Definition wtf8_encode_all (cps : list Z) : list byte :=
  flat_map wtf8_encode cps.

(** The scalars of a byte string, sequence by sequence: each one is decoded
    by [duk_unicode_wtf8_decode_known] and the length of the sequence is
    given by its initial byte. *)
Fixpoint wtf8_scalars (p : list byte) : list Z :=
  match p with
  | [] => []
  | b :: p1 =>
    match duk_unicode_wtf8_decode_known p with
    | None => []
    | Some cp =>
      cp :: (if u8 b <=? 0x7f then wtf8_scalars p1
             else if u8 b <=? 0xdf then
               match p1 with _ :: p2 => wtf8_scalars p2 | _ => [] end
             else if u8 b <=? 0xef then
               match p1 with _ :: _ :: p3 => wtf8_scalars p3 | _ => [] end
             else
               match p1 with
               | _ :: _ :: _ :: p4 => wtf8_scalars p4
               | _ => []
               end)
    end
  end.

Definition is_high_surrogate (cp : Z) : bool :=
  (0xD800 <=? cp) && (cp <=? 0xDBFF).

Definition is_low_surrogate (cp : Z) : bool :=
  (0xDC00 <=? cp) && (cp <=? 0xDFFF).

Definition combine_pair (hi lo : Z) : Z :=
  0x10000 + Z.shiftl (hi - 0xD800) 10 + (lo - 0xDC00).

(** Every high surrogate immediately followed by a low surrogate is
    replaced by the supplementary scalar of the pair. *)
Fixpoint coalesce_pairs (cps : list Z) : list Z :=
  match cps with
  | hi :: ((lo :: rest) as tl) =>
    if is_high_surrogate hi && is_low_surrogate lo
    then combine_pair hi lo :: coalesce_pairs rest
    else hi :: coalesce_pairs tl
  | _ => cps
  end.

(** Number of ECMAScript characters of a scalar. *)
Definition scalar_chars (cp : Z) : Z := if cp <? 0x10000 then 1 else 2.

(** Bytes of the encoding of a scalar beyond the first. *)
Definition scalar_extra_bytes (cp : Z) : Z :=
  if cp <? 0x80 then 0 else if cp <? 0x800 then 1
  else if cp <? 0x10000 then 2 else 3.

Definition sum_Z (l : list Z) : Z := fold_right Z.add 0 l.

(** The character count of section 4.E, initial byte by initial byte. *)
Fixpoint count_chars (p : list byte) : Z :=
  match p with
  | [] => 0
  | b :: p1 =>
    let x := u8 b in
    if x <=? 0x7F then 1 + count_chars p1
    else if (0xC2 <=? x) && (x <=? 0xDF) then
      1 + match p1 with _ :: p2 => count_chars p2 | _ => 0 end
    else if (0xE0 <=? x) && (x <=? 0xEF) then
      1 + match p1 with _ :: _ :: p3 => count_chars p3 | _ => 0 end
    else if (0xF0 <=? x) && (x <=? 0xF4) then
      2 + match p1 with _ :: _ :: _ :: p4 => count_chars p4 | _ => 0 end
    else 0
  end.

(** The classification of section 4.C. *)
Inductive input_kind : Type := KindString | KindSymbol.

Definition symbol_markers : list Z := [0x80; 0x81; 0x82; 0xFF].

Definition classify (str : list byte) : input_kind :=
  match str with
  | [] => KindString
  | b :: _ =>
    if existsb (Z.eqb (u8 b)) symbol_markers then KindSymbol else KindString
  end.

(** Scalar values: U+0000 to U+10FFFF, surrogates included. *)
Definition scalar_ok (cp : Z) : Prop := 0 <= cp <= 0x10FFFF.

(** [wf_sequence s cp]: the bytes [s] are one well-formed WTF-8 sequence,
    and [cp] is the scalar it carries.  The conditions on the bytes are the
    ones of section 4.A. *)
Inductive wf_sequence : list byte -> Z -> Prop :=
| wf_seq1 b :
    u8 b <= 0x7F ->
    wf_sequence [b] (u8 b)
| wf_seq2 b c1 :
    0xC2 <= u8 b <= 0xDF ->
    0x80 <= u8 c1 <= 0xBF ->
    wf_sequence [b; c1] (u8 b mod 32 * 64 + u8 c1 mod 64)
| wf_seq3 b c1 c2 :
    0xE0 <= u8 b <= 0xEF ->
    0x80 <= u8 c1 <= 0xBF -> (u8 b = 0xE0 -> 0xA0 <= u8 c1) ->
    0x80 <= u8 c2 <= 0xBF ->
    wf_sequence [b; c1; c2]
                (u8 b mod 16 * 4096 + u8 c1 mod 64 * 64 + u8 c2 mod 64)
| wf_seq4 b c1 c2 c3 :
    0xF0 <= u8 b <= 0xF4 ->
    0x80 <= u8 c1 <= 0xBF ->
    (u8 b = 0xF0 -> 0x90 <= u8 c1) -> (u8 b = 0xF4 -> u8 c1 <= 0x8F) ->
    0x80 <= u8 c2 <= 0xBF ->
    0x80 <= u8 c3 <= 0xBF ->
    wf_sequence [b; c1; c2; c3]
                (u8 b mod 8 * 262144 + u8 c1 mod 64 * 4096 +
                 u8 c2 mod 64 * 64 + u8 c3 mod 64).

(** Well-formed WTF-8 strings: concatenations of well-formed sequences. *)
Inductive wf_string : list byte -> Prop :=
| wf_string_nil : wf_string []
| wf_string_app s cp r :
    wf_sequence s cp -> wf_string r -> wf_string (s ++ r).

(** Section 4.B, item 3: the shape of an invalid sequence.  An initial
    byte in 0xC2-0xF4 announces 1, 2 or 3 continuation bytes; the first one
    is restricted further after 0xE0, 0xF0 and 0xF4. *)
Definition is_invalid_lead (t : Z) : bool :=
  ((0x80 <=? t) && (t <=? 0xC1)) || (0xF5 <=? t).

Definition is_multibyte_lead (t : Z) : bool := (0xC2 <=? t) && (t <=? 0xF4).

Definition lead_continuations (t : Z) : nat :=
  if t <=? 0xDF then 1 else if t <=? 0xEF then 2 else 3.

Definition continuation_ok_at (t : Z) (i : nat) (c : Z) : bool :=
  match i with
  | O =>
    ((if t =? 0xE0 then 0xA0 else if t =? 0xF0 then 0x90 else 0x80) <=? c)
    && (c <=? (if t =? 0xF4 then 0x8F else 0xBF))
  | S _ => (0x80 <=? c) && (c <=? 0xBF)
  end.

(** [cs] are acceptable as the continuation bytes number [i], [i+1], ...
    after the initial byte [t]. *)
Fixpoint accepted_continuations (t : Z) (i : nat) (cs : list byte) : bool :=
  match cs with
  | [] => true
  | c :: cs' =>
    continuation_ok_at t i (u8 c) && accepted_continuations t (S i) cs'
  end.

(** [invalid_sequence e r]: the input [e ++ r] starts with the invalid
    sequence [e] (section 4.B, item 3): an invalid initial byte on its own,
    or an initial byte with fewer acceptable continuation bytes than it
    announces, because the next byte [x] is not acceptable (overlong forms
    and codepoints above U+10FFFF are refused at the first continuation
    byte) or because the input ends.  The byte [x] belongs to [r]. *)
Inductive invalid_sequence : list byte -> list byte -> Prop :=
| invalid_initial_byte b r :
    is_invalid_lead (u8 b) = true ->
    invalid_sequence [b] r
| invalid_continuation_byte b cs x r :
    is_multibyte_lead (u8 b) = true ->
    accepted_continuations (u8 b) 0 cs = true ->
    (length cs < lead_continuations (u8 b))%nat ->
    continuation_ok_at (u8 b) (length cs) (u8 x) = false ->
    invalid_sequence (b :: cs) (x :: r)
| truncated_sequence b cs :
    is_multibyte_lead (u8 b) = true ->
    accepted_continuations (u8 b) 0 cs = true ->
    (length cs < lead_continuations (u8 b))%nat ->
    invalid_sequence (b :: cs) [].

(** The units an arbitrary input is read as: a well-formed sequence with
    its scalar, or an invalid sequence. *)
Inductive input_unit : Type :=
| UnitScalar (cp : Z)
| UnitInvalid.

(** Section 4.B, item 3 and section 7: each invalid unit becomes one
    U+FFFD. *)
Definition unit_scalar (u : input_unit) : Z :=
  match u with
  | UnitScalar cp => cp
  | UnitInvalid => 0xFFFD
  end.

(** [input_units b us]: the input [b] read from left to right as the units
    [us]; after an invalid sequence reading goes on at the byte that made it
    invalid. *)
Inductive input_units : list byte -> list input_unit -> Prop :=
| units_nil : input_units [] []
| units_scalar s cp r us :
    wf_sequence s cp -> input_units r us ->
    input_units (s ++ r) (UnitScalar cp :: us)
| units_invalid e r us :
    invalid_sequence e r -> input_units r us ->
    input_units (e ++ r) (UnitInvalid :: us).

(** The two halves of a supplementary scalar in the ECMAScript view. *)
Definition high_half (cp : Z) : Z := 0xD800 + Z.shiftr (cp - 0x10000) 10.

Definition low_half (cp : Z) : Z := 0xDC00 + Z.land (cp - 0x10000) 0x3FF.

(** The invariants of section 3 for the handle of a string (not a symbol):
    valid bytes, and lazy fields that are either unset or right.  A
    read-only handle with a [clen] field carries its precomputed length. *)
Definition clen_field_ok (cfg : duk_config) (h : duk_hstring) : Prop :=
  if USE_HSTRING_LAZY_CLEN cfg then
    if USE_HSTRING_CLEN cfg then
      h_clen h = count_chars (h_data h) \/
      (h_clen h = 0 /\ USE_ROM_STRINGS cfg && h_readonly h = false)
    else True
  else h_clen h = count_chars (h_data h).

Definition hstring_wf (cfg : duk_config) (h : duk_hstring) : Prop :=
  h_symbol h = false /\
  duk_unicode_is_valid_wtf8 (h_data h) = true /\
  (h_ascii h = true -> count_chars (h_data h) = duk_hstring_get_bytelen h) /\
  clen_field_ok cfg h.

(** A character offset either falls on the boundary between two sequences
    or on the low half of a supplementary scalar.  [split_codepoint s o]:
    [s] is empty and [o] is [None] (boundary), or [s] is the 4-byte sequence
    of the supplementary scalar [cp] and [o] is [Some cp]. *)
Inductive split_codepoint : list byte -> option Z -> Prop :=
| split_none : split_codepoint [] None
| split_some s cp :
    wf_sequence s cp -> 0x10000 <= cp -> split_codepoint s (Some cp).

(** Characters of the split codepoint that lie before the offset. *)
Definition half_offset (o : option Z) : Z :=
  match o with None => 0 | Some _ => 1 end.

(** The 3-byte encoding of the manufactured surrogate, if any. *)
Definition manufactured (half : Z -> Z) (o : option Z) : list byte :=
  match o with None => [] | Some cp => wtf8_encode (half cp) end.

(** The needle [h_match] is found at character offset [i] of [h_input]:
    the substring of the needle's character length at [i] is the needle,
    byte for byte. *)
Definition matches_at (cfg : duk_config) (h_input h_match : duk_hstring)
           (i : Z) : Prop :=
  duk_push_wtf8_substring_hstring
    cfg h_input i (i + count_chars (h_data h_match)) =
  Some (h_data h_match).

Definition bytes_of (l : list Z) : list byte := map byte.of_Z l.

(** ** ASCII prefix scan ([duk_unicode_wtf8_sanitize_keepcheck]) *)

(** The value of the aligned 32-bit word at the four bytes [b0 b1 b2 b3],
    for either byte order of the target. *)
Definition read_u32 (big_endian : bool) (b0 b1 b2 b3 : byte) : Z :=
  if big_endian
  then Z.shiftl (u8 b0) 24 + Z.shiftl (u8 b1) 16 + Z.shiftl (u8 b2) 8 + u8 b3
  else u8 b0 + Z.shiftl (u8 b1) 8 + Z.shiftl (u8 b2) 16 + Z.shiftl (u8 b3) 24.

(** Where the alignment loop of lines 297-303 leaves: at an aligned
    address, at a byte that is not ASCII ([goto skip_fastpath]), or past
    the end of the buffer. *)
Inductive align_outcome : Type :=
| Aligned (p : list byte)
| AlignSkip (p : list byte)
| AlignOverrun.

(** Lines 297-303; [addr] is the address held by [p].  At most three steps
    are taken. *)
Fixpoint asciicheck_align (fuel : nat) (addr : Z) (p : list byte)
  : align_outcome :=
  if Z.land addr 0x03 =? 0 then Aligned p
  else
    match fuel with
    | O => Aligned p
    | S fuel' =>
      match p with
      | [] => AlignOverrun
      | b :: p' =>
        if 0x80 <=? u8 b then AlignSkip p
        else asciicheck_align fuel' (addr + 1) p'
      end
    end.

(** Lines 308-320, the [do ... while (p32 != p32_end)] loop over whole
    words; [todo] is [p32_end - p32] in bytes.  Returns the position the
    loop leaves at, [None] for a read past the end of the buffer. *)
Fixpoint asciicheck_words (big_endian : bool) (p : list byte) (todo : Z)
  : option (list byte) :=
  match p with
  | b0 :: b1 :: b2 :: b3 :: p' =>
    let x := read_u32 big_endian b0 b1 b2 b3 in
    if Z.land x 0x80808080 =? 0 then
      if todo - 4 =? 0 then Some p'
      else asciicheck_words big_endian p' (todo - 4)
    else Some p
  | _ => None
  end.

(** Lines 325-335, the byte loop after [skip_fastpath]; [off] is
    [p - str]. *)
Fixpoint asciicheck_tail (p : list byte) (off : Z) : Z :=
  match p with
  | [] => off
  | b :: p' => if 0x80 <=? u8 b then off else asciicheck_tail p' (off + 1)
  end.

(** [duk__unicode_wtf8_sanitize_asciicheck_optimized], lines 279-336, for
    a buffer at address [addr]. *)
Definition duk__unicode_wtf8_sanitize_asciicheck_optimized
           (big_endian : bool) (addr : Z) (str : list byte) : option Z :=
  let blen := Z.of_nat (length str) in
  if blen <? 8 then Some (asciicheck_tail str 0)
  else
    match asciicheck_align 3 addr str with
    | AlignOverrun => None
    | AlignSkip p => Some (asciicheck_tail p (blen - Z.of_nat (length p)))
    | Aligned p =>
      match asciicheck_words big_endian p
              (Z.land (Z.of_nat (length p)) 0xFFFFFFFC) with
      | None => None
      | Some p' => Some (asciicheck_tail p' (blen - Z.of_nat (length p')))
      end
    end.

(** [duk_unicode_wtf8_sanitize_keepcheck], lines 346-367. *)
Definition duk_unicode_wtf8_sanitize_keepcheck
           (big_endian : bool) (addr : Z) (str : list byte) : option Z :=
  match duk__unicode_wtf8_sanitize_asciicheck_optimized
          big_endian addr str with
  | None => None
  | Some blen_keep =>
    if blen_keep =? 0 then
      match str with
      | [] => Some blen_keep
      | b :: _ =>
        let ib := u8 b in
        if (ib =? 0x80) || (ib =? 0x81) || (ib =? 0x82) || (ib =? 0xff)
        then Some (Z.of_nat (length str))
        else Some blen_keep
      end
    else Some blen_keep
  end.

(** The bytes before the first byte that is not ASCII. *)
Fixpoint ascii_prefix (p : list byte) : list byte :=
  match p with
  | [] => []
  | b :: p' => if u8 b <? 0x80 then b :: ascii_prefix p' else []
  end.

(** ** More of [duk_hstring_misc.c] *)

(** [duk_hstring_is_ascii], lines 11-19, and [duk_hstring_is_empty], lines
    21-23. *)
Definition duk_hstring_is_ascii (h : duk_hstring) : bool := h_ascii h.

Definition duk_hstring_is_empty (h : duk_hstring) : bool :=
  duk_hstring_get_bytelen h =? 0.

(** [duk_hstring_init_charlen], lines 79-100, used when the character
    length is not lazy.  [None] is an out-of-buffer read in
    [duk_unicode_wtf8_charlength]. *)
Definition duk_hstring_init_charlen (cfg : duk_config) (h : duk_hstring)
  : option duk_hstring :=
  match (if h_symbol h then Some 0
         else duk_unicode_wtf8_charlength (duk_hstring_get_data h)) with
  | None => None
  | Some clen =>
    let h1 := set_clen cfg h clen in
    Some (if clen =? duk_hstring_get_bytelen h1 then set_ascii h1 else h1)
  end.

(** The header word [hdr.h_flags] and the [hash] field, for
    [duk_hstring_get_hash] and [duk_hstring_set_hash], lines 25-40.  With
    DUK_USE_STRHASH16 the hash is kept in the upper 16 bits of the flags
    word. *)
Record hstring_hash_fields : Type := {
  hdr_h_flags : Z;   (* duk_uint32_t *)
  h_hash : Z         (* duk_uint32_t, absent with DUK_USE_STRHASH16 *)
}.

Definition duk_hstring_get_hash (use_strhash16 : bool)
           (h : hstring_hash_fields) : Z :=
  if use_strhash16 then Z.shiftr (hdr_h_flags h) 16 else h_hash h.

Definition duk_hstring_set_hash (use_strhash16 : bool)
           (h : hstring_hash_fields) (hash : Z) : hstring_hash_fields :=
  if use_strhash16 then
    {| hdr_h_flags :=
         Z.lor (Z.land (hdr_h_flags h) 0x0000ffff)
               (wrap32 (Z.shiftl hash 16));
       h_hash := h_hash h |}
  else {| hdr_h_flags := hdr_h_flags h; h_hash := hash |}.

(** ** Backward search, CESU-8 conversion and character codes *)

(** The [for] loop of [duk__unicode_wtf8_search_backwards_reference], lines
    629-645, with the signed counter [i].  [fuel] bounds the number of
    iterations; running out of it while [i >= 0] is [None]. *)
Fixpoint search_backwards_loop (fuel : nat) (cfg : duk_config)
         (h_input h_match : duk_hstring)
         (input_charlen match_charlen i : Z) : option Z :=
  if 0 <=? i then
    match fuel with
    | O => None
    | S fuel' =>
      let charoff := wrap32 i in
      let next :=
        search_backwards_loop fuel' cfg h_input h_match
                              input_charlen match_charlen (i - 1) in
      if wrap32 (charoff + match_charlen) <=? input_charlen then
        match duk_push_wtf8_substring_hstring
                cfg h_input charoff (wrap32 (charoff + match_charlen)) with
        | None => None
        | Some h_tmp =>
          if bytes_eqb h_tmp (duk_hstring_get_data h_match)
          then Some (to_int32 charoff)
          else next
        end
      else next
    end
  else Some (-1).

(** [duk__unicode_wtf8_search_backwards_reference], lines 613-647, and
    [duk_unicode_wtf8_search_backwards]. *)
Definition duk__unicode_wtf8_search_backwards_reference (cfg : duk_config)
           (h_input h_match : duk_hstring) (start_charoff : Z) : option Z :=
  match hstring_charlen cfg h_input, hstring_charlen cfg h_match with
  | Some input_clen, Some match_clen =>
    let input_charlen := wrap32 input_clen in
    let match_charlen := wrap32 match_clen in
    let i := to_int32 start_charoff in
    search_backwards_loop (Z.to_nat (i + 1)) cfg h_input h_match
                          input_charlen match_charlen i
  | _, _ => None
  end.

Definition duk_unicode_wtf8_search_backwards :=
  duk__unicode_wtf8_search_backwards_reference.

(** The first pass of [duk_unicode_wtf8_to_cesu8], lines 677-686:
    [nonbmp_count]. *)
Fixpoint cesu8_nonbmp_count (p : list byte) : Z :=
  match p with
  | [] => 0
  | b :: p' =>
    (if 0xf0 <=? u8 b then 1 else 0) + cesu8_nonbmp_count p'
  end.

(** The second pass, lines 699-728: the bytes written through [q], in
    order.  After an initial byte from 0xF0 on the three following bytes
    are read but [p] stays behind them, so they are the next bytes the loop
    handles.  [None] is a read past the end of the input. *)
Fixpoint cesu8_written (p : list byte) : option (list byte) :=
  match p with
  | [] => Some []
  | b :: p' =>
    let t := u8 b in
    if 0xf0 <=? t then
      match p' with
      | c0 :: c1 :: c2 :: _ =>
        let cp := Z.shiftl (Z.land t 0x07) 18 +
                  Z.shiftl (Z.land (u8 c0) 0x3f) 12 +
                  Z.shiftl (Z.land (u8 c1) 0x3f) 6 + Z.land (u8 c2) 0x3f in
        let cp := wrap32 (cp - 0x10000) in
        let hi := 0xd800 + Z.shiftr cp 10 in
        let lo := 0xdc00 + Z.land cp 0x3ff in
        option_map
          (app [byte.of_Z 0xed;
                byte.of_Z (0x80 + Z.land (Z.shiftr hi 6) 0x3f);
                byte.of_Z (0x80 + Z.land hi 0x3f);
                byte.of_Z 0xed;
                byte.of_Z (0x80 + Z.land (Z.shiftr lo 6) 0x3f);
                byte.of_Z (0x80 + Z.land lo 0x3f)])
          (cesu8_written p')
      | _ => None
      end
    else option_map (cons b) (cesu8_written p')
  end.

(** [duk_unicode_wtf8_to_cesu8], lines 660-733: the contents of the buffer
    of [alloc_size] bytes left on the value stack; [None] when the loop
    reads past the input or writes past the buffer. *)
Definition duk_unicode_wtf8_to_cesu8 (data : list byte)
  : option (list byte) :=
  let alloc_size := Z.of_nat (length data) + 2 * cesu8_nonbmp_count data in
  match cesu8_written data with
  | None => None
  | Some w => if Z.of_nat (length w) <=? alloc_size then Some w else None
  end.

(** [duk_unicode_wtf8_charcodeat_helper], lines 774-816.  In the branches
    that subtract 0x10000 the codepoint is at least 0x10000. *)
Definition duk_unicode_wtf8_charcodeat_helper (cfg : duk_config)
           (h : duk_hstring) (pos : Z) (surrogate_aware : bool)
  : option Z :=
  match hstring_charlen cfg h with
  | None => None
  | Some clen =>
    if clen =? duk_hstring_get_bytelen h then
      if 0 <=? pos then
        option_map u8 (nth_error (duk_hstring_get_data h) (Z.to_nat pos))
      else None
    else
      let '(byteoff, charoff) := duk_strcache_scan_char2byte_wtf8 h pos in
      match duk_unicode_wtf8_decode_known
              (skipn (Z.to_nat byteoff) (duk_hstring_get_data h)) with
      | None => None
      | Some cp =>
        if cp <? 0x10000 then Some cp
        else if charoff =? pos then
          if surrogate_aware then Some cp
          else Some (0xd800 + Z.shiftr (cp - 0x10000) 10)
        else Some (0xdc00 + Z.land (cp - 0x10000) 0x3ff)
      end
  end.

(** [duk_hstring_char_code_at_raw], lines 205-210. *)
Definition duk_hstring_char_code_at_raw := duk_unicode_wtf8_charcodeat_helper.

(** What the second pass of the CESU-8 conversion writes for one scalar of
    the input: the sequence itself below U+10000; from U+10000 on, the two
    surrogates in three bytes each, followed by the three continuation
    bytes of the 4-byte sequence. *)
Definition cesu8_emitted (cp : Z) : list byte :=
  if cp <? 0x10000 then wtf8_encode cp
  else wtf8_encode (high_half cp) ++ wtf8_encode (low_half cp) ++
       tl (wtf8_encode cp).


(** ** Comparison with a C string *)

(** [DUK_STRLEN]: the number of bytes before the first NUL of the buffer
    [cstr]; [None] when the buffer holds no NUL, a read past its end. *)
Fixpoint c_strlen (cstr : list byte) : option nat :=
  match cstr with
  | [] => None
  | b :: r => if u8 b =? 0 then Some O else option_map S (c_strlen r)
  end.

(** [duk_hstring_equals_ascii_cstring], lines 275-289; [duk_memcmp]
    returns 0 exactly when the first [len] bytes of both buffers agree. *)
Definition duk_hstring_equals_ascii_cstring
           (h : duk_hstring) (cstr : list byte) : option bool :=
  match c_strlen cstr with
  | None => None
  | Some len =>
    if negb (Z.of_nat len =? duk_hstring_get_bytelen h) then Some false
    else if bytes_eqb (firstn len cstr)
                      (firstn len (duk_hstring_get_data h))
         then Some true
         else Some false
  end.

(** * Properties *)

(** ** Scenarios of the specification, by evaluation *)

Example sanitize_ex1 :
  sanitize (bytes_of [0x41; 0xc3; 0xa9; 0x20; 0xf0; 0x9f; 0x98; 0x80])
  = bytes_of [0x41; 0xc3; 0xa9; 0x20; 0xf0; 0x9f; 0x98; 0x80].
Proof. vm_compute. reflexivity. Qed.

Example sanitize_ex2 :
  sanitize (bytes_of [0xed; 0xa0; 0xbd; 0xed; 0xb8; 0x80])
  = bytes_of [0xf0; 0x9f; 0x98; 0x80].
Proof. vm_compute. reflexivity. Qed.

Example sanitize_ex3 :
  sanitize (bytes_of [0xc0; 0xaf])
  = bytes_of [0xef; 0xbf; 0xbd; 0xef; 0xbf; 0xbd].
Proof. vm_compute. reflexivity. Qed.

Example sanitize_ex4 :
  sanitize (bytes_of [0x41; 0xc3; 0x28])
  = bytes_of [0x41; 0xef; 0xbf; 0xbd; 0x28].
Proof. vm_compute. reflexivity. Qed.

(** ** Bytes and bit operations as arithmetic *)

Lemma u8_range (b : byte) : 0 <= u8 b < 256.
Proof. exact (byte.unsigned_range b). Qed.

Lemma u8_of_Z (z : Z) : 0 <= z < 256 -> u8 (byte.of_Z z) = z.
Proof.
  intros Hz. rewrite byte.unsigned_of_Z. unfold byte.wrap.
  apply Z.mod_small. exact Hz.
Qed.

Lemma of_Z_u8 (b : byte) : byte.of_Z (u8 b) = b.
Proof. apply byte.of_Z_unsigned. Qed.

Lemma of_Z_eq (z : Z) (b : byte) : z = u8 b -> byte.of_Z z = b.
Proof. intros ->. apply of_Z_u8. Qed.

Lemma land_3ff x : Z.land x 0x3ff = x mod 1024.
Proof. change 0x3ff with (Z.ones 10). now rewrite Z.land_ones by lia. Qed.
Lemma land_3f x : Z.land x 0x3f = x mod 64.
Proof. change 0x3f with (Z.ones 6). now rewrite Z.land_ones by lia. Qed.
Lemma land_1f x : Z.land x 0x1f = x mod 32.
Proof. change 0x1f with (Z.ones 5). now rewrite Z.land_ones by lia. Qed.
Lemma land_0f x : Z.land x 0x0f = x mod 16.
Proof. change 0x0f with (Z.ones 4). now rewrite Z.land_ones by lia. Qed.
Lemma land_07 x : Z.land x 0x07 = x mod 8.
Proof. change 0x07 with (Z.ones 3). now rewrite Z.land_ones by lia. Qed.
Lemma shl_6 x : Z.shiftl x 6 = x * 64.
Proof. now rewrite Z.shiftl_mul_pow2 by lia. Qed.
Lemma shl_10 x : Z.shiftl x 10 = x * 1024.
Proof. now rewrite Z.shiftl_mul_pow2 by lia. Qed.
Lemma shl_12 x : Z.shiftl x 12 = x * 4096.
Proof. now rewrite Z.shiftl_mul_pow2 by lia. Qed.
Lemma shl_18 x : Z.shiftl x 18 = x * 262144.
Proof. now rewrite Z.shiftl_mul_pow2 by lia. Qed.
Lemma shr_6 x : Z.shiftr x 6 = x / 64.
Proof. now rewrite Z.shiftr_div_pow2 by lia. Qed.
Lemma shr_10 x : Z.shiftr x 10 = x / 1024.
Proof. now rewrite Z.shiftr_div_pow2 by lia. Qed.
Lemma shr_12 x : Z.shiftr x 12 = x / 4096.
Proof. now rewrite Z.shiftr_div_pow2 by lia. Qed.
Lemma shr_18 x : Z.shiftr x 18 = x / 262144.
Proof. now rewrite Z.shiftr_div_pow2 by lia. Qed.

Create Rewrite HintDb zbits.
#[local] Hint Rewrite land_3ff land_3f land_1f land_0f land_07
  shl_6 shl_10 shl_12 shl_18 shr_6 shr_10 shr_12 shr_18 : zbits.

(** Boolean tests of the code to propositions. *)
Ltac b2p :=
  repeat match goal with
  | H : (_ && _) = true |- _ => apply andb_true_iff in H; destruct H
  | H : (_ || _) = false |- _ => apply orb_false_iff in H; destruct H
  | H : (_ && _) = false |- _ => apply andb_false_iff in H; destruct H
  | H : (_ || _) = true |- _ => apply orb_true_iff in H; destruct H
  | H : (_ <=? _) = true |- _ => apply Z.leb_le in H
  | H : (_ <=? _) = false |- _ => apply Z.leb_gt in H
  | H : (_ <? _) = true |- _ => apply Z.ltb_lt in H
  | H : (_ <? _) = false |- _ => apply Z.ltb_ge in H
  | H : (_ =? _) = true |- _ => apply Z.eqb_eq in H
  | H : (_ =? _) = false |- _ => apply Z.eqb_neq in H
  end.

(** Range facts for the bytes in sight. *)
Ltac byte_ranges :=
  repeat match goal with
  | |- context [byte.unsigned ?b] =>
    lazymatch goal with
    | H : 0 <= byte.unsigned b < 256 |- _ => fail
    | _ => pose proof (u8_range b)
    end
  | _ : context [byte.unsigned ?b] |- _ =>
    lazymatch goal with
    | H : 0 <= byte.unsigned b < 256 |- _ => fail
    | _ => pose proof (u8_range b)
    end
  end.

Ltac zbits := autorewrite with zbits in *.

Ltac zsolve := b2p; zbits; byte_ranges; Z.div_mod_to_equations; lia.

(** ** The sanitizer loop *)

Lemma read_continuation_length n lower upper cp p :
  match read_continuation n lower upper cp p with
  | Decoded _ p' | Replacement p' => (length p' <= length p)%nat
  end.
Proof.
  revert lower upper cp p.
  induction n as [|n IH]; intros lower upper cp p; simpl.
  - lia.
  - destruct p as [|b p']; simpl; [lia|].
    destruct ((lower <=? u8 b) && (u8 b <=? upper)); simpl; [|lia].
    specialize (IH 0x80 0xbf (Z.shiftl cp 6 + Z.land (u8 b) 0x3f) p').
    destruct (read_continuation n _ _ _ p'); lia.
Qed.

Lemma combine_surrogates_length cp p :
  (length (snd (combine_surrogates cp p)) <= length p)%nat.
Proof.
  unfold combine_surrogates.
  destruct ((0xd800 <=? cp) && (cp <=? 0xdfff)); [|cbn [snd]; lia].
  destruct (cp <? 0xdc00); [|cbn [snd]; lia].
  destruct p as [|b0 [|b1 [|b2 p']]]; cbv beta iota; try (cbn [snd]; lia).
  destruct (is_paired _); cbn [snd length]; lia.
Qed.

Lemma sanitize_step_length b p :
  (length (snd (sanitize_step b p)) <= length p)%nat.
Proof.
  unfold sanitize_step.
  destruct (u8 b <? 0x80); simpl; [lia|].
  destruct (lead_params (u8 b)) as [[[[cp n] lower] upper]|]; simpl; [|lia].
  pose proof (read_continuation_length n lower upper cp p) as Hr.
  destruct (read_continuation n lower upper cp p) as [cp' p'|p']; simpl; [|lia].
  pose proof (combine_surrogates_length cp' p') as Hc.
  destruct (combine_surrogates cp' p') as [cp'' p'']; simpl in *.
  destruct (emit_codepoint cp''); simpl. lia.
Qed.

Lemma sanitize_loop_fuel fuel1 : forall fuel2 p q sub,
  (length p <= fuel1)%nat -> (length p <= fuel2)%nat ->
  sanitize_loop fuel1 p q sub = sanitize_loop fuel2 p q sub.
Proof.
  induction fuel1 as [|fuel1 IH]; intros fuel2 p q sub H1 H2.
  - destruct p; [destruct fuel2; reflexivity | simpl in H1; lia].
  - destruct p as [|b p']; [destruct fuel2; reflexivity|].
    destruct fuel2 as [|fuel2]; [simpl in H2; lia|].
    simpl. pose proof (sanitize_step_length b p') as Hs.
    destruct (sanitize_step b p') as [[w d] p'']; simpl in Hs.
    simpl in H1, H2. apply IH; lia.
Qed.

Lemma sanitize_loop_app fuel : forall p q sub,
  fst (sanitize_loop fuel p q sub) = q ++ fst (sanitize_loop fuel p [] 0).
Proof.
  induction fuel as [|fuel IH]; intros p q sub.
  - simpl. now rewrite app_nil_r.
  - destruct p as [|b p']; simpl; [now rewrite app_nil_r|].
    destruct (sanitize_step b p') as [[w d] p''].
    rewrite IH. rewrite (IH p'' w). now rewrite app_assoc.
Qed.

Lemma sanitize_out_data str :
  sanitize str = fst (sanitize_loop (length str) str [] 0).
Proof.
  unfold sanitize, duk_unicode_wtf8_sanitize_string,
    duk__unicode_wtf8_sanitize_string_reference, sanitize_string_locals.
  destruct (sanitize_loop (length str) str [] 0); reflexivity.
Qed.

Lemma sanitize_nil : sanitize [] = [].
Proof. reflexivity. Qed.

(** The loop, one iteration at a time. *)
Lemma sanitize_cons b p :
  sanitize (b :: p) =
  fst (fst (sanitize_step b p)) ++ sanitize (snd (sanitize_step b p)).
Proof.
  rewrite !sanitize_out_data. simpl.
  pose proof (sanitize_step_length b p) as Hs.
  destruct (sanitize_step b p) as [[w d] p']; simpl in *.
  rewrite sanitize_loop_app.
  now rewrite (sanitize_loop_fuel (length p) (length p')) by lia.
Qed.

(** ** Well-formed sequences and the encoding of scalars *)

Ltac hifs :=
  repeat match goal with
  | H : context [if ?c then _ else _] |- _ =>
    let E := fresh "E" in destruct c eqn:E
  end.

Ltac ifs :=
  repeat match goal with
  | |- context [if ?c then _ else _] =>
    let E := fresh "E" in
    destruct c eqn:E; b2p; try (exfalso; hifs; zsolve)
  end.

Lemma wf_sequence_encode s cp :
  wf_sequence s cp -> scalar_ok cp /\ wtf8_encode cp = s.
Proof.
  intros H. destruct H; unfold scalar_ok, wtf8_encode.
  - split; [zsolve|]. ifs. f_equal. apply of_Z_u8.
  - split; [zsolve|]. ifs. repeat f_equal; apply of_Z_eq; zsolve.
  - split; [zsolve|]. ifs. repeat f_equal; apply of_Z_eq; zsolve.
  - split; [zsolve|]. ifs. repeat f_equal; apply of_Z_eq; zsolve.
Qed.

Lemma encode_wf_sequence cp : scalar_ok cp -> wf_sequence (wtf8_encode cp) cp.
Proof.
  unfold scalar_ok. intros H.
  assert (exists s, wf_sequence s cp) as [s Hs].
  { destruct (Z.ltb_spec cp 0x80); [|destruct (Z.ltb_spec cp 0x800);
      [|destruct (Z.ltb_spec cp 0x10000)]].
    - exists [byte.of_Z cp].
      rewrite <- (u8_of_Z cp) at 2 by lia.
      constructor. rewrite u8_of_Z; lia.
    - exists [byte.of_Z (0xC0 + cp / 64); byte.of_Z (0x80 + cp mod 64)].
      replace cp with
        (u8 (byte.of_Z (0xC0 + cp / 64)) mod 32 * 64 +
         u8 (byte.of_Z (0x80 + cp mod 64)) mod 64) at 3
        by (rewrite !u8_of_Z; zsolve).
      constructor; rewrite u8_of_Z; zsolve.
    - exists [byte.of_Z (0xE0 + cp / 4096);
              byte.of_Z (0x80 + (cp / 64) mod 64);
              byte.of_Z (0x80 + cp mod 64)].
      replace cp with
        (u8 (byte.of_Z (0xE0 + cp / 4096)) mod 16 * 4096 +
         u8 (byte.of_Z (0x80 + (cp / 64) mod 64)) mod 64 * 64 +
         u8 (byte.of_Z (0x80 + cp mod 64)) mod 64) at 4
        by (rewrite !u8_of_Z; zsolve).
      constructor; rewrite ?u8_of_Z; zsolve.
    - exists [byte.of_Z (0xF0 + cp / 262144);
              byte.of_Z (0x80 + (cp / 4096) mod 64);
              byte.of_Z (0x80 + (cp / 64) mod 64);
              byte.of_Z (0x80 + cp mod 64)].
      replace cp with
        (u8 (byte.of_Z (0xF0 + cp / 262144)) mod 8 * 262144 +
         u8 (byte.of_Z (0x80 + (cp / 4096) mod 64)) mod 64 * 4096 +
         u8 (byte.of_Z (0x80 + (cp / 64) mod 64)) mod 64 * 64 +
         u8 (byte.of_Z (0x80 + cp mod 64)) mod 64) at 5
        by (rewrite !u8_of_Z; zsolve).
      constructor; rewrite ?u8_of_Z; zsolve. }
  destruct (wf_sequence_encode s cp Hs) as [_ ->]. exact Hs.
Qed.

(** ** The functions of the code on one well-formed sequence *)

Lemma valid_sequence_app s cp r :
  wf_sequence s cp ->
  duk_unicode_is_valid_wtf8 (s ++ r) = duk_unicode_is_valid_wtf8 r.
Proof.
  intros H. destruct H; cbn [app duk_unicode_is_valid_wtf8]; ifs; reflexivity.
Qed.

Lemma valid_inv p :
  duk_unicode_is_valid_wtf8 p = true ->
  p = [] \/
  exists s cp r, p = s ++ r /\ wf_sequence s cp /\
                 duk_unicode_is_valid_wtf8 r = true.
Proof.
  destruct p as [|b p1]; [now left|]. intros H. right.
  cbn [duk_unicode_is_valid_wtf8] in H.
  destruct (u8 b <=? 0x7f) eqn:E1.
  { exists [b], (u8 b), p1. b2p. repeat split; [now constructor | exact H]. }
  destruct (u8 b <=? 0xc1) eqn:E2; [discriminate|].
  destruct (u8 b <=? 0xdf) eqn:E3.
  { destruct p1 as [|c1 p2]; [discriminate|].
    destruct ((0x80 <=? u8 c1) && (u8 c1 <=? 0xbf)) eqn:E4; [|discriminate].
    eexists [b; c1], _, p2. b2p.
    repeat split; [constructor; lia | exact H]. }
  destruct (u8 b <=? 0xef) eqn:E4.
  { destruct p1 as [|c1 [|c2 p3]]; try discriminate.
    match type of H with (if ?c then _ else _) = _ =>
      destruct c eqn:E5; [|discriminate] end.
    eexists [b; c1; c2], _, p3. b2p.
    repeat split; [|exact H].
    destruct (Z.eqb_spec (u8 b) 0xe0); constructor; lia. }
  destruct (u8 b <=? 0xf4) eqn:E5; [|discriminate].
  destruct p1 as [|c1 [|c2 [|c3 p4]]]; try discriminate.
  match type of H with (if ?c then _ else _) = _ =>
    destruct c eqn:E6; [|discriminate] end.
  eexists [b; c1; c2; c3], _, p4. b2p.
  repeat split; [|exact H].
  destruct (Z.eqb_spec (u8 b) 0xf0); destruct (Z.eqb_spec (u8 b) 0xf4);
    constructor; lia.
Qed.

Lemma decode_known_sequence s cp r :
  wf_sequence s cp -> duk_unicode_wtf8_decode_known (s ++ r) = Some cp.
Proof.
  intros H. destruct H; cbn [app duk_unicode_wtf8_decode_known]; ifs;
    try reflexivity; f_equal; zbits; lia.
Qed.

Lemma scalars_sequence_app s cp r :
  wf_sequence s cp -> wtf8_scalars (s ++ r) = cp :: wtf8_scalars r.
Proof.
  intros H. pose proof (decode_known_sequence s cp r H) as Hd.
  destruct H; cbn [app] in *; cbn [wtf8_scalars]; rewrite Hd; ifs;
    reflexivity.
Qed.

Lemma charlength_loop_sequence s cp r adj :
  wf_sequence s cp ->
  charlength_loop (s ++ r) adj =
  charlength_loop r (adj + Z.of_nat (length s) - scalar_chars cp).
Proof.
  intros H. unfold scalar_chars.
  destruct H; cbn [app charlength_loop length]; ifs; f_equal; lia.
Qed.

Lemma count_chars_sequence s cp r :
  wf_sequence s cp -> count_chars (s ++ r) = scalar_chars cp + count_chars r.
Proof.
  intros H. unfold scalar_chars.
  destruct H; cbn [app count_chars]; ifs; reflexivity.
Qed.

Lemma sequence_length s cp :
  wf_sequence s cp -> Z.of_nat (length s) = 1 + scalar_extra_bytes cp.
Proof.
  intros H. unfold scalar_extra_bytes. destruct H; cbn [length]; ifs; lia.
Qed.

(** ** One iteration of the sanitizer *)

Lemma emit_codepoint_encode cp :
  0x80 <= cp -> emit_codepoint cp = (wtf8_encode cp, scalar_extra_bytes cp).
Proof.
  intros H. unfold emit_codepoint, wtf8_encode, scalar_extra_bytes.
  ifs; zbits; reflexivity.
Qed.

(** Reading the continuation bytes of a well-formed sequence decodes it. *)
Lemma read_sequence b cs cp r :
  wf_sequence (b :: cs) cp -> 0x80 <= u8 b ->
  exists cp0 n lower upper,
    lead_params (u8 b) = Some (cp0, n, lower, upper) /\
    read_continuation n lower upper cp0 (cs ++ r) = Decoded cp r.
Proof.
  intros H Hb. inversion H; subst; unfold lead_params.
  - lia.
  - ifs. do 4 eexists. split; [reflexivity|].
    cbn [app read_continuation]. ifs. f_equal. zbits. lia.
  - ifs; do 4 eexists; (split; [reflexivity|]);
      cbn [app read_continuation]; ifs; f_equal; zbits; lia.
  - ifs; do 4 eexists; (split; [reflexivity|]);
      cbn [app read_continuation]; ifs; f_equal; zbits; lia.
Qed.

Lemma Decoded_inj cp p cp' p' :
  Decoded cp p = Decoded cp' p' -> cp = cp' /\ p = p'.
Proof. intros H. now inversion H. Qed.

(** Conversely, whatever the continuation loop decodes is a well-formed
    sequence, and what it has consumed is exactly that sequence. *)
Lemma read_continuation_decoded b cp0 n lower upper p cp p' :
  lead_params (u8 b) = Some (cp0, n, lower, upper) ->
  read_continuation n lower upper cp0 p = Decoded cp p' ->
  exists cs, p = cs ++ p' /\ wf_sequence (b :: cs) cp.
Proof.
  unfold lead_params. intros Hl Hr.
  destruct (0xc2 <=? u8 b) eqn:E0; [|discriminate].
  destruct (u8 b <=? 0xdf) eqn:E1; [|destruct (u8 b <=? 0xef) eqn:E2;
    [|destruct (u8 b <=? 0xf4) eqn:E3; [|discriminate]]];
    injection Hl as <- <- <- <-; cbn [read_continuation] in Hr.
  - destruct p as [|c1 p1]; [discriminate|].
    destruct ((0x80 <=? u8 c1) && (u8 c1 <=? 0xbf)) eqn:E4; [|discriminate].
    apply Decoded_inj in Hr; destruct Hr as [<- <-]. exists [c1]. split; [reflexivity|].
    b2p. zbits. constructor; lia.
  - destruct p as [|c1 p1]; [discriminate|].
    match type of Hr with (if ?c then _ else _) = _ =>
      destruct c eqn:E4; [|discriminate] end.
    destruct p1 as [|c2 p2]; [discriminate|].
    destruct ((0x80 <=? u8 c2) && (u8 c2 <=? 0xbf)) eqn:E5; [|discriminate].
    apply Decoded_inj in Hr; destruct Hr as [<- <-]. exists [c1; c2]. split; [reflexivity|].
    zbits.
    replace ((u8 b mod 16 * 64 + u8 c1 mod 64) * 64 + u8 c2 mod 64)
      with (u8 b mod 16 * 4096 + u8 c1 mod 64 * 64 + u8 c2 mod 64) by lia.
    destruct (Z.eqb_spec (u8 b) 0xe0); b2p; constructor; lia.
  - destruct p as [|c1 p1]; [discriminate|].
    match type of Hr with (if ?c then _ else _) = _ =>
      destruct c eqn:E4; [|discriminate] end.
    destruct p1 as [|c2 p2]; [discriminate|].
    destruct ((0x80 <=? u8 c2) && (u8 c2 <=? 0xbf)) eqn:E5; [|discriminate].
    destruct p2 as [|c3 p3]; [discriminate|].
    destruct ((0x80 <=? u8 c3) && (u8 c3 <=? 0xbf)) eqn:E6; [|discriminate].
    apply Decoded_inj in Hr; destruct Hr as [<- <-]. exists [c1; c2; c3]. split; [reflexivity|].
    zbits.
    replace (((u8 b mod 8 * 64 + u8 c1 mod 64) * 64 + u8 c2 mod 64) * 64
             + u8 c3 mod 64)
      with (u8 b mod 8 * 262144 + u8 c1 mod 64 * 4096 +
            u8 c2 mod 64 * 64 + u8 c3 mod 64) by lia.
    destruct (Z.eqb_spec (u8 b) 0xf0); destruct (Z.eqb_spec (u8 b) 0xf4);
      b2p; constructor; lia.
Qed.

(** ** Surrogate pairs *)

Lemma is_paired_sequence s cp r :
  wf_sequence s cp -> is_paired (s ++ r) = is_low_surrogate cp.
Proof.
  intros H. unfold is_low_surrogate.
  destruct H; cbn [app]; unfold is_paired.
  - destruct r as [|b1 [|b2 r]];
      destruct ((0xDC00 <=? u8 b) && (u8 b <=? 0xDFFF)) eqn:E;
      try reflexivity; try (exfalso; zsolve).
    destruct (u8 b =? 0xed) eqn:E1; [exfalso; zsolve | reflexivity].
  - destruct r as [|b2 r];
      match goal with |- _ = ?c => destruct c eqn:E end;
      try reflexivity; try (exfalso; zsolve).
    destruct (u8 b =? 0xed) eqn:E1; [exfalso; zsolve | reflexivity].
  - match goal with |- ?c1 = ?c2 =>
      destruct c1 eqn:E1; destruct c2 eqn:E2 end;
      try reflexivity; exfalso; zsolve.
  - match goal with |- ?c1 = ?c2 =>
      destruct c1 eqn:E1; destruct c2 eqn:E2 end;
      try reflexivity; exfalso; zsolve.
Qed.

Lemma combine_not_paired cp p :
  is_paired p = false -> combine_surrogates cp p = (cp, p).
Proof.
  intros H. unfold combine_surrogates.
  destruct ((0xd800 <=? cp) && (cp <=? 0xdfff)); [|reflexivity].
  destruct (cp <? 0xdc00); [|reflexivity].
  destruct p as [|b0 [|b1 [|b2 p']]]; try reflexivity.
  now rewrite H.
Qed.

Lemma combine_not_high cp p :
  is_high_surrogate cp = false -> combine_surrogates cp p = (cp, p).
Proof.
  intros H. unfold combine_surrogates, is_high_surrogate in *.
  destruct ((0xd800 <=? cp) && (cp <=? 0xdfff)) eqn:E1; [|reflexivity].
  destruct (cp <? 0xdc00) eqn:E2; [exfalso; zsolve | reflexivity].
Qed.

Lemma combine_sequence cp s2 cp2 r :
  wf_sequence s2 cp2 ->
  combine_surrogates cp (s2 ++ r) =
  if is_high_surrogate cp && is_low_surrogate cp2
  then (combine_pair cp cp2, r) else (cp, s2 ++ r).
Proof.
  intros H. pose proof (is_paired_sequence s2 cp2 r H) as Hp.
  destruct (is_high_surrogate cp) eqn:Hhi; cbn [andb];
    [|now apply combine_not_high].
  destruct (is_low_surrogate cp2) eqn:Hlo; [|now apply combine_not_paired].
  unfold combine_surrogates, is_high_surrogate, is_low_surrogate in *.
  destruct H; try (exfalso; zsolve).
  cbn [app] in *. rewrite Hp. ifs. unfold combine_pair. f_equal.
  zsolve.
Qed.

Lemma combine_nil cp : combine_surrogates cp [] = (cp, []).
Proof. now apply combine_not_paired. Qed.

Lemma combine_range cp p :
  0x80 <= cp <= 0x10FFFF ->
  0x80 <= fst (combine_surrogates cp p) <= 0x10FFFF.
Proof.
  intros H. unfold combine_surrogates.
  destruct ((0xd800 <=? cp) && (cp <=? 0xdfff)) eqn:E1; [|exact H].
  destruct (cp <? 0xdc00) eqn:E2; [|exact H].
  destruct p as [|b0 [|b1 [|b2 p']]]; try exact H.
  destruct (is_paired _); [|exact H]. cbn [fst]. zsolve.
Qed.

Lemma combine_cases cp p :
  (combine_surrogates cp p = (cp, p) /\
   (is_high_surrogate cp = true -> is_paired p = false)) \/
  0x10000 <= fst (combine_surrogates cp p) <= 0x10FFFF.
Proof.
  destruct (is_high_surrogate cp) eqn:Hhi.
  - destruct (is_paired p) eqn:Hp.
    + right. unfold combine_surrogates, is_high_surrogate in *.
      destruct p as [|b0 [|b1 [|b2 p']]]; try discriminate.
      rewrite Hp. ifs. cbn [fst]. zsolve.
    + left. split; [now apply combine_not_paired | reflexivity].
  - left. split; [now apply combine_not_high | discriminate].
Qed.

Lemma multibyte_scalar_range b cs cp :
  wf_sequence (b :: cs) cp -> 0x80 <= u8 b -> 0x80 <= cp <= 0x10FFFF.
Proof. intros H Hb. inversion H; subst; zsolve. Qed.

(** What one iteration appends is the encoding of one scalar. *)
Lemma sanitize_step_spec b p :
  exists cp,
    scalar_ok cp /\
    fst (sanitize_step b p) = (wtf8_encode cp, scalar_extra_bytes cp) /\
    (is_low_surrogate cp = true -> is_paired (b :: p) = true) /\
    (is_high_surrogate cp = true ->
     is_paired (snd (sanitize_step b p)) = false).
Proof.
  assert (Hrep : forall p0 : list byte,
    scalar_ok 0xFFFD /\
    fst (replacement_bytes, 2, p0) =
      (wtf8_encode 0xFFFD, scalar_extra_bytes 0xFFFD) /\
    (is_low_surrogate 0xFFFD = true -> is_paired (b :: p) = true) /\
    (is_high_surrogate 0xFFFD = true ->
     is_paired (snd (replacement_bytes, 2, p0)) = false)).
  { intros p0. unfold scalar_ok.
    split; [lia|]. split; [reflexivity|]. split; discriminate. }
  unfold sanitize_step.
  destruct (u8 b <? 0x80) eqn:E.
  { exists (u8 b). b2p. pose proof (u8_range b).
    unfold scalar_ok, wtf8_encode, scalar_extra_bytes, is_low_surrogate,
      is_high_surrogate.
    split; [lia|]. split; [|split].
    - ifs. cbn [fst]. now rewrite of_Z_u8.
    - intros; exfalso; zsolve.
    - intros; exfalso; zsolve. }
  destruct (lead_params (u8 b)) as [[[[cp0 n] lower] upper]|] eqn:El;
    [|exists 0xFFFD; apply Hrep].
  destruct (read_continuation n lower upper cp0 p) as [cp' p'|p'] eqn:Er;
    [|exists 0xFFFD; apply Hrep].
  destruct (read_continuation_decoded _ _ _ _ _ _ _ _ El Er)
    as (cs & -> & Hwf).
  b2p.
  pose proof (multibyte_scalar_range _ _ _ Hwf E) as Hrange.
  pose proof (combine_range cp' p' Hrange) as Hrange'.
  pose proof (combine_cases cp' p') as Hcases.
  destruct (combine_surrogates cp' p') as [cp'' p''] eqn:Ec.
  cbn [fst] in *. rewrite emit_codepoint_encode by lia.
  exists cp''. cbn [fst snd]. unfold scalar_ok.
  split; [lia|]. split; [reflexivity|]. split.
  - intros Hlo. destruct Hcases as [[Heq _]|Hbig].
    + injection Heq as <- <-.
      change (b :: cs ++ p'') with ((b :: cs) ++ p'').
      now rewrite (is_paired_sequence _ _ _ Hwf).
    + exfalso. unfold is_low_surrogate in Hlo. zsolve.
  - intros Hhi. destruct Hcases as [[Heq Hnp]|Hbig].
    + injection Heq as <- <-. now apply Hnp.
    + exfalso. unfold is_high_surrogate in Hhi. zsolve.
Qed.

(** The loop on an input that starts with a well-formed sequence. *)
Lemma sanitize_sequence s cp r :
  wf_sequence s cp ->
  sanitize (s ++ r) =
  wtf8_encode (fst (combine_surrogates cp r)) ++
  sanitize (snd (combine_surrogates cp r)).
Proof.
  intros H. destruct (Z.ltb_spec (cp) 0x80) as [Hascii|Hmulti].
  - inversion H; subst; try (exfalso; zsolve).
    cbn [app]. rewrite sanitize_cons. unfold sanitize_step.
    ifs. rewrite combine_not_high
      by (unfold is_high_surrogate; destruct (0xD800 <=? u8 b) eqn:E1;
          [exfalso; zsolve | reflexivity]).
    cbn [fst snd]. unfold wtf8_encode. ifs. now rewrite of_Z_u8.
  - destruct s as [|b cs]; [inversion H|].
    assert (Hb : 0x80 <= u8 b) by (inversion H; subst; zsolve).
    destruct (read_sequence b cs cp r H Hb) as (cp0 & n & lo & up & El & Er).
    change ((b :: cs) ++ r) with (b :: cs ++ r).
    rewrite sanitize_cons. unfold sanitize_step.
    ifs. rewrite El, Er.
    pose proof (multibyte_scalar_range _ _ _ H Hb) as Hrange.
    pose proof (combine_range cp r Hrange) as Hrange'.
    destruct (combine_surrogates cp r) as [cp'' p''].
    cbn [fst] in Hrange'. rewrite emit_codepoint_encode by lia.
    reflexivity.
Qed.

(** ** Induction on the length of the input *)

Lemma length_induction {A : Type} (P : list A -> Prop) :
  (forall l, (forall l', (length l' < length l)%nat -> P l') -> P l) ->
  forall l, P l.
Proof.
  intros Hstep l.
  assert (H : forall n l', (length l' < n)%nat -> P l').
  { induction n as [|n IH]; intros l' Hl; [lia|].
    apply Hstep. intros l'' Hl''. apply IH. lia. }
  apply (H (S (length l))). lia.
Qed.

Lemma sequence_nonempty s cp : wf_sequence s cp -> (0 < length s)%nat.
Proof. intros H; destruct H; cbn [length]; lia. Qed.

Lemma valid_iff_wf_string p :
  duk_unicode_is_valid_wtf8 p = true <-> wf_string p.
Proof.
  split.
  - induction p as [p IH] using length_induction. intros H.
    destruct (valid_inv p H) as [->|(s & cp & r & -> & Hs & Hr)].
    + constructor.
    + econstructor; [exact Hs|]. apply IH; [|exact Hr].
      pose proof (sequence_nonempty _ _ Hs). rewrite length_app. lia.
  - induction 1 as [|s cp r Hs _ IH]; [reflexivity|].
    now rewrite (valid_sequence_app _ _ _ Hs).
Qed.

(** The output, one scalar at a time. *)
Lemma sanitize_head b p :
  exists cp rest,
    scalar_ok cp /\ (length rest <= length p)%nat /\
    sanitize (b :: p) = wtf8_encode cp ++ sanitize rest /\
    (is_low_surrogate cp = true -> is_paired (b :: p) = true) /\
    (is_high_surrogate cp = true -> is_paired rest = false).
Proof.
  destruct (sanitize_step_spec b p) as (cp & Hok & Hfst & Hlo & Hhi).
  exists cp, (snd (sanitize_step b p)).
  split; [exact Hok|]. split; [apply sanitize_step_length|].
  split; [|split; assumption].
  rewrite sanitize_cons, Hfst. reflexivity.
Qed.

Lemma sanitize_wf_string b : wf_string (sanitize b).
Proof.
  induction b as [b IH] using length_induction.
  destruct b as [|t p]; [rewrite sanitize_nil; constructor|].
  destruct (sanitize_head t p) as (cp & rest & Hok & Hlen & -> & _).
  econstructor; [apply encode_wf_sequence, Hok|].
  apply IH. cbn [length]. lia.
Qed.

Lemma scalars_encode_all cps :
  Forall scalar_ok cps -> wtf8_scalars (wtf8_encode_all cps) = cps.
Proof.
  induction 1 as [|cp cps Hcp _ IH]; [reflexivity|].
  unfold wtf8_encode_all in *. cbn [flat_map].
  rewrite (scalars_sequence_app _ cp) by now apply encode_wf_sequence.
  now rewrite IH.
Qed.

Lemma wf_string_scalars p :
  wf_string p ->
  Forall scalar_ok (wtf8_scalars p) /\ wtf8_encode_all (wtf8_scalars p) = p.
Proof.
  induction 1 as [|s cp r Hs _ [IH1 IH2]].
  - split; [constructor | reflexivity].
  - rewrite (scalars_sequence_app _ _ _ Hs).
    destruct (wf_sequence_encode _ _ Hs) as [Hok Henc].
    split; [now constructor|].
    unfold wtf8_encode_all in *. cbn [flat_map]. now rewrite Henc, IH2.
Qed.

Lemma coalesce_pairs_cons2 hi lo rest :
  coalesce_pairs (hi :: lo :: rest) =
  if is_high_surrogate hi && is_low_surrogate lo
  then combine_pair hi lo :: coalesce_pairs rest
  else hi :: coalesce_pairs (lo :: rest).
Proof. reflexivity. Qed.

(** On valid input the sanitizer only combines surrogate pairs. *)
Lemma sanitize_wf_string_coalesce p :
  wf_string p ->
  sanitize p = wtf8_encode_all (coalesce_pairs (wtf8_scalars p)).
Proof.
  induction p as [p IH] using length_induction. intros H.
  destruct H as [|s cp r Hs Hr]; [reflexivity|].
  pose proof (sequence_nonempty _ _ Hs) as Hne.
  rewrite (sanitize_sequence _ _ _ Hs), (scalars_sequence_app _ _ _ Hs).
  destruct Hr as [|s2 cp2 r2 Hs2 Hr2].
  - rewrite combine_nil. cbn [fst snd wtf8_scalars coalesce_pairs].
    unfold wtf8_encode_all. cbn [flat_map]. now rewrite sanitize_nil.
  - pose proof (sequence_nonempty _ _ Hs2) as Hne2.
    rewrite (combine_sequence _ _ _ _ Hs2).
    rewrite (scalars_sequence_app _ _ _ Hs2), coalesce_pairs_cons2.
    destruct (is_high_surrogate cp && is_low_surrogate cp2); cbn [fst snd].
    + rewrite (IH r2); [reflexivity| |exact Hr2].
      rewrite !length_app. lia.
    + rewrite (IH (s2 ++ r2)); [|rewrite !length_app; lia
                                |econstructor; eassumption].
      rewrite (scalars_sequence_app _ _ _ Hs2). reflexivity.
Qed.

(** The output holds no high surrogate followed by a low surrogate. *)
Lemma sanitize_first_scalar p cp l :
  wtf8_scalars (sanitize p) = cp :: l ->
  is_low_surrogate cp = true -> is_paired p = true.
Proof.
  destruct p as [|b p']; [discriminate|].
  destruct (sanitize_head b p') as (cp' & rest & Hok & _ & -> & Hlo & _).
  rewrite (scalars_sequence_app _ cp') by now apply encode_wf_sequence.
  intros Heq. injection Heq as -> _. exact Hlo.
Qed.

Lemma sanitize_scalars_coalesced p :
  coalesce_pairs (wtf8_scalars (sanitize p)) = wtf8_scalars (sanitize p).
Proof.
  induction p as [p IH] using length_induction.
  destruct p as [|b p']; [reflexivity|].
  destruct (sanitize_head b p') as (cp & rest & Hok & Hlen & -> & _ & Hhi).
  rewrite (scalars_sequence_app _ cp) by now apply encode_wf_sequence.
  specialize (IH rest ltac:(cbn [length]; lia)).
  destruct (wtf8_scalars (sanitize rest)) as [|cp2 l] eqn:El; [reflexivity|].
  rewrite coalesce_pairs_cons2.
  destruct (is_high_surrogate cp) eqn:Ehi; cbn [andb].
  - destruct (is_low_surrogate cp2) eqn:Elo.
    + pose proof (sanitize_first_scalar _ _ _ El Elo) as Hp.
      rewrite (Hhi eq_refl) in Hp. discriminate.
    + now rewrite IH.
  - now rewrite IH.
Qed.

Lemma sanitize_idempotent_bytes p : sanitize (sanitize p) = sanitize p.
Proof.
  rewrite (sanitize_wf_string_coalesce _ (sanitize_wf_string p)).
  rewrite sanitize_scalars_coalesced.
  apply wf_string_scalars, sanitize_wf_string.
Qed.

(** ** Invalid sequences *)

Ltac ifs_cmp :=
  repeat match goal with
  | |- context [if ?c then _ else _] =>
    let E := fresh "E" in
    destruct c eqn:E; b2p; try (exfalso; hifs; b2p; lia)
  end.

Lemma sanitize_invalid_lead b p :
  is_invalid_lead (u8 b) = true ->
  sanitize (b :: p) = replacement_bytes ++ sanitize p.
Proof.
  intros H. rewrite sanitize_cons. unfold sanitize_step, lead_params.
  unfold is_invalid_lead in H. ifs_cmp; reflexivity.
Qed.

Lemma sanitize_invalid_continuation b cs x p :
  is_multibyte_lead (u8 b) = true ->
  accepted_continuations (u8 b) 0 cs = true ->
  (length cs < lead_continuations (u8 b))%nat ->
  continuation_ok_at (u8 b) (length cs) (u8 x) = false ->
  sanitize (b :: cs ++ x :: p) = replacement_bytes ++ sanitize (x :: p).
Proof.
  unfold is_multibyte_lead, lead_continuations. intros Hl Hcs Hlen Hx.
  rewrite sanitize_cons. unfold sanitize_step, lead_params.
  destruct cs as [|c1 [|c2 [|c3 cs]]];
    cbn [length accepted_continuations continuation_ok_at app] in *;
    ifs_cmp; cbn [read_continuation]; ifs_cmp; try reflexivity;
    cbn [length] in Hlen; lia.
Qed.

Lemma sanitize_truncated b cs :
  is_multibyte_lead (u8 b) = true ->
  accepted_continuations (u8 b) 0 cs = true ->
  (length cs < lead_continuations (u8 b))%nat ->
  sanitize (b :: cs) = replacement_bytes.
Proof.
  unfold is_multibyte_lead, lead_continuations. intros Hl Hcs Hlen.
  rewrite sanitize_cons. unfold sanitize_step, lead_params.
  destruct cs as [|c1 [|c2 [|c3 cs]]];
    cbn [length accepted_continuations continuation_ok_at app] in *;
    ifs_cmp; cbn [read_continuation]; ifs_cmp; try reflexivity;
    cbn [length] in Hlen; lia.
Qed.

(** ** Arbitrary input, unit by unit *)

Lemma sanitize_invalid_sequence e r :
  invalid_sequence e r -> sanitize (e ++ r) = replacement_bytes ++ sanitize r.
Proof.
  intros H. destruct H as [b r Hb|b cs x r Hl Hcs Hlen Hx|b cs Hl Hcs Hlen].
  - now apply sanitize_invalid_lead.
  - cbn [app]. now apply sanitize_invalid_continuation.
  - rewrite app_nil_r, sanitize_nil, app_nil_r.
    now apply sanitize_truncated.
Qed.

Lemma invalid_sequence_nonempty e r :
  invalid_sequence e r -> (0 < length e)%nat.
Proof. intros H; destruct H; cbn [length]; lia. Qed.

(** A high surrogate is never combined with the start of an invalid
    sequence. *)
Lemma is_paired_invalid_sequence e r :
  invalid_sequence e r -> is_paired (e ++ r) = false.
Proof.
  assert (Hfalse : forall c : bool, (c = true -> False) -> c = false)
    by (intros [|] Hc; [exfalso; now apply Hc | reflexivity]).
  intros H. destruct H as [b r Hb|b cs x r Hl Hcs Hlen Hx|b cs Hl Hcs Hlen];
    unfold is_invalid_lead, is_multibyte_lead, lead_continuations in *.
  - cbn [app]. destruct r as [|b1 [|b2 r]]; try reflexivity.
    apply Hfalse. unfold is_paired. intros E. b2p; lia.
  - destruct cs as [|c1 [|c2 [|c3 cs]]];
      cbn [app length accepted_continuations continuation_ok_at] in *;
      try (destruct r as [|b2 r]; [reflexivity|]);
      apply Hfalse; unfold is_paired; intros E; b2p;
      hifs; b2p; cbn [length] in *; lia.
  - rewrite app_nil_r.
    destruct cs as [|c1 [|c2 [|c3 cs]]]; try reflexivity;
      cbn [length] in *;
      apply Hfalse; unfold is_paired; intros E; b2p;
      hifs; b2p; lia.
Qed.

(** Whenever the continuation loop jumps to [replacement], what it has
    consumed after the initial byte is an invalid sequence and the read
    position is at the byte that made it invalid. *)
Lemma read_continuation_replacement b cp0 n lower upper p p' :
  lead_params (u8 b) = Some (cp0, n, lower, upper) ->
  read_continuation n lower upper cp0 p = Replacement p' ->
  exists cs, p = cs ++ p' /\ invalid_sequence (b :: cs) p'.
Proof.
  unfold lead_params. intros Hl Hr.
  assert (Hinv : forall cs,
    is_multibyte_lead (u8 b) = true ->
    accepted_continuations (u8 b) 0 cs = true ->
    (length cs < lead_continuations (u8 b))%nat ->
    match p' with
    | [] => True
    | x :: _ => continuation_ok_at (u8 b) (length cs) (u8 x) = false
    end ->
    invalid_sequence (b :: cs) p').
  { intros cs H1 H2 H3 H4. destruct p' as [|x r].
    - now apply truncated_sequence.
    - now apply invalid_continuation_byte. }
  destruct (0xc2 <=? u8 b) eqn:E0; [|discriminate].
  assert (Hlead : forall t, u8 b <= t -> t <= 0xf4 ->
                            is_multibyte_lead (u8 b) = true).
  { intros t H1 H2. unfold is_multibyte_lead. b2p.
    apply andb_true_iff. split; [apply Z.leb_le | apply Z.leb_le]; lia. }
  destruct (u8 b <=? 0xdf) eqn:E1; [|destruct (u8 b <=? 0xef) eqn:E2;
    [|destruct (u8 b <=? 0xf4) eqn:E3; [|discriminate]]];
    injection Hl as <- <- <- <-; cbn [read_continuation] in Hr.
  - specialize (Hlead 0xdf ltac:(b2p; lia) ltac:(lia)).
    destruct p as [|c1 p1].
    + injection Hr as <-. exists []. split; [reflexivity|].
      apply Hinv; try (exact Hlead || reflexivity || exact I).
      unfold lead_continuations. rewrite E1. cbn. lia.
    + destruct ((0x80 <=? u8 c1) && (u8 c1 <=? 0xbf)) eqn:E4;
        [discriminate|].
      injection Hr as <-. exists []. split; [reflexivity|].
      apply Hinv; try (exact Hlead || reflexivity).
      * unfold lead_continuations. rewrite E1. cbn. lia.
      * cbn [length continuation_ok_at].
        destruct (Z.eqb_spec (u8 b) 0xE0); destruct (Z.eqb_spec (u8 b) 0xF0);
          destruct (Z.eqb_spec (u8 b) 0xF4); try exact E4; b2p; lia.
  - specialize (Hlead 0xef ltac:(b2p; lia) ltac:(lia)).
    assert (Hn : lead_continuations (u8 b) = 2%nat)
      by (unfold lead_continuations; now rewrite E1, E2).
    assert (Hok0 : forall c,
      continuation_ok_at (u8 b) 0 c =
      ((if u8 b =? 0xe0 then 0xa0 else 0x80) <=? c) && (c <=? 0xbf)).
    { intros c. cbn [continuation_ok_at]. clear Hr.
      destruct (Z.eqb_spec (u8 b) 0xE0); destruct (Z.eqb_spec (u8 b) 0xF0);
        destruct (Z.eqb_spec (u8 b) 0xF4); try reflexivity; b2p; lia. }
    destruct p as [|c1 p1].
    + injection Hr as <-. exists []. split; [reflexivity|].
      apply Hinv; try (exact Hlead || reflexivity || exact I).
      rewrite Hn. cbn. lia.
    + destruct (((if u8 b =? 0xe0 then 0xa0 else 0x80) <=? u8 c1) &&
                (u8 c1 <=? 0xbf)) eqn:E4.
      * destruct p1 as [|c2 p2].
        -- injection Hr as <-. exists [c1]. split; [reflexivity|].
           apply Hinv; try (exact Hlead || exact I).
           ++ cbn [accepted_continuations]. now rewrite Hok0, E4.
           ++ rewrite Hn. cbn. lia.
        -- destruct ((0x80 <=? u8 c2) && (u8 c2 <=? 0xbf)) eqn:E5;
             [discriminate|].
           injection Hr as <-. exists [c1]. split; [reflexivity|].
           apply Hinv; try exact Hlead.
           ++ cbn [accepted_continuations]. now rewrite Hok0, E4.
           ++ rewrite Hn. cbn. lia.
           ++ exact E5.
      * injection Hr as <-. exists []. split; [reflexivity|].
        apply Hinv; try (exact Hlead || reflexivity).
        -- rewrite Hn. cbn. lia.
        -- cbn [length]. now rewrite Hok0.
  - specialize (Hlead 0xf4 ltac:(b2p; lia) ltac:(lia)).
    assert (Hn : lead_continuations (u8 b) = 3%nat)
      by (unfold lead_continuations; now rewrite E1, E2).
    assert (Hok0 : forall c,
      continuation_ok_at (u8 b) 0 c =
      ((if u8 b =? 0xf0 then 0x90 else 0x80) <=? c) &&
      (c <=? (if u8 b =? 0xf4 then 0x8f else 0xbf))).
    { intros c. cbn [continuation_ok_at]. clear Hr.
      destruct (Z.eqb_spec (u8 b) 0xE0); [b2p; lia|]. reflexivity. }
    destruct p as [|c1 p1].
    + injection Hr as <-. exists []. split; [reflexivity|].
      apply Hinv; try (exact Hlead || reflexivity || exact I).
      rewrite Hn. cbn. lia.
    + destruct (((if u8 b =? 0xf0 then 0x90 else 0x80) <=? u8 c1) &&
                (u8 c1 <=? (if u8 b =? 0xf4 then 0x8f else 0xbf))) eqn:E4.
      * destruct p1 as [|c2 p2].
        -- injection Hr as <-. exists [c1]. split; [reflexivity|].
           apply Hinv; try (exact Hlead || exact I).
           ++ cbn [accepted_continuations]. now rewrite Hok0, E4.
           ++ rewrite Hn. cbn. lia.
        -- destruct ((0x80 <=? u8 c2) && (u8 c2 <=? 0xbf)) eqn:E5.
           ++ destruct p2 as [|c3 p3].
              ** injection Hr as <-. exists [c1; c2].
                 split; [reflexivity|].
                 apply Hinv; try (exact Hlead || exact I).
                 --- cbn [accepted_continuations continuation_ok_at].
                     cbn [continuation_ok_at] in Hok0.
                     now rewrite Hok0, E4, E5.
                 --- rewrite Hn. cbn. lia.
              ** destruct ((0x80 <=? u8 c3) && (u8 c3 <=? 0xbf)) eqn:E6;
                   [discriminate|].
                 injection Hr as <-. exists [c1; c2].
                 split; [reflexivity|].
                 apply Hinv; try exact Hlead.
                 --- cbn [accepted_continuations continuation_ok_at].
                     cbn [continuation_ok_at] in Hok0.
                     now rewrite Hok0, E4, E5.
                 --- rewrite Hn. cbn. lia.
                 --- exact E6.
           ++ injection Hr as <-. exists [c1]. split; [reflexivity|].
              apply Hinv; try exact Hlead.
              ** cbn [accepted_continuations]. now rewrite Hok0, E4.
              ** rewrite Hn. cbn. lia.
              ** exact E5.
      * injection Hr as <-. exists []. split; [reflexivity|].
        apply Hinv; try (exact Hlead || reflexivity).
        -- rewrite Hn. cbn. lia.
        -- cbn [length]. now rewrite Hok0.
Qed.

(** Every non-empty input starts with a well-formed sequence or with an
    invalid one. *)
Lemma input_head_cases b p :
  (exists s cp r, b :: p = s ++ r /\ wf_sequence s cp) \/
  (exists e r, b :: p = e ++ r /\ invalid_sequence e r).
Proof.
  destruct (Z.ltb_spec (u8 b) 0x80) as [Hascii|Hhigh].
  { left. exists [b], (u8 b), p. split; [reflexivity|]. constructor. lia. }
  destruct (lead_params (u8 b)) as [[[[cp0 n] lower] upper]|] eqn:El.
  - destruct (read_continuation n lower upper cp0 p) as [cp p'|p'] eqn:Er.
    + destruct (read_continuation_decoded _ _ _ _ _ _ _ _ El Er)
        as (cs & -> & Hwf).
      left. now exists (b :: cs), cp, p'.
    + destruct (read_continuation_replacement _ _ _ _ _ _ _ El Er)
        as (cs & -> & Hinv).
      right. now exists (b :: cs), p'.
  - right. exists [b], p. split; [reflexivity|].
    apply invalid_initial_byte. unfold lead_params, is_invalid_lead in *.
    pose proof (u8_range b).
    destruct (Z.leb_spec 0xc2 (u8 b)).
    + destruct (Z.leb_spec (u8 b) 0xdf); [discriminate|].
      destruct (Z.leb_spec (u8 b) 0xef); [discriminate|].
      destruct (Z.leb_spec (u8 b) 0xf4); [discriminate|].
      apply orb_true_iff. right. apply Z.leb_le. lia.
    + apply orb_true_iff. left. apply andb_true_iff.
      split; apply Z.leb_le; lia.
Qed.

Lemma input_units_total b : exists us, input_units b us.
Proof.
  induction b as [b IH] using length_induction.
  destruct b as [|t p]; [exists []; constructor|].
  destruct (input_head_cases t p)
    as [(s & cp & r & Heq & Hs)|(e & r & Heq & He)].
  - destruct (IH r) as (us & Hus).
    { pose proof (sequence_nonempty _ _ Hs).
      rewrite Heq, length_app. lia. }
    exists (UnitScalar cp :: us). rewrite Heq. now constructor.
  - destruct (IH r) as (us & Hus).
    { pose proof (invalid_sequence_nonempty _ _ He).
      rewrite Heq, length_app. lia. }
    exists (UnitInvalid :: us). rewrite Heq. now constructor.
Qed.

Lemma coalesce_pairs_not_high cp l :
  is_high_surrogate cp = false ->
  coalesce_pairs (cp :: l) = cp :: coalesce_pairs l.
Proof.
  intros H. destruct l as [|lo rest]; [reflexivity|].
  now rewrite coalesce_pairs_cons2, H.
Qed.

(** The sanitizer on arbitrary input: the scalars of the well-formed
    sequences, one U+FFFD for each invalid sequence, and pairs combined
    only between two well-formed sequences. *)
Lemma sanitize_input_units b : forall us,
  input_units b us ->
  sanitize b = wtf8_encode_all (coalesce_pairs (map unit_scalar us)).
Proof.
  induction b as [b IH] using length_induction. intros us H.
  destruct H as [|s cp r us Hs Hr|e r us He Hr]; [reflexivity| |].
  - pose proof (sequence_nonempty _ _ Hs) as Hne.
    rewrite (sanitize_sequence _ _ _ Hs). cbn [map unit_scalar].
    pose proof Hr as Hr'.
    destruct Hr as [|s2 cp2 r2 us2 Hs2 Hr2|e r2 us2 He Hr2].
    + rewrite combine_nil. cbn [fst snd map coalesce_pairs].
      unfold wtf8_encode_all. cbn [flat_map]. now rewrite sanitize_nil.
    + pose proof (sequence_nonempty _ _ Hs2) as Hne2.
      rewrite (combine_sequence _ _ _ _ Hs2).
      cbn [map unit_scalar]. rewrite coalesce_pairs_cons2.
      destruct (is_high_surrogate cp && is_low_surrogate cp2);
        cbn [fst snd].
      * rewrite (IH r2 ltac:(rewrite !length_app; lia) _ Hr2).
        reflexivity.
      * rewrite (IH (s2 ++ r2) ltac:(rewrite !length_app; lia) _ Hr').
        reflexivity.
    + rewrite (combine_not_paired _ _ (is_paired_invalid_sequence _ _ He)).
      cbn [fst snd map unit_scalar].
      rewrite coalesce_pairs_cons2.
      replace (is_high_surrogate cp && is_low_surrogate 0xFFFD) with false
        by (now rewrite andb_false_r).
      rewrite (IH (e ++ r2) ltac:(rewrite !length_app; lia) _ Hr').
      reflexivity.
  - pose proof (invalid_sequence_nonempty _ _ He) as Hne.
    rewrite (sanitize_invalid_sequence _ _ He).
    cbn [map unit_scalar].
    rewrite coalesce_pairs_not_high by reflexivity.
    rewrite (IH r ltac:(rewrite length_app; lia) _ Hr).
    reflexivity.
Qed.

(** ** Character length *)

Lemma charlength_loop_wf_string p :
  wf_string p -> forall adj,
  charlength_loop p adj =
  Some (adj + Z.of_nat (length p) - sum_Z (map scalar_chars (wtf8_scalars p))).
Proof.
  induction 1 as [|s cp r Hs _ IH]; intros adj.
  - cbn. f_equal. lia.
  - rewrite (charlength_loop_sequence _ _ _ _ Hs), IH.
    rewrite (scalars_sequence_app _ _ _ Hs), length_app.
    cbn [map sum_Z fold_right]. f_equal. fold (sum_Z (map scalar_chars (wtf8_scalars r))). lia.
Qed.

Lemma charlength_wf_string p :
  wf_string p ->
  duk_unicode_wtf8_charlength p =
  Some (sum_Z (map scalar_chars (wtf8_scalars p))).
Proof.
  intros H. unfold duk_unicode_wtf8_charlength.
  rewrite (charlength_loop_wf_string p H). f_equal. lia.
Qed.

(** [adj <= blen]: the subtraction [blen - adj] does not wrap. *)
Lemma charlength_loop_bound p : forall adj adj',
  charlength_loop p adj = Some adj' ->
  adj <= adj' <= adj + Z.of_nat (length p).
Proof.
  induction p as [p IH] using length_induction. intros adj adj'.
  destruct p as [|b p1]; cbn [charlength_loop length].
  - intros [= <-]. lia.
  - destruct (u8 b <=? 0x7f).
    { intros H. apply IH in H; [|cbn [length]; lia]. lia. }
    destruct (u8 b <=? 0xdf).
    { destruct p1 as [|c1 p2]; [discriminate|].
      intros H. apply IH in H; cbn [length] in *; lia. }
    destruct (u8 b <=? 0xef).
    { destruct p1 as [|c1 [|c2 p3]]; try discriminate.
      intros H. apply IH in H; cbn [length] in *; lia. }
    destruct p1 as [|c1 [|c2 [|c3 p4]]]; try discriminate.
    intros H. apply IH in H; cbn [length] in *; lia.
Qed.

Lemma count_chars_wf_string p :
  wf_string p -> count_chars p = sum_Z (map scalar_chars (wtf8_scalars p)).
Proof.
  induction 1 as [|s cp r Hs _ IH]; [reflexivity|].
  rewrite (count_chars_sequence _ _ _ Hs), (scalars_sequence_app _ _ _ Hs).
  cbn [map sum_Z fold_right]. now rewrite IH.
Qed.

Lemma length_wf_string p :
  wf_string p ->
  Z.of_nat (length p) =
  Z.of_nat (length (wtf8_scalars p)) +
  sum_Z (map scalar_extra_bytes (wtf8_scalars p)).
Proof.
  induction 1 as [|s cp r Hs _ IH]; [reflexivity|].
  rewrite (scalars_sequence_app _ _ _ Hs), length_app.
  cbn [map sum_Z fold_right length].
  fold (sum_Z (map scalar_extra_bytes (wtf8_scalars r))).
  pose proof (sequence_length _ _ Hs). lia.
Qed.

(** ** The counter [out_clen_sub] *)

Lemma wrap32_add_l a b : wrap32 (wrap32 a + b) = wrap32 (a + b).
Proof. unfold wrap32. now rewrite Zplus_mod_idemp_l. Qed.

Lemma sanitize_loop_sub fuel : forall p q sub,
  (length p <= fuel)%nat ->
  snd (sanitize_loop fuel p q (wrap32 sub)) =
  wrap32 (sub + sum_Z (map scalar_extra_bytes (wtf8_scalars (sanitize p)))).
Proof.
  induction fuel as [|fuel IH]; intros p q sub Hlen.
  - destruct p; [|cbn [length] in Hlen; lia].
    cbn. f_equal. lia.
  - destruct p as [|b p']; [cbn; f_equal; lia|].
    cbn [sanitize_loop]. rewrite sanitize_cons.
    pose proof (sanitize_step_length b p') as Hs.
    destruct (sanitize_step_spec b p') as (cp & Hok & Hfst & _).
    destruct (sanitize_step b p') as [[w d] p''].
    cbn [fst snd] in *. injection Hfst as -> ->.
    rewrite wrap32_add_l, IH by (cbn [length] in Hlen; lia).
    rewrite (scalars_sequence_app _ cp) by now apply encode_wf_sequence.
    cbn [map sum_Z fold_right]. f_equal.
    fold (sum_Z (map scalar_extra_bytes (wtf8_scalars (sanitize p'')))). lia.
Qed.

Lemma sanitize_locals_spec str :
  let l := sanitize_string_locals str in
  out_data l = sanitize str /\
  out_blen l = wrap32 (Z.of_nat (length (sanitize str))) /\
  out_clen_sub l =
    wrap32 (sum_Z (map scalar_extra_bytes (wtf8_scalars (sanitize str)))) /\
  out_clen l =
    wrap32 (Z.of_nat (length (sanitize str)) -
            sum_Z (map scalar_extra_bytes (wtf8_scalars (sanitize str)))).
Proof.
  pose proof (sanitize_loop_sub (length str) str [] 0 (Nat.le_refl _)) as Hsub.
  pose proof (sanitize_out_data str) as Hout.
  unfold sanitize_string_locals.
  change (wrap32 0) with 0 in Hsub.
  destruct (sanitize_loop (length str) str [] 0) as [q sub].
  cbn [fst snd] in *. cbn [out_data out_blen out_clen_sub out_clen].
  subst q sub. repeat split.
  unfold wrap32. rewrite Z.add_0_l. rewrite <- Zminus_mod. reflexivity.
Qed.

(** ** Symbol detection *)

Lemma sanitize_detect_classify str :
  duk_unicode_wtf8_sanitize_detect str =
  match classify str with
  | KindSymbol => (str, Z.of_nat (length str))
  | KindString => duk_unicode_wtf8_sanitize_string str
  end.
Proof.
  unfold duk_unicode_wtf8_sanitize_detect, classify.
  destruct str as [|b str]; [reflexivity|].
  cbn [existsb symbol_markers].
  destruct (u8 b <=? 0x7f) eqn:E.
  - b2p. cbv iota.
    destruct (_ || _) eqn:E1; [exfalso; b2p; lia | reflexivity].
  - rewrite orb_false_r, !orb_assoc.
    destruct (_ || _); reflexivity.
Qed.

(** * The sanitizer: main results *)

(** C1: on an input that the validator accepts, the sanitizer returns the
    input with every high surrogate immediately followed by a low surrogate
    (each a 3-byte sequence) replaced by the 4-byte encoding of
    [0x10000 + ((hi - 0xD800) << 10) + (lo - 0xDC00)]; everything else,
    lone surrogates included, is copied unchanged.  The input is the
    encoding of its scalars, the output is the encoding of the scalars
    after the pairs have been combined. *)
Theorem sanitize_valid_input_coalesces_pairs (b : list byte) :
  duk_unicode_is_valid_wtf8 b = true ->
  wtf8_encode_all (wtf8_scalars b) = b /\
  sanitize b = wtf8_encode_all (coalesce_pairs (wtf8_scalars b)).
Proof.
  intros H. apply valid_iff_wf_string in H. split.
  - now apply wf_string_scalars.
  - now apply sanitize_wf_string_coalesce.
Qed.

Lemma sanitize_valid_input_coalesces_pairs_witness :
  duk_unicode_is_valid_wtf8
    (bytes_of [0xED; 0xA0; 0xBD; 0xED; 0xB8; 0x80]) = true /\
  sanitize (bytes_of [0xED; 0xA0; 0xBD; 0xED; 0xB8; 0x80]) =
  bytes_of [0xF0; 0x9F; 0x98; 0x80].
Proof.
  split; [reflexivity|].
  exact (eq_trans
    (proj2 (sanitize_valid_input_coalesces_pairs
              (bytes_of [0xED; 0xA0; 0xBD; 0xED; 0xB8; 0x80]) eq_refl))
    eq_refl).
Defined.

(** C2: every input is read, from left to right, as a list of units, each
    a well-formed sequence or an invalid sequence, and the sanitizer writes
    the scalars of the well-formed sequences and exactly one U+FFFD, the
    three bytes EF BF BD, for each invalid sequence, combining a high
    surrogate with a low surrogate only when both are well-formed sequences
    next to each other.  An invalid sequence is an invalid initial byte (a
    continuation byte, 0xC0, 0xC1 or 0xF5-0xFF) on its own, or an initial
    byte followed by fewer acceptable continuation bytes than it announces,
    either because the next byte is not an acceptable continuation byte
    (this covers overlong forms and codepoints above U+10FFFF, which are
    excluded by the bounds on the first continuation byte) or because the
    input ends.  The byte that made the sequence invalid is not consumed:
    it starts the next unit. *)
Theorem sanitize_replaces_invalid_sequences :
  replacement_bytes = bytes_of [0xEF; 0xBF; 0xBD] /\
  wtf8_encode (unit_scalar UnitInvalid) = replacement_bytes /\
  (forall b : list byte, exists us, input_units b us) /\
  (forall b us,
     input_units b us ->
     sanitize b = wtf8_encode_all (coalesce_pairs (map unit_scalar us))) /\
  (forall e r,
     invalid_sequence e r ->
     sanitize (e ++ r) = replacement_bytes ++ sanitize r) /\
  (forall b p,
     is_invalid_lead (u8 b) = true ->
     sanitize (b :: p) = replacement_bytes ++ sanitize p) /\
  (forall b cs x p,
     is_multibyte_lead (u8 b) = true ->
     accepted_continuations (u8 b) 0 cs = true ->
     (length cs < lead_continuations (u8 b))%nat ->
     continuation_ok_at (u8 b) (length cs) (u8 x) = false ->
     sanitize (b :: cs ++ x :: p) = replacement_bytes ++ sanitize (x :: p)) /\
  (forall b cs,
     is_multibyte_lead (u8 b) = true ->
     accepted_continuations (u8 b) 0 cs = true ->
     (length cs < lead_continuations (u8 b))%nat ->
     sanitize (b :: cs) = replacement_bytes) /\
  sanitize (bytes_of [0x41; 0xC3; 0x28]) =
  bytes_of [0x41; 0xEF; 0xBF; 0xBD; 0x28].
Proof.
  split; [reflexivity|].
  split; [reflexivity|].
  split; [exact input_units_total|].
  split; [exact sanitize_input_units|].
  split; [exact sanitize_invalid_sequence|].
  split; [exact sanitize_invalid_lead|].
  split; [exact sanitize_invalid_continuation|].
  split; [exact sanitize_truncated|].
  vm_compute. reflexivity.
Qed.

Lemma sanitize_replaces_invalid_sequences_witness :
  sanitize (bytes_of [0xC3; 0x28]) =
  replacement_bytes ++ sanitize (bytes_of [0x28]) /\
  sanitize (bytes_of [0xE0; 0x80; 0x80]) =
  replacement_bytes ++ sanitize (bytes_of [0x80; 0x80]) /\
  sanitize (bytes_of [0x80; 0x41]) =
  replacement_bytes ++ sanitize (bytes_of [0x41]) /\
  sanitize (bytes_of [0xF0; 0x9F; 0x98]) = replacement_bytes /\
  sanitize (bytes_of [0xED; 0xA0; 0x80; 0xED; 0xB0; 0x41]) =
  bytes_of [0xED; 0xA0; 0x80; 0xEF; 0xBF; 0xBD; 0x41] /\
  sanitize (bytes_of [0x41; 0xC3; 0x28]) =
  bytes_of [0x41; 0xEF; 0xBF; 0xBD; 0x28].
Proof.
  destruct sanitize_replaces_invalid_sequences
    as (_ & _ & _ & Hunits & _ & Hlead & Hcont & Htrunc & _).
  split; [|split; [|split; [|split; [|split]]]].
  - exact (Hcont (byte.of_Z 0xC3) [] (byte.of_Z 0x28) []
             eq_refl eq_refl (Nat.lt_0_succ 0) eq_refl).
  - exact (Hcont (byte.of_Z 0xE0) [] (byte.of_Z 0x80) [byte.of_Z 0x80]
             eq_refl eq_refl (Nat.lt_0_succ 1) eq_refl).
  - exact (Hlead (byte.of_Z 0x80) [byte.of_Z 0x41] eq_refl).
  - exact (Htrunc (byte.of_Z 0xF0) [byte.of_Z 0x9F; byte.of_Z 0x98]
             eq_refl eq_refl (Nat.lt_succ_diag_r 2)).
  - assert (Hu : input_units
                   (bytes_of [0xED; 0xA0; 0x80; 0xED; 0xB0; 0x41])
                   [UnitScalar 0xD800; UnitInvalid; UnitScalar 0x41]).
    { apply (units_scalar (bytes_of [0xED; 0xA0; 0x80]) 0xD800
                          (bytes_of [0xED; 0xB0; 0x41])).
      { apply (wf_seq3 (byte.of_Z 0xED) (byte.of_Z 0xA0) (byte.of_Z 0x80));
          vm_compute; try split; intros; discriminate. }
      apply (units_invalid (bytes_of [0xED; 0xB0]) (bytes_of [0x41])).
      { apply (invalid_continuation_byte
                 (byte.of_Z 0xED) [byte.of_Z 0xB0] (byte.of_Z 0x41) []);
          try reflexivity.
        vm_compute. lia. }
      apply (units_scalar (bytes_of [0x41]) 0x41 []).
      { apply (wf_seq1 (byte.of_Z 0x41)). vm_compute. discriminate. }
      apply units_nil. }
    rewrite (Hunits _ _ Hu). vm_compute. reflexivity.
  - assert (Hu : input_units (bytes_of [0x41; 0xC3; 0x28])
                   [UnitScalar 0x41; UnitInvalid; UnitScalar 0x28]).
    { apply (units_scalar (bytes_of [0x41]) 0x41 (bytes_of [0xC3; 0x28])).
      { apply (wf_seq1 (byte.of_Z 0x41)). vm_compute. discriminate. }
      apply (units_invalid (bytes_of [0xC3]) (bytes_of [0x28])).
      { apply (invalid_continuation_byte
                 (byte.of_Z 0xC3) [] (byte.of_Z 0x28) []);
          try reflexivity.
        vm_compute. lia. }
      apply (units_scalar (bytes_of [0x28]) 0x28 []).
      { apply (wf_seq1 (byte.of_Z 0x28)). vm_compute. discriminate. }
      apply units_nil. }
    rewrite (Hunits _ _ Hu). vm_compute. reflexivity.
Defined.

(** C3: the output of the sanitizer is accepted by the validator; it is a
    concatenation of well-formed sequences in the sense of section 4.A
    ([wf_sequence]): no continuation byte, 0xC0, 0xC1 or 0xF5-0xFF as
    initial byte, no truncated sequence, no overlong form, nothing above
    U+10FFFF; surrogates in three bytes are allowed. *)
Theorem sanitize_output_is_valid_wtf8 (b : list byte) :
  duk_unicode_is_valid_wtf8 (sanitize b) = true /\ wf_string (sanitize b).
Proof.
  pose proof (sanitize_wf_string b) as H.
  split; [now apply valid_iff_wf_string | exact H].
Qed.

(** C4 as stated does not hold: the value returned with the output bytes
    is the byte length.  On C3 A9 the sanitizer returns 2, and the output
    byte length minus the extra bytes of the emitted codepoints is 1. *)
Lemma sanitize_string_returns_byte_length_counterexample :
  let r := duk_unicode_wtf8_sanitize_string (bytes_of [0xC3; 0xA9]) in
  r = (bytes_of [0xC3; 0xA9], 2) /\
  Z.of_nat (length (fst r)) -
    sum_Z (map scalar_extra_bytes (wtf8_scalars (fst r))) = 1 /\
  snd r <>
  Z.of_nat (length (fst r)) -
    sum_Z (map scalar_extra_bytes (wtf8_scalars (fst r))).
Proof. vm_compute. repeat split; discriminate. Qed.

(** C4, amended: the sanitizer returns the output bytes and [out_blen],
    the number of bytes written (as a 32-bit value).  The local [out_clen]
    is [out_blen] minus the sum over the emitted codepoints of their
    extra bytes (1 for a 2-byte scalar, 2 for a 3-byte scalar and for the
    replacement, 3 for a 4-byte scalar); it is computed and dropped. *)
Theorem sanitize_string_returns_byte_length (str : list byte) :
  duk_unicode_wtf8_sanitize_string str =
    (sanitize str, wrap32 (Z.of_nat (length (sanitize str)))) /\
  out_clen (sanitize_string_locals str) =
    wrap32 (Z.of_nat (length (sanitize str)) -
            sum_Z (map scalar_extra_bytes (wtf8_scalars (sanitize str)))) /\
  scalar_extra_bytes 0xFFFD = 2.
Proof.
  destruct (sanitize_locals_spec str) as (Hd & Hb & _ & Hc).
  split; [|split; [exact Hc | reflexivity]].
  unfold duk_unicode_wtf8_sanitize_string,
    duk__unicode_wtf8_sanitize_string_reference.
  now rewrite Hd, Hb.
Qed.

(** C6: on an input that the validator accepts, [charlength] returns the
    count of section 4.E (one character for an initial byte up to 0x7F,
    0xC2-0xDF or 0xE0-0xEF with 1, 2 or 3 bytes consumed, two characters
    for 0xF0-0xF4 with 4 bytes consumed); on the output of the sanitizer
    it is the sum over the scalars of 1 below 0x10000 and 2 from there. *)
Theorem charlength_counts_characters :
  (forall p, duk_unicode_is_valid_wtf8 p = true ->
             duk_unicode_wtf8_charlength p = Some (count_chars p)) /\
  (forall b, duk_unicode_wtf8_charlength (sanitize b) =
             Some (sum_Z (map scalar_chars (wtf8_scalars (sanitize b))))).
Proof.
  split.
  - intros p H. apply valid_iff_wf_string in H.
    rewrite (count_chars_wf_string p H). now apply charlength_wf_string.
  - intros b. apply charlength_wf_string, sanitize_wf_string.
Qed.

Lemma charlength_counts_characters_witness :
  duk_unicode_is_valid_wtf8
    (bytes_of [0x41; 0xC3; 0xA9; 0x20; 0xF0; 0x9F; 0x98; 0x80]) = true /\
  duk_unicode_wtf8_charlength
    (bytes_of [0x41; 0xC3; 0xA9; 0x20; 0xF0; 0x9F; 0x98; 0x80]) = Some 5.
Proof.
  split; [reflexivity|].
  exact (eq_trans
    (proj1 charlength_counts_characters
       (bytes_of [0x41; 0xC3; 0xA9; 0x20; 0xF0; 0x9F; 0x98; 0x80]) eq_refl)
    eq_refl).
Defined.

(** C7: the sanitizer is idempotent, for the output bytes and for the
    returned length. *)
Theorem sanitize_idempotent (b : list byte) :
  sanitize (sanitize b) = sanitize b /\
  duk_unicode_wtf8_sanitize_string (fst (duk_unicode_wtf8_sanitize_string b))
  = duk_unicode_wtf8_sanitize_string b.
Proof.
  pose proof (sanitize_idempotent_bytes b) as H.
  split; [exact H|].
  fold (sanitize b).
  destruct (sanitize_locals_spec b) as (Hd & Hb & _).
  destruct (sanitize_locals_spec (sanitize b)) as (Hd' & Hb' & _).
  unfold duk_unicode_wtf8_sanitize_string,
    duk__unicode_wtf8_sanitize_string_reference.
  now rewrite Hd, Hb, Hd', Hb', H.
Qed.

(** C9: a non-empty input whose first byte is 0x80, 0x81, 0x82 or 0xFF is
    handled as a symbol: its bytes are copied as they are and the returned
    length is the input length.  Any other input, the empty one included,
    goes through the string sanitizer. *)
Theorem sanitize_detect_symbols_verbatim (str : list byte) :
  duk_unicode_wtf8_sanitize_detect str =
  match classify str with
  | KindSymbol => (str, Z.of_nat (length str))
  | KindString => duk_unicode_wtf8_sanitize_string str
  end.
Proof. apply sanitize_detect_classify. Qed.

(** * Lazy character length of read-only handles *)

(** No variant of [duk_hstring_get_charlen] writes a read-only handle when
    ROM strings are enabled. *)
Lemma get_charlen_readonly_frame cfg h n h' :
  USE_ROM_STRINGS cfg = true -> h_readonly h = true ->
  duk_hstring_get_charlen cfg h = Some (n, h') -> h' = h.
Proof.
  intros Hrom Hro.
  unfold duk_hstring_get_charlen, duk__hstring_get_charlen_slowpath.
  rewrite Hrom, Hro. cbn [andb].
  destruct (USE_HSTRING_LAZY_CLEN cfg), (USE_HSTRING_CLEN cfg),
    (negb (h_clen h =? 0)), (h_ascii h), (h_symbol h),
    (duk_unicode_wtf8_charlength (duk_hstring_get_data h));
    intros [= _ <-]; reflexivity.
Qed.

(** The read-only branches of the two slow paths: with a [clen] field
    that holds 0 the call returns 0; without a [clen] field the length is
    computed and the write-back skipped. *)
Lemma get_charlen_readonly_variants (cfg : duk_config) (h : duk_hstring) :
  USE_ROM_STRINGS cfg = true ->
  h_readonly h = true ->
  (USE_HSTRING_LAZY_CLEN cfg = true -> USE_HSTRING_CLEN cfg = true ->
   h_clen h = 0 ->
   duk_hstring_get_charlen cfg h = Some (0, h)) /\
  (USE_HSTRING_LAZY_CLEN cfg = true -> USE_HSTRING_CLEN cfg = false ->
   duk_hstring_get_charlen cfg h =
   if h_ascii h then Some (duk_hstring_get_bytelen h, h)
   else if h_symbol h then Some (0, h)
   else option_map (fun res => (res, h))
                   (duk_unicode_wtf8_charlength (duk_hstring_get_data h))).
Proof.
  intros Hrom Hro. split.
  - intros Hlazy Hclen Hzero.
    unfold duk_hstring_get_charlen, duk__hstring_get_charlen_slowpath.
    now rewrite Hlazy, Hclen, Hzero, Hrom, Hro.
  - intros Hlazy Hclen.
    unfold duk_hstring_get_charlen, duk__hstring_get_charlen_slowpath.
    rewrite Hlazy, Hclen, Hrom, Hro. cbn [andb].
    destruct (h_ascii h), (h_symbol h),
      (duk_unicode_wtf8_charlength (duk_hstring_get_data h)); reflexivity.
Qed.

(** * Substring *)

(** ** Concatenation of well-formed strings *)

Lemma wf_string_concat a b : wf_string a -> wf_string b -> wf_string (a ++ b).
Proof.
  induction 1 as [|s cp r Hs _ IH]; intros Hb; [exact Hb|].
  rewrite <- app_assoc. econstructor; [exact Hs | now apply IH].
Qed.

Lemma wf_string_sequence s cp : wf_sequence s cp -> wf_string s.
Proof.
  intros H. rewrite <- (app_nil_r s). econstructor; [exact H | constructor].
Qed.

Lemma scalar_chars_pos cp : 1 <= scalar_chars cp <= 2.
Proof. unfold scalar_chars. destruct (cp <? 0x10000); lia. Qed.

Lemma count_chars_concat a b :
  wf_string a -> count_chars (a ++ b) = count_chars a + count_chars b.
Proof.
  induction 1 as [|s cp r Hs _ IH]; [reflexivity|].
  rewrite <- app_assoc, !(count_chars_sequence _ _ _ Hs), IH. lia.
Qed.

Lemma count_chars_nonneg p : wf_string p -> 0 <= count_chars p.
Proof.
  induction 1 as [|s cp r Hs _ IH]; [cbn; lia|].
  rewrite (count_chars_sequence _ _ _ Hs).
  pose proof (scalar_chars_pos cp). lia.
Qed.

Lemma count_chars_single s cp :
  wf_sequence s cp -> count_chars s = scalar_chars cp.
Proof.
  intros H. rewrite <- (app_nil_r s), (count_chars_sequence _ _ _ H).
  cbn [count_chars]. lia.
Qed.

Lemma sequence_chars_le_length s cp :
  wf_sequence s cp -> scalar_chars cp <= Z.of_nat (length s).
Proof.
  intros H. unfold scalar_chars. destruct H; cbn [length]; ifs; lia.
Qed.

Lemma count_chars_le_length p :
  wf_string p -> count_chars p <= Z.of_nat (length p).
Proof.
  induction 1 as [|s cp r Hs _ IH]; [cbn; lia|].
  rewrite (count_chars_sequence _ _ _ Hs), length_app.
  pose proof (sequence_chars_le_length _ _ Hs). lia.
Qed.

Lemma supplementary_sequence s cp :
  wf_sequence s cp -> 0x10000 <= cp ->
  length s = 4%nat /\ scalar_chars cp = 2 /\ cp <= 0x10FFFF /\
  exists b cs, s = b :: cs /\ 0xF0 <= u8 b.
Proof.
  intros H Hcp. unfold scalar_chars.
  destruct H; try (exfalso; zsolve).
  repeat split; [ifs; reflexivity | zsolve | eauto].
  do 2 eexists. split; [reflexivity | lia].
Qed.

(** A string that holds a supplementary scalar takes the non-ASCII path. *)
Lemma count_chars_lt_length pre s cp post :
  wf_string pre -> wf_sequence s cp -> 0x10000 <= cp -> wf_string post ->
  count_chars (pre ++ s ++ post) < Z.of_nat (length (pre ++ s ++ post)).
Proof.
  intros Hpre Hs Hcp Hpost.
  rewrite count_chars_concat by assumption.
  rewrite (count_chars_sequence _ _ _ Hs), !length_app.
  pose proof (count_chars_le_length _ Hpre).
  pose proof (count_chars_le_length _ Hpost).
  destruct (supplementary_sequence _ _ Hs Hcp) as (Hl & Hc & _). lia.
Qed.

(** ** The scan to a character offset *)

Lemma scan_sequence s cp rest pos bo co :
  wf_sequence s cp -> co <> pos -> (0x10000 <= cp -> co + 1 <> pos) ->
  scan_char2byte (s ++ rest) pos bo co =
  scan_char2byte rest pos (bo + Z.of_nat (length s)) (co + scalar_chars cp).
Proof.
  intros H Hne Hne2. unfold scalar_chars.
  destruct H; cbn [app scan_char2byte length];
    (destruct (Z.eqb_spec co pos); [contradiction|]).
  - ifs; reflexivity.
  - ifs; reflexivity.
  - ifs; reflexivity.
  - assert (co + 1 <> pos) by (apply Hne2; zsolve).
    destruct (Z.eqb_spec (co + 1) pos); [contradiction|].
    ifs; reflexivity.
Qed.

Lemma scan_stop p pos bo :
  scan_char2byte p pos bo pos = (bo, pos).
Proof. destruct p; cbn [scan_char2byte]; [|rewrite Z.eqb_refl]; reflexivity. Qed.

(** The offset is the boundary after [pre]. *)
Lemma scan_boundary pre :
  wf_string pre -> forall post bo co,
  scan_char2byte (pre ++ post) (co + count_chars pre) bo co =
  (bo + Z.of_nat (length pre), co + count_chars pre).
Proof.
  induction 1 as [|s cp r Hs Hr IH]; intros post bo co.
  - cbn [app count_chars length]. rewrite !Z.add_0_r. apply scan_stop.
  - pose proof (scalar_chars_pos cp) as Hc.
    pose proof (count_chars_nonneg _ Hr) as Hn.
    rewrite <- app_assoc, (count_chars_sequence _ _ _ Hs).
    rewrite (scan_sequence _ _ _ _ _ _ Hs).
    + replace (co + (scalar_chars cp + count_chars r))
        with (co + scalar_chars cp + count_chars r) by lia.
      rewrite IH, length_app. f_equal; lia.
    + lia.
    + intros Hbig. destruct (supplementary_sequence _ _ Hs Hbig) as (_&?&_).
      lia.
Qed.

(** The offset is the low half of the supplementary scalar after [pre]. *)
Lemma scan_split pre :
  wf_string pre -> forall s cp post bo co,
  wf_sequence s cp -> 0x10000 <= cp ->
  scan_char2byte (pre ++ s ++ post) (co + count_chars pre + 1) bo co =
  (bo + Z.of_nat (length pre), co + count_chars pre).
Proof.
  induction 1 as [|s0 cp0 r Hs0 Hr IH]; intros s cp post bo co Hs Hcp.
  - cbn [app count_chars length]. rewrite !Z.add_0_r.
    destruct (supplementary_sequence _ _ Hs Hcp) as (_&_&_& b & cs & -> & Hb).
    cbn [app scan_char2byte].
    destruct (Z.eqb_spec co (co + 1)); [lia|].
    rewrite Z.eqb_refl. ifs; reflexivity.
  - pose proof (scalar_chars_pos cp0) as Hc.
    pose proof (count_chars_nonneg _ Hr) as Hn.
    rewrite <- app_assoc, (count_chars_sequence _ _ _ Hs0).
    rewrite (scan_sequence _ _ _ _ _ _ Hs0).
    + replace (co + (scalar_chars cp0 + count_chars r) + 1)
        with (co + scalar_chars cp0 + count_chars r + 1) by lia.
      rewrite (IH _ _ _ _ _ Hs Hcp), length_app. f_equal; lia.
    + lia.
    + intros Hbig.
      destruct (supplementary_sequence _ _ Hs0 Hbig) as (_&?&_). lia.
Qed.

(** Every character offset of a well-formed string is a boundary or the
    low half of a supplementary scalar. *)
Lemma position_cases p :
  wf_string p -> forall n, 0 <= n <= count_chars p ->
  (exists pre post,
     p = pre ++ post /\ wf_string pre /\ wf_string post /\
     count_chars pre = n) \/
  (exists pre s cp post,
     p = pre ++ s ++ post /\ wf_string pre /\ wf_sequence s cp /\
     0x10000 <= cp /\ wf_string post /\ count_chars pre + 1 = n).
Proof.
  induction 1 as [|s cp r Hs Hr IH]; intros n Hn.
  - left. exists [], []. cbn in *. repeat split; try constructor. lia.
  - rewrite (count_chars_sequence _ _ _ Hs) in Hn.
    pose proof (scalar_chars_pos cp) as Hc.
    destruct (Z.eq_dec n 0) as [->|Hn0].
    { left. exists [], (s ++ r).
      repeat split; try constructor. econstructor; eassumption. }
    destruct (Z.ltb_spec n (scalar_chars cp)) as [Hlt|Hge].
    { right. exists [], s, cp, r. cbn [app count_chars].
      unfold scalar_chars in *. destruct (Z.ltb_spec cp 0x10000);
        repeat split; try constructor; try assumption; lia. }
    destruct (IH (n - scalar_chars cp) ltac:(lia))
      as [(pre & post & -> & Hpre & Hpost & Hcount)
         |(pre & s1 & cp1 & post & -> & Hpre & Hs1 & Hcp1 & Hpost & Hcount)].
    + left. exists (s ++ pre), post. rewrite <- app_assoc.
      repeat split; try assumption; [econstructor; eassumption|].
      rewrite (count_chars_sequence _ _ _ Hs). lia.
    + right. exists (s ++ pre), s1, cp1, post. rewrite <- app_assoc.
      repeat split; try assumption; [econstructor; eassumption|].
      rewrite (count_chars_sequence _ _ _ Hs). lia.
Qed.

(** ** Character length of a handle *)

Lemma charlength_valid_count p :
  duk_unicode_is_valid_wtf8 p = true ->
  duk_unicode_wtf8_charlength p = Some (count_chars p).
Proof.
  intros H. apply valid_iff_wf_string in H.
  rewrite (count_chars_wf_string p H). now apply charlength_wf_string.
Qed.

Lemma hstring_charlen_wf cfg h :
  hstring_wf cfg h -> hstring_charlen cfg h = Some (count_chars (h_data h)).
Proof.
  intros (Hsym & Hvalid & Hascii & Hclen).
  pose proof (charlength_valid_count _ Hvalid) as Hlen.
  unfold hstring_charlen, duk_hstring_get_charlen,
    duk__hstring_get_charlen_slowpath, clen_field_ok,
    duk_hstring_get_data in *.
  rewrite Hsym, Hlen.
  destruct (USE_HSTRING_LAZY_CLEN cfg); [|cbn; now rewrite Hclen].
  destruct (USE_HSTRING_CLEN cfg).
  - destruct (Z.eqb_spec (h_clen h) 0) as [Hz|Hnz]; cbn [negb].
    + destruct (USE_ROM_STRINGS cfg && h_readonly h) eqn:Hro; cbn.
      * destruct Hclen as [<-|[_ ?]]; [now rewrite Hz | discriminate].
      * reflexivity.
    + cbn. destruct Hclen as [<-|[? _]]; [reflexivity | contradiction].
  - destruct (h_ascii h); cbn.
    + now rewrite Hascii.
    + destruct (USE_ROM_STRINGS cfg && h_readonly h); reflexivity.
Qed.

(** ** Read-only handles *)

(** C10: with ROM strings enabled, [duk_hstring_get_charlen] writes no
    field of a read-only handle, whatever the handle holds: the handle
    after the call is the handle before it.  On a read-only handle that
    satisfies the handle invariants (a ROM string carries its precomputed
    [clen], so a stored 0 is the length of the string) the call returns
    the character length of the bytes, in the variant with a [clen] field
    and in the variant without, where the length is computed and the
    write-back skipped. *)
Theorem readonly_charlen_writes_nothing (cfg : duk_config) (h : duk_hstring) :
  USE_ROM_STRINGS cfg = true ->
  h_readonly h = true ->
  (forall n h', duk_hstring_get_charlen cfg h = Some (n, h') -> h' = h) /\
  (hstring_wf cfg h ->
   duk_hstring_get_charlen cfg h = Some (count_chars (h_data h), h) /\
   duk_unicode_wtf8_charlength (duk_hstring_get_data h) =
     Some (count_chars (h_data h))).
Proof.
  intros Hrom Hro. split.
  - intros n h'. now apply get_charlen_readonly_frame.
  - intros Hwf. split.
    + pose proof (hstring_charlen_wf cfg h Hwf) as Hlen.
      unfold hstring_charlen in Hlen.
      destruct (duk_hstring_get_charlen cfg h) as [[n h']|] eqn:Hget;
        [|discriminate].
      cbn [option_map fst] in Hlen. injection Hlen as ->.
      now rewrite (get_charlen_readonly_frame cfg h _ h' Hrom Hro Hget).
    + destruct Hwf as (_ & Hv & _).
      now apply charlength_valid_count.
Qed.

Lemma readonly_charlen_writes_nothing_witness :
  let cfg1 := {| USE_HSTRING_LAZY_CLEN := true; USE_HSTRING_CLEN := false;
                 USE_ROM_STRINGS := true; USE_STRLEN16 := false |} in
  let h1 := {| h_readonly := true; h_symbol := false; h_ascii := false;
               h_clen := 0; h_data := bytes_of [0xC3; 0xA9] |} in
  let cfg2 := {| USE_HSTRING_LAZY_CLEN := true; USE_HSTRING_CLEN := true;
                 USE_ROM_STRINGS := true; USE_STRLEN16 := false |} in
  let h2 := {| h_readonly := true; h_symbol := false; h_ascii := true;
               h_clen := 0; h_data := [] |} in
  duk_hstring_get_charlen cfg1 h1 = Some (1, h1) /\
  duk_hstring_get_charlen cfg2 h2 = Some (0, h2).
Proof.
  intros cfg1 h1 cfg2 h2. split.
  - refine (proj1 (proj2 (readonly_charlen_writes_nothing cfg1 h1
                            eq_refl eq_refl) _)).
    unfold hstring_wf, clen_field_ok.
    split; [reflexivity|]. split; [reflexivity|].
    split; [intros Hf; discriminate Hf | exact I].
  - refine (proj1 (proj2 (readonly_charlen_writes_nothing cfg2 h2
                            eq_refl eq_refl) _)).
    unfold hstring_wf, clen_field_ok.
    split; [reflexivity|]. split; [reflexivity|].
    split; [intros _; reflexivity | left; reflexivity].
Defined.

(** ** Reading a slice *)

Lemma read_bytes_middle pre mid post :
  read_bytes (pre ++ mid ++ post) (Z.of_nat (length pre))
             (Z.of_nat (length mid)) = Some mid.
Proof.
  unfold read_bytes. rewrite !length_app.
  replace ((0 <=? Z.of_nat (length pre)) && (0 <=? Z.of_nat (length mid)) &&
           (Z.of_nat (length pre) + Z.of_nat (length mid) <=?
            Z.of_nat (length pre + (length mid + length post)))) with true
    by (symmetry; repeat (apply andb_true_intro; split); apply Z.leb_le; lia).
  rewrite !Nat2Z.id. f_equal.
  rewrite skipn_app, Nat.sub_diag, skipn_all. cbn [skipn app].
  rewrite firstn_app, Nat.sub_diag, firstn_all. cbn [firstn].
  now rewrite app_nil_r.
Qed.

Lemma skipn_prefix (pre rest : list byte) :
  skipn (Z.to_nat (Z.of_nat (length pre))) (pre ++ rest) = rest.
Proof.
  rewrite Nat2Z.id, skipn_app, Nat.sub_diag, skipn_all. reflexivity.
Qed.

(** ** Manufactured surrogates *)

Lemma surrogate_bytes_encode s :
  0xD800 <= s <= 0xDFFF -> surrogate_bytes s = wtf8_encode s.
Proof.
  intros H. unfold surrogate_bytes, wtf8_encode. ifs.
  zbits. repeat f_equal. zsolve.
Qed.

Lemma high_half_range cp :
  0x10000 <= cp <= 0x10FFFF -> 0xD800 <= high_half cp <= 0xDBFF.
Proof. intros H. unfold high_half. zsolve. Qed.

Lemma low_half_range cp :
  0x10000 <= cp <= 0x10FFFF -> 0xDC00 <= low_half cp <= 0xDFFF.
Proof. intros H. unfold low_half. zsolve. Qed.

Lemma wrap32_small z : 0 <= z < 2 ^ 32 -> wrap32 z = z.
Proof. intros H. unfold wrap32. now apply Z.mod_small. Qed.

(** ** The two scans of the substring code *)

Lemma substring_start_boundary h pre post :
  h_data h = pre ++ post -> wf_string pre ->
  substring_start h (count_chars pre) = Some (0, Z.of_nat (length pre)).
Proof.
  intros Hd Hpre.
  unfold substring_start, duk_strcache_scan_char2byte_wtf8,
    duk_hstring_get_data.
  rewrite Hd.
  pose proof (scan_boundary pre Hpre post 0 0) as Hs.
  rewrite !Z.add_0_l in Hs. rewrite Hs, Z.eqb_refl. reflexivity.
Qed.

Lemma substring_start_split h pre s cp post :
  h_data h = pre ++ s ++ post -> wf_string pre ->
  wf_sequence s cp -> 0x10000 <= cp ->
  substring_start h (count_chars pre + 1) =
  Some (low_half cp, Z.of_nat (length pre) + 4).
Proof.
  intros Hd Hpre Hseq Hcp.
  unfold substring_start, duk_strcache_scan_char2byte_wtf8,
    duk_hstring_get_data.
  rewrite Hd.
  pose proof (scan_split pre Hpre s cp post 0 0 Hseq Hcp) as Hs.
  rewrite !Z.add_0_l in Hs. rewrite Hs.
  destruct (Z.eqb_spec (count_chars pre) (count_chars pre + 1)); [lia|].
  cbn [negb]. rewrite skipn_prefix, (decode_known_sequence _ _ _ Hseq).
  destruct (supplementary_sequence _ _ Hseq Hcp) as (_ & _ & Hmax & _).
  rewrite wrap32_small by lia. reflexivity.
Qed.

Lemma substring_end_boundary h pre post :
  h_data h = pre ++ post -> wf_string pre ->
  substring_end h (count_chars pre) = Some (0, Z.of_nat (length pre)).
Proof.
  intros Hd Hpre.
  unfold substring_end, duk_strcache_scan_char2byte_wtf8,
    duk_hstring_get_data.
  rewrite Hd.
  pose proof (scan_boundary pre Hpre post 0 0) as Hs.
  rewrite !Z.add_0_l in Hs. rewrite Hs, Z.eqb_refl. reflexivity.
Qed.

Lemma substring_end_split h pre s cp post :
  h_data h = pre ++ s ++ post -> wf_string pre ->
  wf_sequence s cp -> 0x10000 <= cp ->
  substring_end h (count_chars pre + 1) =
  Some (high_half cp, Z.of_nat (length pre)).
Proof.
  intros Hd Hpre Hseq Hcp.
  unfold substring_end, duk_strcache_scan_char2byte_wtf8,
    duk_hstring_get_data.
  rewrite Hd.
  pose proof (scan_split pre Hpre s cp post 0 0 Hseq Hcp) as Hs.
  rewrite !Z.add_0_l in Hs. rewrite Hs.
  destruct (Z.eqb_spec (count_chars pre) (count_chars pre + 1)); [lia|].
  cbn [negb]. rewrite skipn_prefix, (decode_known_sequence _ _ _ Hseq).
  destruct (supplementary_sequence _ _ Hseq Hcp) as (_ & _ & Hmax & _).
  rewrite wrap32_small by lia. reflexivity.
Qed.

(** ** Sanitizing the bytes handed to [duk_push_lstring] *)

Lemma classify_wf_string p : wf_string p -> classify p = KindString.
Proof.
  intros H. destruct H as [|s cp r Hs _]; [reflexivity|].
  destruct Hs; cbn [app classify existsb symbol_markers];
    (destruct (_ || _) eqn:E; [exfalso; b2p; lia | reflexivity]).
Qed.

Lemma push_lstring_wf_string p : wf_string p -> duk_push_lstring p = sanitize p.
Proof.
  intros H. unfold duk_push_lstring.
  now rewrite sanitize_detect_classify, (classify_wf_string p H).
Qed.

Lemma scalars_concat a b :
  wf_string a -> wtf8_scalars (a ++ b) = wtf8_scalars a ++ wtf8_scalars b.
Proof.
  induction 1 as [|s cp r Hs _ IH]; [reflexivity|].
  rewrite <- app_assoc, !(scalars_sequence_app _ _ _ Hs), IH. reflexivity.
Qed.

Lemma encode_all_app a b :
  wtf8_encode_all (a ++ b) = wtf8_encode_all a ++ wtf8_encode_all b.
Proof. unfold wtf8_encode_all. apply flat_map_app. Qed.

Lemma coalesce_pairs_snoc x l :
  is_low_surrogate x = false ->
  coalesce_pairs (l ++ [x]) = coalesce_pairs l ++ [x].
Proof.
  intros Hx. induction l as [l IH] using length_induction.
  destruct l as [|a [|b l']]; [reflexivity| |].
  - cbn [app]. rewrite coalesce_pairs_cons2, Hx, andb_false_r. reflexivity.
  - cbn [app]. rewrite !coalesce_pairs_cons2.
    destruct (is_high_surrogate a && is_low_surrogate b).
    + rewrite IH by (cbn [length]; lia). reflexivity.
    + change (b :: l' ++ [x]) with ((b :: l') ++ [x]).
      rewrite IH by (cbn [length]; lia). reflexivity.
Qed.

Lemma coalesce_pairs_low_cons x l :
  is_high_surrogate x = false ->
  coalesce_pairs (x :: l) = x :: coalesce_pairs l.
Proof.
  intros Hx. destruct l as [|b l]; [reflexivity|].
  now rewrite coalesce_pairs_cons2, Hx.
Qed.

Lemma high_not_low s : 0xD800 <= s <= 0xDBFF -> is_low_surrogate s = false.
Proof.
  intros H. unfold is_low_surrogate.
  destruct (0xDC00 <=? s) eqn:E; [exfalso; b2p; lia | reflexivity].
Qed.

Lemma low_not_high s : 0xDC00 <= s <= 0xDFFF -> is_high_surrogate s = false.
Proof.
  intros H. unfold is_high_surrogate.
  destruct (s <=? 0xDBFF) eqn:E; [exfalso; b2p; lia | apply andb_false_r].
Qed.

Lemma manufactured_low_wf A oa :
  split_codepoint A oa ->
  wf_string (manufactured low_half oa) /\
  wtf8_scalars (manufactured low_half oa) =
    match oa with None => [] | Some cp => [low_half cp] end /\
  match oa with
  | None => True
  | Some cp => 0xDC00 <= low_half cp <= 0xDFFF
  end.
Proof.
  intros H. destruct H as [|s cp Hs Hcp]; cbn [manufactured].
  - repeat split. constructor.
  - destruct (supplementary_sequence _ _ Hs Hcp) as (_ & _ & Hmax & _).
    pose proof (low_half_range cp ltac:(lia)) as Hr.
    assert (Hw : wf_sequence (wtf8_encode (low_half cp)) (low_half cp))
      by (apply encode_wf_sequence; unfold scalar_ok; lia).
    repeat split; try lia.
    + eapply wf_string_sequence, Hw.
    + rewrite <- (app_nil_r (wtf8_encode _)).
      now rewrite (scalars_sequence_app _ _ _ Hw).
Qed.

Lemma manufactured_high_wf B ob :
  split_codepoint B ob ->
  wf_string (manufactured high_half ob) /\
  wtf8_scalars (manufactured high_half ob) =
    match ob with None => [] | Some cp => [high_half cp] end /\
  match ob with
  | None => True
  | Some cp => 0xD800 <= high_half cp <= 0xDBFF
  end.
Proof.
  intros H. destruct H as [|s cp Hs Hcp]; cbn [manufactured].
  - repeat split. constructor.
  - destruct (supplementary_sequence _ _ Hs Hcp) as (_ & _ & Hmax & _).
    pose proof (high_half_range cp ltac:(lia)) as Hr.
    assert (Hw : wf_sequence (wtf8_encode (high_half cp)) (high_half cp))
      by (apply encode_wf_sequence; unfold scalar_ok; lia).
    repeat split; try lia.
    + eapply wf_string_sequence, Hw.
    + rewrite <- (app_nil_r (wtf8_encode _)).
      now rewrite (scalars_sequence_app _ _ _ Hw).
Qed.

(** A manufactured low surrogate in front and a manufactured high surrogate
    at the end are never combined with their neighbours. *)
Lemma push_lstring_manufactured A oa mid B ob :
  split_codepoint A oa -> wf_string mid -> split_codepoint B ob ->
  duk_push_lstring
    (manufactured low_half oa ++ mid ++ manufactured high_half ob) =
  manufactured low_half oa ++ sanitize mid ++ manufactured high_half ob.
Proof.
  intros HA Hmid HB.
  destruct (manufactured_low_wf A oa HA) as (Hlw & Hls & Hlr).
  destruct (manufactured_high_wf B ob HB) as (Hhw & Hhs & Hhr).
  assert (Hall : wf_string
    (manufactured low_half oa ++ mid ++ manufactured high_half ob))
    by (repeat apply wf_string_concat; assumption).
  rewrite (push_lstring_wf_string _ Hall).
  rewrite (sanitize_wf_string_coalesce _ Hall).
  rewrite (sanitize_wf_string_coalesce _ Hmid).
  rewrite !scalars_concat, Hls, Hhs by
    (try apply wf_string_concat; assumption).
  assert (Hsuffix :
    coalesce_pairs (wtf8_scalars mid ++
                    match ob with None => [] | Some cp => [high_half cp] end)
    = coalesce_pairs (wtf8_scalars mid) ++
      match ob with None => [] | Some cp => [high_half cp] end).
  { destruct ob as [cp|]; [|now rewrite !app_nil_r].
    apply coalesce_pairs_snoc, high_not_low, Hhr. }
  destruct oa as [cpa|]; cbn [app manufactured].
  - rewrite coalesce_pairs_low_cons by (apply low_not_high, Hlr).
    rewrite Hsuffix.
    change (low_half cpa :: ?l) with ([low_half cpa] ++ l).
    rewrite !encode_all_app. unfold wtf8_encode_all at 1.
    cbn [flat_map]. rewrite app_nil_r.
    destruct ob; cbn [manufactured]; unfold wtf8_encode_all at 2;
      cbn [flat_map]; rewrite ?app_nil_r; reflexivity.
  - rewrite Hsuffix, encode_all_app.
    destruct ob; cbn [manufactured]; unfold wtf8_encode_all at 2;
      cbn [flat_map]; rewrite ?app_nil_r; reflexivity.
Qed.

(** ** The substring at a pair of character offsets *)

Lemma split_codepoint_wf A oa :
  split_codepoint A oa ->
  wf_string A /\ count_chars A = 2 * half_offset oa /\
  Z.of_nat (length A) = 4 * half_offset oa.
Proof.
  intros H. destruct H as [|s cp Hs Hcp]; cbn [half_offset].
  - repeat split. constructor.
  - destruct (supplementary_sequence _ _ Hs Hcp) as (Hl & Hc & _).
    rewrite (count_chars_single _ _ Hs), Hl, Hc.
    repeat split. eapply wf_string_sequence, Hs.
Qed.

Lemma substring_start_cases h pre A oa rest :
  h_data h = pre ++ A ++ rest -> wf_string pre -> split_codepoint A oa ->
  substring_start h (count_chars pre + half_offset oa) =
  Some (match oa with None => 0 | Some cp => low_half cp end,
        Z.of_nat (length pre) + Z.of_nat (length A)).
Proof.
  intros Hd Hpre HA. destruct HA as [|s cp Hs Hcp]; cbn [half_offset].
  - cbn [app length] in *. rewrite !Z.add_0_r.
    eapply substring_start_boundary; eassumption.
  - destruct (supplementary_sequence _ _ Hs Hcp) as (-> & _).
    eapply substring_start_split; eassumption.
Qed.

Lemma substring_end_cases h pre B ob post :
  h_data h = pre ++ B ++ post -> wf_string pre -> split_codepoint B ob ->
  substring_end h (count_chars pre + half_offset ob) =
  Some (match ob with None => 0 | Some cp => high_half cp end,
        Z.of_nat (length pre)).
Proof.
  intros Hd Hpre HB. destruct HB as [|s cp Hs Hcp]; cbn [half_offset].
  - cbn [app] in *. rewrite !Z.add_0_r.
    eapply substring_end_boundary; eassumption.
  - eapply substring_end_split; eassumption.
Qed.

Lemma substring_bytes_spec h pre A oa mid B ob post :
  h_data h = pre ++ A ++ mid ++ B ++ post ->
  wf_string pre -> split_codepoint A oa -> wf_string mid ->
  split_codepoint B ob ->
  substring_bytes h
    (count_chars pre + half_offset oa)
    (count_chars pre + count_chars A + count_chars mid + half_offset ob) =
  Some (manufactured low_half oa ++ mid ++ manufactured high_half ob).
Proof.
  intros Hd Hpre HA Hmid HB.
  destruct (split_codepoint_wf _ _ HA) as (HAw & HAc & HAl).
  destruct (manufactured_low_wf A oa HA) as (_ & _ & Hlr).
  destruct (manufactured_high_wf B ob HB) as (_ & _ & Hhr).
  unfold substring_bytes.
  rewrite (substring_start_cases h pre A oa (mid ++ B ++ post) Hd Hpre HA).
  assert (Hd' : h_data h = (pre ++ A ++ mid) ++ B ++ post)
    by (rewrite Hd, <- !app_assoc; reflexivity).
  assert (Hpre' : wf_string (pre ++ A ++ mid))
    by (repeat apply wf_string_concat; assumption).
  pose proof (substring_end_cases h _ B ob post Hd' Hpre' HB) as He.
  rewrite !count_chars_concat in He by assumption.
  rewrite !Z.add_assoc in He. rewrite He.
  unfold duk_hstring_get_data.
  replace (h_data h) with ((pre ++ A) ++ mid ++ (B ++ post))
    by (rewrite Hd, <- !app_assoc; reflexivity).
  replace (Z.of_nat (length pre) + Z.of_nat (length A))
    with (Z.of_nat (length (pre ++ A))) by (rewrite length_app; lia).
  replace (Z.of_nat (length (pre ++ A ++ mid)) - Z.of_nat (length (pre ++ A)))
    with (Z.of_nat (length mid)) by (rewrite !length_app; lia).
  rewrite read_bytes_middle.
  destruct oa as [cpa|], ob as [cpb|]; cbn [manufactured];
    repeat match goal with
    | |- context [?x =? 0] =>
      destruct (Z.eqb_spec x 0); [try lia|]
    end; cbn [andb negb app];
    rewrite ?surrogate_bytes_encode by lia; rewrite ?app_nil_r;
    try reflexivity; lia.
Qed.

(** Every pair of character offsets [i < j] of a well-formed string cuts it
    into a prefix, an optional split codepoint, a middle, an optional
    split codepoint and a rest. *)
Lemma range_cases p i j :
  wf_string p -> 0 <= i < j -> j <= count_chars p ->
  exists pre A oa mid B ob post,
    p = pre ++ A ++ mid ++ B ++ post /\
    wf_string pre /\ split_codepoint A oa /\ wf_string mid /\
    split_codepoint B ob /\ wf_string post /\
    i = count_chars pre + half_offset oa /\
    j = count_chars pre + count_chars A + count_chars mid + half_offset ob.
Proof.
  intros Hp Hi Hj.
  assert (Hcut : forall q n, wf_string q -> 0 <= n <= count_chars q ->
    exists mid B ob post,
      q = mid ++ B ++ post /\ wf_string mid /\ split_codepoint B ob /\
      wf_string post /\ n = count_chars mid + half_offset ob).
  { intros q n Hq Hn.
    destruct (position_cases q Hq n Hn)
      as [(mid & post & -> & Hm & Hpo & Hc)
         |(mid & s & cp & post & -> & Hm & Hs & Hcp & Hpo & Hc)].
    - exists mid, [], None, post. cbn [app half_offset].
      repeat split; try assumption; [constructor | lia].
    - exists mid, s, (Some cp), post. cbn [half_offset].
      repeat split; try assumption; [now constructor | lia]. }
  destruct (Hcut p i Hp ltac:(lia))
    as (pre & A & oa & rest & -> & Hpre & HA & Hrest & Hic).
  destruct (split_codepoint_wf _ _ HA) as (HAw & HAc & _).
  rewrite !count_chars_concat in Hj by assumption.
  assert (Hoff : 0 <= half_offset oa <= 1) by (destruct oa; cbn; lia).
  destruct (Hcut rest (j - count_chars pre - count_chars A) Hrest ltac:(lia))
    as (mid & B & ob & post & -> & Hmid & HB & Hpost & Hjc).
  exists pre, A, oa, mid, B, ob, post.
  repeat split; try assumption; lia.
Qed.

(** On the handle of a well-formed string the substring is defined for all
    offsets in range. *)
Lemma substring_defined cfg h i j :
  hstring_wf cfg h -> 0 <= i <= j -> j <= count_chars (h_data h) ->
  exists r, duk_push_wtf8_substring_hstring cfg h i j = Some r.
Proof.
  intros Hwf Hi Hj.
  pose proof (hstring_charlen_wf cfg h Hwf) as Hclen.
  destruct Hwf as (_ & Hvalid & _).
  apply valid_iff_wf_string in Hvalid.
  pose proof (count_chars_le_length _ Hvalid) as Hle.
  unfold duk_push_wtf8_substring_hstring. rewrite Hclen.
  unfold duk_hstring_get_bytelen, duk_hstring_get_data.
  destruct (count_chars (h_data h) =? Z.of_nat (length (h_data h))).
  - unfold read_bytes.
    replace ((0 <=? i) && (0 <=? j - i) &&
             (i + (j - i) <=? Z.of_nat (length (h_data h)))) with true
      by (symmetry; repeat (apply andb_true_intro; split);
          apply Z.leb_le; lia).
    cbn. eauto.
  - destruct (Z.eqb_spec i j); [eauto|].
    destruct (range_cases _ i j Hvalid ltac:(lia) Hj)
      as (pre & A & oa & mid & B & ob & post & Hd & Hpre & HA & Hmid & HB &
          Hpost & -> & ->).
    rewrite (substring_bytes_spec h _ _ _ _ _ _ _ Hd Hpre HA Hmid HB).
    cbn. eauto.
Qed.

(** C5: on the handle of a well-formed string, take a character range
    whose start or end (or both) falls inside a supplementary codepoint.
    The bytes handed to the interner are: the 3-byte encoding (initial
    byte 0xED) of the low surrogate [0xDC00 + ((cp - 0x10000) & 0x3FF)] of
    the codepoint split by the start, if any; the bytes of the input from
    just after that 4-byte codepoint (or from the start offset) up to the
    byte offset of the end; the 3-byte encoding of the high surrogate
    [0xD800 + ((cp' - 0x10000) >> 10)] of the codepoint split by the end,
    if any.  The manufactured surrogates are the first and the last bytes
    of the resulting string as well. *)
Theorem substring_manufactures_surrogates
        (cfg : duk_config) (h : duk_hstring)
        (pre A mid B post : list byte) (oa ob : option Z) :
  hstring_wf cfg h ->
  h_data h = pre ++ A ++ mid ++ B ++ post ->
  wf_string pre -> split_codepoint A oa -> wf_string mid ->
  split_codepoint B ob -> wf_string post ->
  oa <> None \/ ob <> None ->
  let start_offset := count_chars pre + half_offset oa in
  let end_offset :=
    count_chars pre + count_chars A + count_chars mid + half_offset ob in
  start_offset < end_offset <= count_chars (h_data h) /\
  substring_bytes h start_offset end_offset =
    Some (manufactured low_half oa ++ mid ++ manufactured high_half ob) /\
  duk_push_wtf8_substring_hstring cfg h start_offset end_offset =
    Some (manufactured low_half oa ++ sanitize mid ++
          manufactured high_half ob).
Proof.
  intros Hwf Hd Hpre HA Hmid HB Hpost Hsplit start_offset end_offset.
  pose proof (hstring_charlen_wf cfg h Hwf) as Hclen.
  pose proof (substring_bytes_spec h _ _ _ _ _ _ _ Hd Hpre HA Hmid HB) as Hb.
  destruct (split_codepoint_wf _ _ HA) as (HAw & HAc & _).
  destruct (split_codepoint_wf _ _ HB) as (HBw & HBc & _).
  pose proof (count_chars_nonneg _ Hmid) as Hm0.
  pose proof (count_chars_nonneg _ Hpost) as Hp0.
  assert (Hoa : 0 <= half_offset oa <= 1) by (destruct oa; cbn; lia).
  assert (Hob : 0 <= half_offset ob <= 1) by (destruct ob; cbn; lia).
  assert (Hlt : start_offset < end_offset).
  { subst start_offset end_offset.
    destruct Hsplit as [Hne|Hne]; [destruct oa | destruct ob];
      cbn [half_offset] in *; try contradiction; lia. }
  assert (Hnonascii :
    count_chars (h_data h) < Z.of_nat (length (h_data h))).
  { rewrite Hd. destruct Hsplit as [Hne|Hne].
    - destruct HA as [|s cp Hs Hcp]; [contradiction|].
      apply (count_chars_lt_length pre s cp); try assumption.
      repeat apply wf_string_concat; assumption.
    - destruct HB as [|s cp Hs Hcp]; [contradiction|].
      replace (pre ++ A ++ mid ++ s ++ post)
        with ((pre ++ A ++ mid) ++ s ++ post)
        by (rewrite <- !app_assoc; reflexivity).
      apply (count_chars_lt_length _ s cp); try assumption.
      repeat apply wf_string_concat; assumption. }
  split; [|split; [exact Hb|]].
  - split; [exact Hlt|]. subst end_offset. rewrite Hd.
    rewrite !count_chars_concat by assumption. lia.
  - unfold duk_push_wtf8_substring_hstring. rewrite Hclen.
    unfold duk_hstring_get_bytelen.
    destruct (Z.eqb_spec (count_chars (h_data h))
                         (Z.of_nat (length (h_data h)))); [lia|].
    destruct (Z.eqb_spec start_offset end_offset); [lia|].
    subst start_offset end_offset. rewrite Hb. cbn [option_map].
    now rewrite (push_lstring_manufactured A oa mid B ob HA Hmid HB).
Qed.

Lemma substring_manufactures_surrogates_witness :
  let cfg := {| USE_HSTRING_LAZY_CLEN := true; USE_HSTRING_CLEN := true;
                USE_ROM_STRINGS := false; USE_STRLEN16 := false |} in
  let h := {| h_readonly := false; h_symbol := false; h_ascii := false;
              h_clen := 0; h_data := bytes_of [0xF0; 0x9F; 0x98; 0x80] |} in
  duk_push_wtf8_substring_hstring cfg h 0 1 =
    Some (bytes_of [0xED; 0xA0; 0xBD]) /\
  duk_push_wtf8_substring_hstring cfg h 1 2 =
    Some (bytes_of [0xED; 0xB8; 0x80]).
Proof.
  intros cfg h.
  assert (Hwf : hstring_wf cfg h).
  { unfold hstring_wf, clen_field_ok.
    split; [reflexivity|]. split; [reflexivity|].
    split; [intros Hf; vm_compute in Hf; discriminate|].
    right. split; reflexivity. }
  assert (Hsplit : split_codepoint (bytes_of [0xF0; 0x9F; 0x98; 0x80])
                                   (Some 0x1F600)).
  { apply (split_some _ 0x1F600); [|lia].
    apply (wf_seq4 (byte.of_Z 0xF0) (byte.of_Z 0x9F) (byte.of_Z 0x98)
                   (byte.of_Z 0x80));
      vm_compute; try split; intros; discriminate. }
  split.
  - exact (proj2 (proj2 (substring_manufactures_surrogates
             cfg h [] [] [] (bytes_of [0xF0; 0x9F; 0x98; 0x80]) []
             None (Some 0x1F600)
             Hwf eq_refl wf_string_nil split_none wf_string_nil Hsplit
             wf_string_nil
             (or_intror (fun H : Some 0x1F600 = None =>
                           eq_ind (Some 0x1F600)
                                  (fun o => match o with
                                            | Some _ => True
                                            | None => False
                                            end) I None H))))).
  - exact (proj2 (proj2 (substring_manufactures_surrogates
             cfg h [] (bytes_of [0xF0; 0x9F; 0x98; 0x80]) [] [] []
             (Some 0x1F600) None
             Hwf eq_refl wf_string_nil Hsplit wf_string_nil split_none
             wf_string_nil
             (or_introl (fun H : Some 0x1F600 = None =>
                           eq_ind (Some 0x1F600)
                                  (fun o => match o with
                                            | Some _ => True
                                            | None => False
                                            end) I None H))))).
Defined.

(** * Search *)

Lemma bytes_eqb_eq a b : bytes_eqb a b = true <-> a = b.
Proof.
  unfold bytes_eqb. destruct (list_eq_dec Byte.byte_eq_dec a b).
  - tauto.
  - split; [discriminate | contradiction].
Qed.

Lemma to_int32_small z : 0 <= z <= 0x7fffffff -> to_int32 z = z.
Proof.
  intros H. unfold to_int32. rewrite wrap32_small by lia.
  destruct (Z.ltb_spec z (2 ^ 31)); lia.
Qed.

Lemma substring_empty cfg h k :
  hstring_wf cfg h -> 0 <= k <= count_chars (h_data h) ->
  duk_push_wtf8_substring_hstring cfg h k k = Some [].
Proof.
  intros Hwf Hk.
  pose proof (hstring_charlen_wf cfg h Hwf) as Hclen.
  destruct Hwf as (_ & Hvalid & _).
  apply valid_iff_wf_string in Hvalid.
  pose proof (count_chars_le_length _ Hvalid) as Hle.
  unfold duk_push_wtf8_substring_hstring. rewrite Hclen.
  unfold duk_hstring_get_bytelen, duk_hstring_get_data.
  destruct (count_chars (h_data h) =? Z.of_nat (length (h_data h))).
  - unfold read_bytes. rewrite Z.sub_diag.
    replace ((0 <=? k) && (0 <=? 0) &&
             (k + 0 <=? Z.of_nat (length (h_data h)))) with true
      by (symmetry; repeat (apply andb_true_intro; split);
          apply Z.leb_le; lia).
    reflexivity.
  - rewrite Z.eqb_refl. reflexivity.
Qed.

Section SearchLoop.

Variable cfg : duk_config.
Variables h_input h_match : duk_hstring.
Hypothesis Hwf_input : hstring_wf cfg h_input.
Hypothesis Hwf_match : hstring_wf cfg h_match.
Hypothesis Hmax_input : duk_hstring_get_bytelen h_input <= 0x7fffffff.
Hypothesis Hmax_match : duk_hstring_get_bytelen h_match <= 0x7fffffff.

Local Abbreviation ic := (count_chars (h_data h_input)).
Local Abbreviation mc := (count_chars (h_data h_match)).

Lemma charlen_bounds : 0 <= ic <= 0x7fffffff /\ 0 <= mc <= 0x7fffffff.
Proof.
  destruct Hwf_input as (_ & Hv1 & _).
  destruct Hwf_match as (_ & Hv2 & _).
  apply valid_iff_wf_string in Hv1, Hv2.
  pose proof (count_chars_le_length _ Hv1).
  pose proof (count_chars_le_length _ Hv2).
  pose proof (count_chars_nonneg _ Hv1).
  pose proof (count_chars_nonneg _ Hv2).
  unfold duk_hstring_get_bytelen in *. lia.
Qed.

(** The loop returns the first offset from [charoff] on where the needle
    is found, and -1 when there is none. *)
Lemma search_forwards_loop_spec fuel : forall charoff,
  0 <= charoff < 2 ^ 32 ->
  fuel = Z.to_nat (ic + 1 - charoff) ->
  exists r,
    search_forwards_loop fuel cfg h_input h_match ic mc charoff = Some r /\
    (r = -1 \/
     (charoff <= r /\ r + mc <= ic /\ matches_at cfg h_input h_match r)) /\
    (forall i, charoff <= i -> i + mc <= ic -> r = -1 \/ i < r ->
               ~ matches_at cfg h_input h_match i).
Proof.
  pose proof charlen_bounds as (Hic & Hmc).
  induction fuel as [|fuel IH]; intros charoff Hoff Hfuel.
  - exists (-1). cbn [search_forwards_loop].
    destruct (Z.leb_spec charoff ic); [lia|].
    split; [reflexivity|]. split; [now left|]. intros i Hi1 Hi2. lia.
  - cbn [search_forwards_loop].
    destruct (Z.leb_spec charoff ic); [|lia].
    rewrite (wrap32_small (charoff + 1)), (wrap32_small (charoff + mc))
      by lia.
    destruct (IH (charoff + 1) ltac:(lia) ltac:(lia))
      as (r & Hr & Hfound & Hfirst).
    destruct (Z.leb_spec (charoff + mc) ic) as [Hfit|Hnofit].
    + destruct (substring_defined cfg h_input charoff (charoff + mc)
                  Hwf_input ltac:(lia) Hfit) as (tmp & Htmp).
      rewrite Htmp.
      destruct (bytes_eqb tmp (duk_hstring_get_data h_match)) eqn:Heq.
      * apply bytes_eqb_eq in Heq. exists charoff.
        rewrite to_int32_small by lia.
        split; [reflexivity|]. split.
        -- right. repeat split; try lia.
           unfold matches_at. now rewrite Htmp, Heq.
        -- intros i Hi1 Hi2 [Hi3|Hi3]; lia.
      * exists r. split; [exact Hr|]. split.
        -- destruct Hfound as [->|(? & ? & ?)]; [now left|].
           right. repeat split; try assumption; lia.
        -- intros i Hi1 Hi2 Hi3.
           destruct (Z.eq_dec i charoff) as [->|Hne].
           ++ unfold matches_at. rewrite Htmp. intros [= Habs].
              apply bytes_eqb_eq in Habs.
              unfold duk_hstring_get_data in Heq. congruence.
           ++ apply Hfirst; lia.
    + exists r. split; [exact Hr|]. split.
      * destruct Hfound as [->|(? & ? & ?)]; [now left|].
        right. repeat split; try assumption; lia.
      * intros i Hi1 Hi2 Hi3.
        apply Hfirst; lia.
Qed.

Lemma search_forwards_spec start_charoff :
  0 <= start_charoff < 2 ^ 32 ->
  exists r,
    duk_unicode_wtf8_search_forwards cfg h_input h_match start_charoff
      = Some r /\
    (r = -1 \/
     (start_charoff <= r /\ r + mc <= ic /\
      matches_at cfg h_input h_match r)) /\
    (forall i, start_charoff <= i -> i + mc <= ic -> r = -1 \/ i < r ->
               ~ matches_at cfg h_input h_match i).
Proof.
  intros Hstart. pose proof charlen_bounds as (Hic & Hmc).
  unfold duk_unicode_wtf8_search_forwards,
    duk__unicode_wtf8_search_forwards_reference.
  rewrite (hstring_charlen_wf _ _ Hwf_input),
    (hstring_charlen_wf _ _ Hwf_match).
  cbv zeta. rewrite !wrap32_small by lia.
  now apply search_forwards_loop_spec.
Qed.

End SearchLoop.

(** C8: on the handles of well-formed strings (of at most 0x7FFFFFFF
    bytes, so that every character offset fits the signed 32-bit result)
    and for a start offset [k] inside the input, [0 <= k <= charlength(h)],
    the forward search with the empty needle returns [k]; in general it
    returns the smallest character offset [i >= k] at which the substring
    of the needle's character length is the needle byte for byte, and -1
    when there is no such offset. *)
Theorem search_forwards_first_match
        (cfg : duk_config) (h n : duk_hstring) (k : Z) :
  hstring_wf cfg h -> hstring_wf cfg n ->
  duk_hstring_get_bytelen h <= 0x7fffffff ->
  duk_hstring_get_bytelen n <= 0x7fffffff ->
  0 <= k <= count_chars (h_data h) ->
  exists r,
    duk_unicode_wtf8_search_forwards cfg h n k = Some r /\
    (h_data n = [] -> r = k) /\
    (r = -1 \/
     (k <= r /\ r + count_chars (h_data n) <= count_chars (h_data h) /\
      matches_at cfg h n r)) /\
    (forall i, k <= i ->
               i + count_chars (h_data n) <= count_chars (h_data h) ->
               r = -1 \/ i < r -> ~ matches_at cfg h n i).
Proof.
  intros Hh Hn Hmaxh Hmaxn Hk.
  pose proof (charlen_bounds cfg h n Hh Hn Hmaxh Hmaxn) as (Hic & _).
  destruct (search_forwards_spec cfg h n Hh Hn Hmaxh Hmaxn k ltac:(lia))
    as (r & Hr & Hfound & Hfirst).
  exists r. split; [exact Hr|]. split; [|split; assumption].
  intros Hempty. rewrite Hempty in *. cbn [count_chars] in *.
  assert (Hm : matches_at cfg h n k).
  { unfold matches_at. rewrite Hempty. cbn [count_chars].
    rewrite Z.add_0_r. apply substring_empty; [exact Hh | lia]. }
  destruct (Z.eq_dec r k) as [|Hne]; [assumption|].
  exfalso. apply (Hfirst k); try lia. exact Hm.
Qed.

Lemma search_forwards_first_match_witness :
  let cfg := {| USE_HSTRING_LAZY_CLEN := true; USE_HSTRING_CLEN := true;
                USE_ROM_STRINGS := false; USE_STRLEN16 := false |} in
  let h := {| h_readonly := false; h_symbol := false; h_ascii := false;
              h_clen := 0; h_data := bytes_of [0x41; 0x42; 0x41; 0x42] |} in
  let e := {| h_readonly := false; h_symbol := false; h_ascii := false;
              h_clen := 0; h_data := [] |} in
  let n := {| h_readonly := false; h_symbol := false; h_ascii := false;
              h_clen := 0; h_data := bytes_of [0x42] |} in
  duk_unicode_wtf8_search_forwards cfg h e 4 = Some 4 /\
  exists r,
    duk_unicode_wtf8_search_forwards cfg h n 2 = Some r /\
    (h_data n = [] -> r = 2) /\
    (r = -1 \/
     (2 <= r /\ r + count_chars (h_data n) <= count_chars (h_data h) /\
      matches_at cfg h n r)) /\
    (forall i, 2 <= i ->
               i + count_chars (h_data n) <= count_chars (h_data h) ->
               r = -1 \/ i < r -> ~ matches_at cfg h n i).
Proof.
  intros cfg h e n.
  assert (Hwf : forall d, duk_unicode_is_valid_wtf8 d = true ->
            hstring_wf cfg {| h_readonly := false; h_symbol := false;
                              h_ascii := false; h_clen := 0; h_data := d |}).
  { intros d Hv. unfold hstring_wf, clen_field_ok.
    split; [reflexivity|]. split; [exact Hv|].
    split; [intros Hf; discriminate Hf|]. right. split; reflexivity. }
  split.
  - destruct (search_forwards_first_match cfg h e 4
                (Hwf (bytes_of [0x41; 0x42; 0x41; 0x42]) eq_refl)
                (Hwf [] eq_refl)
                ltac:(vm_compute; discriminate)
                ltac:(vm_compute; discriminate)
                ltac:(vm_compute; split; discriminate))
      as (r & Hr & Hempty & _).
    rewrite Hr, (Hempty eq_refl). reflexivity.
  - apply (search_forwards_first_match cfg h n 2
             (Hwf (bytes_of [0x41; 0x42; 0x41; 0x42]) eq_refl)
             (Hwf (bytes_of [0x42]) eq_refl)).
    + vm_compute. discriminate.
    + vm_compute. discriminate.
    + vm_compute. split; discriminate.
Defined.

(** * ASCII prefix scan *)

Lemma asciicheck_tail_spec p : forall off,
  asciicheck_tail p off = off + Z.of_nat (length (ascii_prefix p)).
Proof.
  induction p as [|b p IH]; intros off; cbn [asciicheck_tail ascii_prefix].
  - cbn. lia.
  - destruct (Z.leb_spec 0x80 (u8 b)); destruct (Z.ltb_spec (u8 b) 0x80);
      try lia.
    + cbn. lia.
    + rewrite IH. cbn [length]. lia.
Qed.

Lemma ascii_prefix_app pre rest :
  Forall (fun b => u8 b < 0x80) pre ->
  ascii_prefix (pre ++ rest) = pre ++ ascii_prefix rest.
Proof.
  induction 1 as [|b pre Hb _ IH]; [reflexivity|].
  cbn [app ascii_prefix]. destruct (Z.ltb_spec (u8 b) 0x80); [|lia].
  now rewrite IH.
Qed.

Lemma asciicheck_align_spec fuel : forall addr p,
  match asciicheck_align fuel addr p with
  | Aligned p' | AlignSkip p' =>
    exists pre, p = pre ++ p' /\ Forall (fun b => u8 b < 0x80) pre /\
                (length pre <= fuel)%nat
  | AlignOverrun => (length p < fuel)%nat
  end.
Proof.
  induction fuel as [|fuel IH]; intros addr p; cbn [asciicheck_align].
  - destruct (Z.land addr 3 =? 0); exists []; repeat split;
      try constructor; cbn; lia.
  - destruct (Z.land addr 3 =? 0).
    { exists []. repeat split; try constructor; cbn; lia. }
    destruct p as [|b p']; [cbn; lia|].
    destruct (Z.leb_spec 0x80 (u8 b)).
    { exists []. repeat split; try constructor; cbn; lia. }
    specialize (IH (addr + 1) p').
    destruct (asciicheck_align fuel (addr + 1) p') as [p''|p''|].
    + destruct IH as (pre & -> & Hpre & Hlen). exists (b :: pre).
      repeat split; [constructor; assumption | cbn [length]; lia].
    + destruct IH as (pre & -> & Hpre & Hlen). exists (b :: pre).
      repeat split; [constructor; assumption | cbn [length]; lia].
    + cbn [length]. lia.
Qed.

(** A word without any of the bits of 0x80808080 holds four ASCII bytes,
    in either byte order. *)
Lemma read_u32_ascii big_endian b0 b1 b2 b3 :
  Z.land (read_u32 big_endian b0 b1 b2 b3) 0x80808080 = 0 ->
  u8 b0 < 0x80 /\ u8 b1 < 0x80 /\ u8 b2 < 0x80 /\ u8 b3 < 0x80.
Proof.
  intros H.
  assert (Hbit : forall n, 0 <= n -> Z.testbit 0x80808080 n = true ->
            (read_u32 big_endian b0 b1 b2 b3 / 2 ^ n) mod 2 = 0).
  { intros n Hn Hm. apply Z.testbit_false; [exact Hn|].
    assert (Hl : Z.testbit
                   (Z.land (read_u32 big_endian b0 b1 b2 b3) 0x80808080) n
                 = false) by (rewrite H; apply Z.bits_0).
    rewrite Z.land_spec, Hm, andb_true_r in Hl. exact Hl. }
  pose proof (Hbit 7 ltac:(lia) eq_refl) as H7.
  pose proof (Hbit 15 ltac:(lia) eq_refl) as H15.
  pose proof (Hbit 23 ltac:(lia) eq_refl) as H23.
  pose proof (Hbit 31 ltac:(lia) eq_refl) as H31.
  clear Hbit H. unfold read_u32 in *.
  rewrite !Z.shiftl_mul_pow2 in * by lia.
  change (2 ^ 7) with 128 in *. change (2 ^ 15) with 32768 in *.
  change (2 ^ 23) with 8388608 in *. change (2 ^ 31) with 2147483648 in *.
  change (2 ^ 8) with 256 in *. change (2 ^ 16) with 65536 in *.
  change (2 ^ 24) with 16777216 in *.
  pose proof (u8_range b0). pose proof (u8_range b1).
  pose proof (u8_range b2). pose proof (u8_range b3).
  destruct big_endian; Z.div_mod_to_equations; lia.
Qed.

Lemma asciicheck_words_spec big_endian (k : nat) : forall p,
  (4 * S k <= length p)%nat ->
  exists pre p',
    asciicheck_words big_endian p (4 * Z.of_nat (S k)) = Some p' /\
    p = pre ++ p' /\ Forall (fun b => u8 b < 0x80) pre.
Proof.
  induction k as [|k IH]; intros p Hlen;
    (destruct p as [|b0 [|b1 [|b2 [|b3 p']]]]; cbn [length] in Hlen;
     try lia); cbn [asciicheck_words].
  - destruct (Z.eqb_spec (Z.land (read_u32 big_endian b0 b1 b2 b3)
                                 0x80808080) 0) as [Hz|Hnz].
    + destruct (read_u32_ascii _ _ _ _ _ Hz) as (?&?&?&?).
      exists [b0; b1; b2; b3], p'. repeat split.
      repeat constructor; assumption.
    + exists [], (b0 :: b1 :: b2 :: b3 :: p'). repeat split. constructor.
  - destruct (Z.eqb_spec (Z.land (read_u32 big_endian b0 b1 b2 b3)
                                 0x80808080) 0) as [Hz|Hnz].
    + destruct (read_u32_ascii _ _ _ _ _ Hz) as (?&?&?&?).
      destruct (Z.eqb_spec (4 * Z.of_nat (S (S k)) - 4) 0); [lia|].
      replace (4 * Z.of_nat (S (S k)) - 4) with (4 * Z.of_nat (S k)) by lia.
      destruct (IH p' ltac:(lia)) as (pre & p'' & -> & -> & Hpre).
      exists (b0 :: b1 :: b2 :: b3 :: pre), p''. repeat split.
      repeat constructor; assumption.
    + exists [], (b0 :: b1 :: b2 :: b3 :: p'). repeat split. constructor.
Qed.

Lemma land_word_mask n :
  0 <= n < 2 ^ 32 -> Z.land n 0xFFFFFFFC = 4 * (n / 4).
Proof.
  intros Hn. apply Z.bits_inj'. intros i Hi.
  rewrite Z.land_spec.
  change 0xFFFFFFFC with (Z.shiftl (Z.ones 30) 2).
  replace (4 * (n / 4)) with (Z.shiftl (Z.shiftr n 2) 2)
    by (rewrite Z.shiftl_mul_pow2, Z.shiftr_div_pow2 by lia;
        change (2 ^ 2) with 4; lia).
  destruct (Z.ltb_spec i 2) as [Hlow|Hhigh].
  - rewrite !Z.shiftl_spec_low by lia. apply andb_false_r.
  - rewrite !Z.shiftl_spec by lia. rewrite Z.shiftr_spec by lia.
    replace (i - 2 + 2) with i by lia.
    destruct (Z.ltb_spec i 32) as [Hin|Hout].
    + rewrite Z.ones_spec_low by lia. apply andb_true_r.
    + rewrite Z.ones_spec_high by lia. rewrite andb_false_r.
      symmetry. destruct (Z.eq_dec n 0) as [->|Hne]; [apply Z.bits_0|].
      apply (Z.bits_above_log2 n i); [lia|].
      apply Z.log2_lt_pow2; [lia|].
      assert (2 ^ 32 <= 2 ^ i) by (apply Z.pow_le_mono_r; lia). lia.
Qed.

(** The optimized scan returns the length of the longest ASCII prefix,
    whatever the alignment of the buffer and the byte order. *)
Lemma asciicheck_optimized_spec big_endian addr str :
  Z.of_nat (length str) < 2 ^ 32 ->
  duk__unicode_wtf8_sanitize_asciicheck_optimized big_endian addr str =
  Some (Z.of_nat (length (ascii_prefix str))).
Proof.
  intros Hlen. unfold duk__unicode_wtf8_sanitize_asciicheck_optimized.
  destruct (Z.ltb_spec (Z.of_nat (length str)) 8) as [Hshort|Hlong].
  { rewrite asciicheck_tail_spec. f_equal. }
  pose proof (asciicheck_align_spec 3 addr str) as Ha.
  destruct (asciicheck_align 3 addr str) as [p|p|].
  - destruct Ha as (pre & -> & Hpre & Hpl).
    rewrite length_app in *.
    rewrite land_word_mask by lia.
    assert (Hk : exists k, Z.of_nat (length p) / 4 = Z.of_nat (S k) /\
                           (4 * S k <= length p)%nat).
    { exists (Z.to_nat (Z.of_nat (length p) / 4) - 1)%nat.
      split; Z.div_mod_to_equations; lia. }
    destruct Hk as (k & Hk & Hkl). rewrite Hk.
    destruct (asciicheck_words_spec big_endian k p Hkl)
      as (pre2 & p' & -> & -> & Hpre2).
    rewrite asciicheck_tail_spec, !ascii_prefix_app by assumption.
    f_equal. rewrite !length_app. lia.
  - destruct Ha as (pre & -> & Hpre & Hpl).
    rewrite asciicheck_tail_spec, ascii_prefix_app by assumption.
    f_equal. rewrite !length_app. lia.
  - lia.
Qed.

Lemma ascii_prefix_split str :
  exists rest,
    str = ascii_prefix str ++ rest /\
    Forall (fun b => u8 b < 0x80) (ascii_prefix str) /\
    match rest with [] => True | b :: _ => 0x80 <= u8 b end.
Proof.
  induction str as [|b str (rest & Heq & Hall & Hrest)];
    cbn [ascii_prefix].
  - exists []. repeat split. constructor.
  - destruct (Z.ltb_spec (u8 b) 0x80).
    + exists rest. cbn [app]. rewrite <- Heq.
      repeat split; [constructor|]; assumption.
    + exists (b :: str). repeat split; [constructor | assumption].
Qed.

Lemma sanitize_ascii_app pre rest :
  Forall (fun b => u8 b < 0x80) pre ->
  sanitize (pre ++ rest) = pre ++ sanitize rest.
Proof.
  induction 1 as [|b pre Hb _ IH]; [reflexivity|].
  cbn [app]. rewrite sanitize_cons. unfold sanitize_step.
  destruct (Z.ltb_spec (u8 b) 0x80); [|lia].
  cbn [fst snd app]. now rewrite IH.
Qed.

(** X1: the word-at-a-time scan returns the number of bytes before the
    first byte that is not ASCII (the whole length when there is none),
    for every alignment of the buffer and either byte order. *)
Theorem asciicheck_returns_ascii_prefix_length
        (big_endian : bool) (addr : Z) (str : list byte) :
  Z.of_nat (length str) < 2 ^ 32 ->
  exists pre rest,
    str = pre ++ rest /\
    Forall (fun b => u8 b < 0x80) pre /\
    match rest with [] => True | b :: _ => 0x80 <= u8 b end /\
    duk__unicode_wtf8_sanitize_asciicheck_optimized big_endian addr str =
    Some (Z.of_nat (length pre)).
Proof.
  intros Hlen. destruct (ascii_prefix_split str) as (rest & Heq & Hall & Hr).
  exists (ascii_prefix str), rest.
  repeat split; try assumption.
  now apply asciicheck_optimized_spec.
Qed.

Lemma asciicheck_returns_ascii_prefix_length_witness :
  exists pre rest,
    bytes_of [0x61; 0x62; 0x63; 0x64; 0x65; 0x66; 0x67; 0x68; 0x69;
              0xC3; 0xA9; 0x6A] = pre ++ rest /\
    Forall (fun b => u8 b < 0x80) pre /\
    match rest with [] => True | b :: _ => 0x80 <= u8 b end /\
    duk__unicode_wtf8_sanitize_asciicheck_optimized
      true 0x1001
      (bytes_of [0x61; 0x62; 0x63; 0x64; 0x65; 0x66; 0x67; 0x68; 0x69;
                 0xC3; 0xA9; 0x6A]) = Some (Z.of_nat (length pre)).
Proof.
  apply asciicheck_returns_ascii_prefix_length. vm_compute. reflexivity.
Defined.

(** X2: the keep check returns a number of leading bytes that
    [duk_unicode_wtf8_sanitize_detect] leaves as they are: the whole
    length for a symbol, the ASCII prefix length otherwise.  When it
    returns the whole length, sanitizing returns the input itself. *)
Theorem keepcheck_kept_bytes_survive_sanitize
        (big_endian : bool) (addr : Z) (str : list byte) :
  Z.of_nat (length str) < 2 ^ 32 ->
  exists n,
    duk_unicode_wtf8_sanitize_keepcheck big_endian addr str = Some n /\
    0 <= n <= Z.of_nat (length str) /\
    firstn (Z.to_nat n) (fst (duk_unicode_wtf8_sanitize_detect str)) =
      firstn (Z.to_nat n) str /\
    (classify str = KindSymbol -> n = Z.of_nat (length str)) /\
    (n = Z.of_nat (length str) ->
     duk_unicode_wtf8_sanitize_detect str = (str, Z.of_nat (length str))).
Proof.
  intros Hlen. unfold duk_unicode_wtf8_sanitize_keepcheck.
  rewrite (asciicheck_optimized_spec _ _ _ Hlen).
  rewrite sanitize_detect_classify.
  destruct (ascii_prefix_split str) as (rest & Heq & Hall & Hrest).
  assert (Hstring : forall n,
    n = Z.of_nat (length (ascii_prefix str)) ->
    0 <= n <= Z.of_nat (length str) /\
    firstn (Z.to_nat n) (fst (duk_unicode_wtf8_sanitize_string str)) =
      firstn (Z.to_nat n) str /\
    (n = Z.of_nat (length str) ->
     duk_unicode_wtf8_sanitize_string str = (str, Z.of_nat (length str)))).
  { intros n ->. fold (sanitize str). rewrite Nat2Z.id.
    assert (Hl : length str = (length (ascii_prefix str) + length rest)%nat)
      by (rewrite Heq at 1; apply length_app).
    split; [lia|].
    split.
    - replace (sanitize str) with (ascii_prefix str ++ sanitize rest)
        by (rewrite Heq at 2; now rewrite (sanitize_ascii_app _ _ Hall)).
      replace (firstn (length (ascii_prefix str)) str)
        with (firstn (length (ascii_prefix str)) (ascii_prefix str ++ rest))
        by (now rewrite <- Heq).
      rewrite !firstn_app, Nat.sub_diag, !firstn_all. reflexivity.
    - intros Hfull.
      assert (rest = []) as ->.
      { apply length_zero_iff_nil. lia. }
      rewrite app_nil_r in Heq.
      destruct (sanitize_locals_spec str) as (Hd & Hb & _).
      unfold duk_unicode_wtf8_sanitize_string,
        duk__unicode_wtf8_sanitize_string_reference.
      assert (Hs : sanitize str = str).
      { pose proof (sanitize_ascii_app _ [] Hall) as Hx.
        rewrite sanitize_nil, !app_nil_r, <- Heq in Hx. exact Hx. }
      rewrite Hd, Hb, Hs. now rewrite wrap32_small by lia. }
  destruct str as [|b str'].
  { exists 0. cbn. repeat split; try lia; try discriminate. }
  destruct (Z.eqb_spec (Z.of_nat (length (ascii_prefix (b :: str')))) 0)
    as [Hz|Hnz].
  - unfold classify. cbn [existsb symbol_markers].
    rewrite orb_false_r, !orb_assoc.
    destruct (_ || _).
    + exists (Z.of_nat (length (b :: str'))).
      rewrite Nat2Z.id, !firstn_all2 by (cbn [fst]; lia).
      repeat split; lia.
    + exists (Z.of_nat (length (ascii_prefix (b :: str')))).
      destruct (Hstring _ eq_refl) as (H1 & H2 & H3).
      repeat split; try assumption; try lia; try discriminate.
  - exists (Z.of_nat (length (ascii_prefix (b :: str')))).
    assert (Hc : classify (b :: str') = KindString).
    { unfold classify. cbn [existsb symbol_markers ascii_prefix] in *.
      destruct (Z.ltb_spec (u8 b) 0x80); [|cbn in Hnz; lia].
      destruct (_ || _) eqn:E; [exfalso; b2p; lia | reflexivity]. }
    rewrite Hc. destruct (Hstring _ eq_refl) as (H1 & H2 & H3).
    repeat split; try assumption; try lia; try discriminate.
Qed.

Lemma keepcheck_kept_bytes_survive_sanitize_witness :
  exists n,
    duk_unicode_wtf8_sanitize_keepcheck
      false 0x1003 (bytes_of [0x41; 0x42; 0xC0; 0xAF]) = Some n /\
    0 <= n <= 4 /\
    firstn (Z.to_nat n)
      (fst (duk_unicode_wtf8_sanitize_detect
              (bytes_of [0x41; 0x42; 0xC0; 0xAF]))) =
      firstn (Z.to_nat n) (bytes_of [0x41; 0x42; 0xC0; 0xAF]) /\
    (classify (bytes_of [0x41; 0x42; 0xC0; 0xAF]) = KindSymbol -> n = 4) /\
    (n = 4 ->
     duk_unicode_wtf8_sanitize_detect (bytes_of [0x41; 0x42; 0xC0; 0xAF]) =
     (bytes_of [0x41; 0x42; 0xC0; 0xAF], 4)).
Proof.
  apply (keepcheck_kept_bytes_survive_sanitize
           false 0x1003 (bytes_of [0x41; 0x42; 0xC0; 0xAF])).
  vm_compute. reflexivity.
Defined.

(** * Further properties of the validator and the sanitizer *)

Lemma emit_codepoint_length cp :
  (length (fst (emit_codepoint cp)) <= 4)%nat.
Proof.
  unfold emit_codepoint.
  destruct (cp <=? 0x7ff); [cbn [fst length]; lia|].
  destruct (cp <=? 0xffff); cbn [fst length]; lia.
Qed.

(** One iteration writes at most three bytes for each byte it consumes. *)
Lemma sanitize_step_expansion b p :
  (length (fst (fst (sanitize_step b p))) + 3 * length (snd (sanitize_step b p))
   <= 3 * length (b :: p))%nat.
Proof.
  unfold sanitize_step. cbn [length].
  destruct (u8 b <? 0x80); [cbn [fst snd length]; lia|].
  destruct (lead_params (u8 b)) as [[[[cp0 n] lower] upper]|] eqn:El;
    [|cbn [fst snd replacement_bytes length]; lia].
  pose proof (read_continuation_length n lower upper cp0 p) as Hr.
  destruct (read_continuation n lower upper cp0 p) as [cp' p'|p'] eqn:Er;
    [|cbn [fst snd replacement_bytes length]; lia].
  destruct (read_continuation_decoded _ _ _ _ _ _ _ _ El Er)
    as (cs & -> & Hwf).
  assert (Hcs : (1 <= length cs)%nat).
  { inversion Hwf; subst; cbn [length]; try lia.
    unfold lead_params in El. exfalso.
    destruct (0xc2 <=? u8 b) eqn:E; [b2p; lia | discriminate]. }
  pose proof (combine_surrogates_length cp' p') as Hc.
  destruct (combine_surrogates cp' p') as [cp'' p''].
  pose proof (emit_codepoint_length cp'') as He.
  destruct (emit_codepoint cp'') as [w d].
  cbn [fst snd] in *. rewrite length_app. lia.
Qed.

(** X3: the output of the sanitizer is at most three times as long as the
    input, which is the room the caller has to provide. *)
Theorem sanitize_expansion_at_most_3x (b : list byte) :
  (length (sanitize b) <= 3 * length b)%nat.
Proof.
  induction b as [b IH] using length_induction.
  destruct b as [|t p]; [rewrite sanitize_nil; cbn; lia|].
  rewrite sanitize_cons, length_app.
  pose proof (sanitize_step_expansion t p) as He.
  pose proof (sanitize_step_length t p) as Hl.
  specialize (IH (snd (sanitize_step t p)) ltac:(cbn [length]; lia)).
  lia.
Qed.

(** X4: the fixed points of the sanitizer are exactly the inputs that the
    validator accepts and that hold no high surrogate directly followed by
    a low surrogate. *)
Theorem sanitize_fixed_points (b : list byte) :
  sanitize b = b <->
  duk_unicode_is_valid_wtf8 b = true /\
  coalesce_pairs (wtf8_scalars b) = wtf8_scalars b.
Proof.
  split.
  - intros H. split.
    + rewrite <- H. apply valid_iff_wf_string, sanitize_wf_string.
    + rewrite <- H. apply sanitize_scalars_coalesced.
  - intros [Hv Hc]. apply valid_iff_wf_string in Hv.
    rewrite (sanitize_wf_string_coalesce _ Hv), Hc.
    now apply wf_string_scalars.
Qed.

Lemma sanitize_fixed_points_witness :
  sanitize (bytes_of [0x41; 0xED; 0xA0; 0x80]) =
    bytes_of [0x41; 0xED; 0xA0; 0x80] /\
  coalesce_pairs (wtf8_scalars (bytes_of [0xF0; 0x9F; 0x98; 0x80])) =
    wtf8_scalars (bytes_of [0xF0; 0x9F; 0x98; 0x80]).
Proof.
  split.
  - exact (proj2 (sanitize_fixed_points (bytes_of [0x41; 0xED; 0xA0; 0x80]))
                 (conj eq_refl eq_refl)).
  - exact (proj2 (proj1 (sanitize_fixed_points
                           (bytes_of [0xF0; 0x9F; 0x98; 0x80])) eq_refl)).
Defined.

(** X5: the validator accepts exactly the concatenations of encodings of
    scalars in U+0000..U+10FFFF, and a valid string followed by any bytes
    is valid exactly when those bytes are. *)
Theorem valid_wtf8_characterisation :
  (forall p,
     duk_unicode_is_valid_wtf8 p = true <->
     exists cps, Forall scalar_ok cps /\ p = wtf8_encode_all cps) /\
  (forall a b,
     duk_unicode_is_valid_wtf8 a = true ->
     duk_unicode_is_valid_wtf8 (a ++ b) = duk_unicode_is_valid_wtf8 b).
Proof.
  split.
  - intros p. split.
    + intros H. apply valid_iff_wf_string in H.
      destruct (wf_string_scalars _ H) as [Hok Henc].
      exists (wtf8_scalars p). split; [exact Hok | now symmetry].
    + intros (cps & Hok & ->). apply valid_iff_wf_string.
      induction Hok as [|cp cps Hcp _ IH]; [constructor|].
      unfold wtf8_encode_all in *. cbn [flat_map].
      econstructor; [apply encode_wf_sequence, Hcp | exact IH].
  - intros a b H. apply valid_iff_wf_string in H.
    induction H as [|s cp r Hs _ IH]; [reflexivity|].
    now rewrite <- app_assoc, (valid_sequence_app _ _ _ Hs).
Qed.

Lemma valid_wtf8_characterisation_witness :
  (exists cps, Forall scalar_ok cps /\
               bytes_of [0xED; 0xA0; 0x80] = wtf8_encode_all cps) /\
  duk_unicode_is_valid_wtf8 (wtf8_encode_all [0x41; 0xD800; 0x10FFFF])
    = true /\
  duk_unicode_is_valid_wtf8
    (bytes_of [0xED; 0xA0; 0x80] ++ bytes_of [0xC0; 0xAF]) =
  duk_unicode_is_valid_wtf8 (bytes_of [0xC0; 0xAF]).
Proof.
  split; [|split].
  - exact (proj1 (proj1 valid_wtf8_characterisation
                        (bytes_of [0xED; 0xA0; 0x80])) eq_refl).
  - apply (proj1 valid_wtf8_characterisation).
    exists [0x41; 0xD800; 0x10FFFF]. split; [|reflexivity].
    repeat constructor; unfold scalar_ok; lia.
  - exact (proj2 valid_wtf8_characterisation
                 (bytes_of [0xED; 0xA0; 0x80]) (bytes_of [0xC0; 0xAF])
                 eq_refl).
Defined.

(** X6: decoding the encoding of a scalar gives the scalar back, whatever
    follows it; and at the start of a non-empty valid string the decoder
    returns a scalar in U+0000..U+10FFFF whose encoding is the sequence it
    has read. *)
Theorem decode_known_inverts_encoding :
  (forall cp rest,
     scalar_ok cp ->
     duk_unicode_wtf8_decode_known (wtf8_encode cp ++ rest) = Some cp) /\
  (forall p,
     duk_unicode_is_valid_wtf8 p = true -> p <> [] ->
     exists cp rest,
       duk_unicode_wtf8_decode_known p = Some cp /\ scalar_ok cp /\
       p = wtf8_encode cp ++ rest /\
       duk_unicode_is_valid_wtf8 rest = true).
Proof.
  split.
  - intros cp rest H. apply decode_known_sequence.
    now apply encode_wf_sequence.
  - intros p Hv Hne.
    destruct (valid_inv p Hv) as [->|(s & cp & r & -> & Hs & Hr)];
      [contradiction|].
    destruct (wf_sequence_encode _ _ Hs) as [Hok Henc].
    subst s. exists cp, r.
    split; [now apply decode_known_sequence|].
    split; [exact Hok|]. split; [reflexivity | exact Hr].
Qed.

Lemma decode_known_inverts_encoding_witness :
  duk_unicode_wtf8_decode_known
    (wtf8_encode 0x1F600 ++ bytes_of [0x41]) = Some 0x1F600 /\
  exists cp rest,
    duk_unicode_wtf8_decode_known (bytes_of [0xC3; 0xA9; 0x41]) = Some cp /\
    scalar_ok cp /\
    bytes_of [0xC3; 0xA9; 0x41] = wtf8_encode cp ++ rest /\
    duk_unicode_is_valid_wtf8 rest = true.
Proof.
  split.
  - exact (proj1 decode_known_inverts_encoding 0x1F600 (bytes_of [0x41])
                 ltac:(unfold scalar_ok; lia)).
  - exact (proj2 decode_known_inverts_encoding (bytes_of [0xC3; 0xA9; 0x41])
                 eq_refl ltac:(discriminate)).
Defined.

(** * Further properties of the character length *)

Lemma sequence_ascii_iff s cp :
  wf_sequence s cp ->
  Z.of_nat (length s) <= 3 * scalar_chars cp /\
  (scalar_chars cp = Z.of_nat (length s) <->
   Forall (fun b => u8 b < 0x80) s).
Proof.
  intros H. unfold scalar_chars. destruct H; cbn [length].
  - ifs. split; [lia|]. split; [intros _; repeat constructor; lia | lia].
  - ifs. split; [lia|]. split; [lia|]. intros Hf. inversion Hf; subst. lia.
  - ifs. split; [lia|]. split; [lia|]. intros Hf. inversion Hf; subst. lia.
  - ifs. split; [lia|]. split; [lia|]. intros Hf. inversion Hf; subst. lia.
Qed.

Lemma wf_string_ascii_iff p :
  wf_string p ->
  Z.of_nat (length p) <= 3 * count_chars p /\
  (count_chars p = Z.of_nat (length p) <->
   Forall (fun b => u8 b < 0x80) p).
Proof.
  induction 1 as [|s cp r Hs Hr [IH1 IH2]].
  - cbn. split; [lia|]. split; [constructor | reflexivity].
  - rewrite (count_chars_sequence _ _ _ Hs), length_app.
    destruct (sequence_ascii_iff _ _ Hs) as [Hs1 Hs2].
    pose proof (sequence_chars_le_length _ _ Hs) as Hs3.
    pose proof (count_chars_le_length _ Hr) as Hr3.
    split; [lia|]. rewrite Forall_app. split.
    + intros Heq. split; [apply Hs2 | apply IH2]; lia.
    + intros [Ha Hb]. apply Hs2 in Ha. apply IH2 in Hb. lia.
Qed.

(** X7: on valid input the character length is at most the byte length
    and at least a third of it, and it equals the byte length exactly when
    every byte is ASCII (the test of the ASCII fast paths). *)
Theorem charlength_bounds_and_ascii (p : list byte) :
  duk_unicode_is_valid_wtf8 p = true ->
  exists clen,
    duk_unicode_wtf8_charlength p = Some clen /\
    clen <= Z.of_nat (length p) <= 3 * clen /\
    (clen = Z.of_nat (length p) <-> Forall (fun b => u8 b < 0x80) p).
Proof.
  intros Hv. exists (count_chars p).
  split; [now apply charlength_valid_count|].
  apply valid_iff_wf_string in Hv.
  destruct (wf_string_ascii_iff p Hv) as [H1 H2].
  pose proof (count_chars_le_length p Hv). repeat split; try lia; apply H2.
Qed.

Lemma charlength_bounds_and_ascii_witness :
  exists clen,
    duk_unicode_wtf8_charlength (bytes_of [0x41; 0xF0; 0x9F; 0x98; 0x80])
      = Some clen /\
    clen <= 5 <= 3 * clen /\
    (clen = 5 <->
     Forall (fun b => u8 b < 0x80) (bytes_of [0x41; 0xF0; 0x9F; 0x98; 0x80])).
Proof.
  exact (charlength_bounds_and_ascii
           (bytes_of [0x41; 0xF0; 0x9F; 0x98; 0x80]) eq_refl).
Defined.

(** X8: the character length of the concatenation of two valid strings is
    the sum of their character lengths. *)
Theorem charlength_concat (a b : list byte) :
  duk_unicode_is_valid_wtf8 a = true ->
  duk_unicode_is_valid_wtf8 b = true ->
  exists na nb,
    duk_unicode_wtf8_charlength a = Some na /\
    duk_unicode_wtf8_charlength b = Some nb /\
    duk_unicode_wtf8_charlength (a ++ b) = Some (na + nb).
Proof.
  intros Ha Hb. exists (count_chars a), (count_chars b).
  split; [now apply charlength_valid_count|].
  split; [now apply charlength_valid_count|].
  assert (Hab : duk_unicode_is_valid_wtf8 (a ++ b) = true).
  { apply valid_iff_wf_string.
    apply wf_string_concat; now apply valid_iff_wf_string. }
  rewrite (charlength_valid_count _ Hab).
  apply valid_iff_wf_string in Ha. now rewrite count_chars_concat.
Qed.

Lemma charlength_concat_witness :
  exists na nb,
    duk_unicode_wtf8_charlength (bytes_of [0xC3; 0xA9]) = Some na /\
    duk_unicode_wtf8_charlength (bytes_of [0xF0; 0x9F; 0x98; 0x80])
      = Some nb /\
    duk_unicode_wtf8_charlength
      (bytes_of [0xC3; 0xA9] ++ bytes_of [0xF0; 0x9F; 0x98; 0x80])
      = Some (na + nb).
Proof.
  exact (charlength_concat (bytes_of [0xC3; 0xA9])
                           (bytes_of [0xF0; 0x9F; 0x98; 0x80])
                           eq_refl eq_refl).
Defined.

Lemma coalesce_pairs_chars l :
  sum_Z (map scalar_chars (coalesce_pairs l)) = sum_Z (map scalar_chars l).
Proof.
  induction l as [l IH] using length_induction.
  destruct l as [|a [|b l']]; [reflexivity | reflexivity |].
  rewrite coalesce_pairs_cons2.
  destruct (is_high_surrogate a && is_low_surrogate b) eqn:E.
  - cbn [map sum_Z fold_right]. fold (sum_Z (map scalar_chars l')).
    fold (sum_Z (map scalar_chars (coalesce_pairs l'))).
    rewrite IH by (cbn [length]; lia).
    unfold is_high_surrogate, is_low_surrogate in E. b2p.
    unfold scalar_chars, combine_pair. rewrite shl_10.
    destruct (Z.ltb_spec a 0x10000); destruct (Z.ltb_spec b 0x10000);
      destruct (Z.ltb_spec (0x10000 + (a - 0xD800) * 1024 + (b - 0xDC00))
                           0x10000); lia.
  - cbn [map sum_Z fold_right].
    fold (sum_Z (map scalar_chars (coalesce_pairs (b :: l')))).
    rewrite IH by (cbn [length]; lia). reflexivity.
Qed.

Lemma coalesce_pairs_ok l :
  Forall scalar_ok l -> Forall scalar_ok (coalesce_pairs l).
Proof.
  induction l as [l IH] using length_induction. intros H.
  destruct l as [|a [|b l']]; [exact H | exact H |].
  rewrite coalesce_pairs_cons2.
  inversion H as [|? ? Ha H']; subst. inversion H' as [|? ? Hb H'']; subst.
  destruct (is_high_surrogate a && is_low_surrogate b) eqn:E.
  - constructor; [|apply IH; [cbn [length]; lia | exact H'']].
    unfold is_high_surrogate, is_low_surrogate in E. b2p.
    unfold scalar_ok, combine_pair. rewrite shl_10. lia.
  - constructor; [exact Ha|]. apply IH; [cbn [length]; lia | exact H'].
Qed.

(** X9: on valid input the sanitizer keeps the character length: a
    combined surrogate pair counts two characters, as the two surrogates
    did. *)
Theorem sanitize_keeps_charlength (p : list byte) :
  duk_unicode_is_valid_wtf8 p = true ->
  duk_unicode_wtf8_charlength (sanitize p) = duk_unicode_wtf8_charlength p.
Proof.
  intros Hv. apply valid_iff_wf_string in Hv.
  rewrite (charlength_wf_string _ Hv).
  rewrite (charlength_wf_string _ (sanitize_wf_string p)).
  rewrite (sanitize_wf_string_coalesce _ Hv) at 1.
  rewrite scalars_encode_all.
  - now rewrite coalesce_pairs_chars.
  - apply coalesce_pairs_ok. now apply wf_string_scalars.
Qed.

Lemma sanitize_keeps_charlength_witness :
  duk_unicode_wtf8_charlength
    (sanitize (bytes_of [0xED; 0xA0; 0xBD; 0xED; 0xB8; 0x80])) =
  duk_unicode_wtf8_charlength (bytes_of [0xED; 0xA0; 0xBD; 0xED; 0xB8; 0x80]).
Proof.
  exact (sanitize_keeps_charlength
           (bytes_of [0xED; 0xA0; 0xBD; 0xED; 0xB8; 0x80]) eq_refl).
Defined.

(** * Further properties of string handles *)

Lemma count_chars_zero p : wf_string p -> count_chars p = 0 -> p = [].
Proof.
  intros H Hz. destruct (wf_string_ascii_iff p H) as [Hl _].
  apply length_zero_iff_nil. lia.
Qed.

Lemma set_clen_same cfg h c :
  h_clen h = (if USE_STRLEN16 cfg then c mod 2 ^ 16 else wrap32 c) ->
  set_clen cfg h c = h.
Proof.
  destruct h as [ro sy asc cl d]. unfold set_clen.
  cbn [h_clen h_readonly h_symbol h_ascii h_data]. intros <-. reflexivity.
Qed.

Lemma set_ascii_same h : h_ascii h = true -> set_ascii h = h.
Proof. destruct h; cbn. intros ->. reflexivity. Qed.

(** X10: on the handle of a well-formed string whose byte length fits the
    [clen] field, [duk_hstring_get_charlen] returns the character length of
    the bytes in every variant.  The handle it leaves satisfies the handle
    invariants again, has the same bytes, keeps an ASCII flag that was set
    and a stored [clen] that was not 0, and a second call returns the same
    length and changes nothing. *)
Theorem get_charlen_cache_coherent (cfg : duk_config) (h : duk_hstring) :
  hstring_wf cfg h ->
  duk_hstring_get_bytelen h <
    (if USE_STRLEN16 cfg then 2 ^ 16 else 2 ^ 32) ->
  exists h',
    duk_hstring_get_charlen cfg h = Some (count_chars (h_data h), h') /\
    hstring_wf cfg h' /\
    h_data h' = h_data h /\
    (h_ascii h = true -> h_ascii h' = true) /\
    (h_clen h <> 0 -> h_clen h' = h_clen h) /\
    duk_hstring_get_charlen cfg h' = Some (count_chars (h_data h), h').
Proof.
  intros Hwf Hwidth.
  pose proof Hwf as (Hsym & Hvalid & Hascii & Hclen).
  pose proof (charlength_valid_count _ Hvalid) as Hlen.
  assert (Hwfs : wf_string (h_data h)) by now apply valid_iff_wf_string.
  pose proof (count_chars_le_length _ Hwfs) as Hle.
  pose proof (count_chars_nonneg _ Hwfs) as Hnn.
  set (n := count_chars (h_data h)) in *.
  assert (Hstore : (if USE_STRLEN16 cfg then n mod 2 ^ 16 else wrap32 n) = n).
  { unfold duk_hstring_get_bytelen, wrap32 in *.
    destruct (USE_STRLEN16 cfg); apply Z.mod_small; lia. }
  assert (Hsame : duk_hstring_get_charlen cfg h = Some (n, h) ->
    exists h',
      duk_hstring_get_charlen cfg h = Some (n, h') /\
      hstring_wf cfg h' /\ h_data h' = h_data h /\
      (h_ascii h = true -> h_ascii h' = true) /\
      (h_clen h <> 0 -> h_clen h' = h_clen h) /\
      duk_hstring_get_charlen cfg h' = Some (n, h')).
  { intros Hcall. exists h. repeat split; auto. }
  unfold clen_field_ok in Hclen. fold n in Hclen.
  destruct (USE_HSTRING_LAZY_CLEN cfg) eqn:Elazy.
  2: { apply Hsame. unfold duk_hstring_get_charlen.
       now rewrite Elazy, Hclen. }
  destruct (USE_HSTRING_CLEN cfg) eqn:Eclen.
  - destruct (Z.eq_dec (h_clen h) 0) as [Hz|Hnz].
    + destruct (USE_ROM_STRINGS cfg && h_readonly h) eqn:Ero.
      * apply Hsame.
        unfold duk_hstring_get_charlen, duk__hstring_get_charlen_slowpath.
        rewrite Elazy, Eclen, Hz, Ero. cbn [Z.eqb negb].
        destruct Hclen as [<-|[_ ?]]; [now rewrite Hz | discriminate].
      * set (h' := if n =? duk_hstring_get_bytelen (set_clen cfg h n)
                   then set_ascii (set_clen cfg h n) else set_clen cfg h n).
        assert (Hcall : duk_hstring_get_charlen cfg h = Some (n, h')).
        { unfold duk_hstring_get_charlen,
            duk__hstring_get_charlen_slowpath, duk_hstring_get_data.
          now rewrite Elazy, Eclen, Hz, Ero, Hsym, Hlen. }
        assert (Hfields : h_data h' = h_data h /\ h_clen h' = n /\
                          h_symbol h' = false /\
                          h_readonly h' = h_readonly h /\
                          (h_ascii h' = true ->
                           n = Z.of_nat (length (h_data h))) /\
                          (n = Z.of_nat (length (h_data h)) ->
                           h_ascii h' = true)).
        { subst h'. unfold duk_hstring_get_bytelen.
          cbn [set_clen h_data].
          destruct (Z.eqb_spec n (Z.of_nat (length (h_data h))));
            cbn [set_clen set_ascii h_data h_clen h_symbol h_readonly
                 h_ascii];
            rewrite Hstore; repeat split; auto; try lia;
            try (intros Ha; apply Hascii in Ha;
                 unfold duk_hstring_get_bytelen in Ha; lia). }
        destruct Hfields as (Hd' & Hc' & Hs' & Hr' & Ha1 & Ha2).
        exists h'. split; [exact Hcall|]. split.
        { unfold hstring_wf, clen_field_ok, duk_hstring_get_bytelen.
          rewrite Hd', Hc', Hs', Elazy, Eclen. fold n.
          repeat split; auto. }
        split; [exact Hd'|]. split; [intros Ha; apply Ha2, Hascii, Ha|].
        split; [contradiction|].
        unfold duk_hstring_get_charlen, duk__hstring_get_charlen_slowpath,
          duk_hstring_get_data, duk_hstring_get_bytelen.
        rewrite Elazy, Eclen, Hc', Hr', Ero, Hs'.
        destruct (Z.eqb_spec n 0) as [Hn0|Hn1]; cbn [negb]; [|reflexivity].
        rewrite Hd', Hlen.
        rewrite (set_clen_same cfg h' n) by (now rewrite Hstore).
        rewrite Hd'.
        assert (Hempty : h_data h = []) by now apply count_chars_zero.
        rewrite Hempty in *. cbn [length] in *.
        destruct (Z.eqb_spec n (Z.of_nat 0)); [|cbn in *; lia].
        now rewrite set_ascii_same by (apply Ha2; cbn; lia).
    + apply Hsame. unfold duk_hstring_get_charlen. rewrite Elazy, Eclen.
      destruct (Z.eqb_spec (h_clen h) 0); [contradiction|]. cbn [negb].
      destruct Hclen as [->|[? _]]; [reflexivity | contradiction].
  - destruct (h_ascii h) eqn:Easc.
    + apply Hsame.
      unfold duk_hstring_get_charlen, duk__hstring_get_charlen_slowpath.
      rewrite Elazy, Eclen, Easc. now rewrite <- Hascii.
    + destruct (USE_ROM_STRINGS cfg && h_readonly h) eqn:Ero.
      * apply Hsame.
        unfold duk_hstring_get_charlen, duk__hstring_get_charlen_slowpath,
          duk_hstring_get_data.
        now rewrite Elazy, Eclen, Easc, Hsym, Hlen, Ero.
      * set (h' := if n =? duk_hstring_get_bytelen h
                   then set_ascii h else h).
        assert (Hcall : duk_hstring_get_charlen cfg h = Some (n, h')).
        { unfold duk_hstring_get_charlen,
            duk__hstring_get_charlen_slowpath, duk_hstring_get_data.
          now rewrite Elazy, Eclen, Easc, Hsym, Hlen, Ero. }
        assert (Hfields : h_data h' = h_data h /\ h_clen h' = h_clen h /\
                          h_symbol h' = false /\
                          h_readonly h' = h_readonly h /\
                          (h_ascii h' = true <->
                           n = Z.of_nat (length (h_data h)))).
        { subst h'. unfold duk_hstring_get_bytelen.
          destruct (Z.eqb_spec n (Z.of_nat (length (h_data h))));
            cbn [set_ascii h_data h_clen h_symbol h_readonly h_ascii];
            repeat split; auto; try lia;
            try (rewrite Easc; discriminate). }
        destruct Hfields as (Hd' & Hc' & Hs' & Hr' & Ha').
        exists h'. split; [exact Hcall|]. split.
        { unfold hstring_wf, clen_field_ok, duk_hstring_get_bytelen.
          rewrite Hd', Hs', Elazy, Eclen. fold n.
          repeat split; auto. apply Ha'. }
        split; [exact Hd'|]. split; [discriminate|].
        split; [intros _; exact Hc'|].
        unfold duk_hstring_get_charlen, duk__hstring_get_charlen_slowpath,
          duk_hstring_get_data, duk_hstring_get_bytelen.
        rewrite Elazy, Eclen, Hr', Ero, Hs', Hd', Hlen.
        destruct (h_ascii h') eqn:Easc'.
        -- f_equal. f_equal. symmetry. now apply Ha'.
        -- destruct (Z.eqb_spec n (Z.of_nat (length (h_data h))))
             as [Heq|Hne]; [|reflexivity].
           apply Ha' in Heq. congruence.
Qed.

Lemma get_charlen_cache_coherent_witness :
  let cfg := {| USE_HSTRING_LAZY_CLEN := true; USE_HSTRING_CLEN := true;
                USE_ROM_STRINGS := true; USE_STRLEN16 := true |} in
  let h := {| h_readonly := false; h_symbol := false; h_ascii := false;
              h_clen := 0; h_data := bytes_of [0x61; 0x62] |} in
  exists h',
    duk_hstring_get_charlen cfg h = Some (count_chars (h_data h), h') /\
    hstring_wf cfg h' /\
    h_data h' = h_data h /\
    (h_ascii h = true -> h_ascii h' = true) /\
    (h_clen h <> 0 -> h_clen h' = h_clen h) /\
    duk_hstring_get_charlen cfg h' = Some (count_chars (h_data h), h').
Proof.
  intros cfg h. apply get_charlen_cache_coherent.
  - unfold hstring_wf, clen_field_ok.
    split; [reflexivity|]. split; [reflexivity|].
    split; [intros Hf; discriminate Hf|]. right. split; reflexivity.
  - vm_compute. reflexivity.
Defined.

(** X11: when the character length is not lazy, [duk_hstring_init_charlen]
    on a string with valid bytes that fit the [clen] field stores the
    character length, sets the ASCII flag exactly when every byte is
    ASCII, and leaves a handle that satisfies the handle invariants, so
    that [duk_hstring_get_charlen] returns the character length.  For a
    symbol it stores 0. *)
Theorem init_charlen_establishes_invariants
        (cfg : duk_config) (h : duk_hstring) :
  USE_HSTRING_LAZY_CLEN cfg = false ->
  h_ascii h = false ->
  duk_hstring_get_bytelen h <
    (if USE_STRLEN16 cfg then 2 ^ 16 else 2 ^ 32) ->
  (h_symbol h = true ->
   exists h', duk_hstring_init_charlen cfg h = Some h' /\
              h_clen h' = 0 /\ h_data h' = h_data h) /\
  (h_symbol h = false ->
   duk_unicode_is_valid_wtf8 (h_data h) = true ->
   exists h',
     duk_hstring_init_charlen cfg h = Some h' /\
     hstring_wf cfg h' /\
     h_data h' = h_data h /\
     (duk_hstring_is_ascii h' = true <->
      Forall (fun b => u8 b < 0x80) (h_data h)) /\
     duk_hstring_get_charlen cfg h' = Some (count_chars (h_data h), h')).
Proof.
  intros Hlazy Hasc Hwidth. unfold duk_hstring_init_charlen. split.
  - intros Hsym. rewrite Hsym. eexists. split; [reflexivity|].
    unfold duk_hstring_get_bytelen. cbn [set_clen h_data].
    assert (Hz : (if USE_STRLEN16 cfg then 0 mod 2 ^ 16 else wrap32 0) = 0)
      by (destruct (USE_STRLEN16 cfg); reflexivity).
    destruct (0 =? Z.of_nat (length (h_data h)));
      cbn [set_ascii set_clen h_clen h_data]; rewrite Hz; split; reflexivity.
  - intros Hsym Hvalid. rewrite Hsym.
    pose proof (charlength_valid_count _ Hvalid) as Hlen.
    assert (Hwfs : wf_string (h_data h)) by now apply valid_iff_wf_string.
    pose proof (count_chars_le_length _ Hwfs) as Hle.
    pose proof (count_chars_nonneg _ Hwfs) as Hnn.
    destruct (wf_string_ascii_iff _ Hwfs) as [_ Hiff].
    unfold duk_hstring_get_data. rewrite Hlen.
    set (n := count_chars (h_data h)) in *.
    assert (Hstore :
      (if USE_STRLEN16 cfg then n mod 2 ^ 16 else wrap32 n) = n).
    { unfold duk_hstring_get_bytelen, wrap32 in *.
      destruct (USE_STRLEN16 cfg); apply Z.mod_small; lia. }
    eexists. split; [reflexivity|].
    unfold duk_hstring_get_bytelen. cbn [set_clen h_data].
    unfold hstring_wf, clen_field_ok, duk_hstring_get_charlen,
      duk_hstring_is_ascii, duk_hstring_get_bytelen.
    rewrite Hlazy.
    destruct (Z.eqb_spec n (Z.of_nat (length (h_data h)))) as [Heq|Hne];
      cbn [set_ascii set_clen h_clen h_data h_symbol h_ascii h_readonly];
      rewrite Hstore; fold n.
    + repeat split; auto. intros _. now apply Hiff.
    + rewrite Hasc. repeat split; auto; try discriminate.
      intros Hall. apply Hiff in Hall. contradiction.
Qed.

Lemma init_charlen_establishes_invariants_witness :
  let cfg := {| USE_HSTRING_LAZY_CLEN := false; USE_HSTRING_CLEN := true;
                USE_ROM_STRINGS := false; USE_STRLEN16 := false |} in
  let h := {| h_readonly := false; h_symbol := false; h_ascii := false;
              h_clen := 0; h_data := bytes_of [0x61; 0xC3; 0xA9] |} in
  exists h',
    duk_hstring_init_charlen cfg h = Some h' /\
    hstring_wf cfg h' /\
    h_data h' = h_data h /\
    (duk_hstring_is_ascii h' = true <->
     Forall (fun b => u8 b < 0x80) (h_data h)) /\
    duk_hstring_get_charlen cfg h' = Some (count_chars (h_data h), h').
Proof.
  intros cfg h.
  exact (proj2 (init_charlen_establishes_invariants cfg h eq_refl eq_refl
                  ltac:(vm_compute; reflexivity)) eq_refl eq_refl).
Defined.

(** X12: the hash that [duk_hstring_set_hash] stores is the hash that
    [duk_hstring_get_hash] returns, for a hash that fits the field; with
    the 16-bit hash packed into the flags word, storing it leaves the 16
    flag bits as they were. *)
Theorem hash_set_then_get
        (use_strhash16 : bool) (h : hstring_hash_fields) (hash : Z) :
  0 <= hash <= (if use_strhash16 then 0xffff else 0xffffffff) ->
  duk_hstring_get_hash use_strhash16
    (duk_hstring_set_hash use_strhash16 h hash) = hash /\
  Z.land (hdr_h_flags (duk_hstring_set_hash use_strhash16 h hash)) 0xffff =
  Z.land (hdr_h_flags h) 0xffff.
Proof.
  intros Hh. unfold duk_hstring_get_hash, duk_hstring_set_hash.
  destruct use_strhash16; cbn [hdr_h_flags h_hash]; [|split; reflexivity].
  assert (Hw : wrap32 (Z.shiftl hash 16) = Z.shiftl hash 16).
  { apply wrap32_small. rewrite Z.shiftl_mul_pow2 by lia.
    change (2 ^ 16) with 65536. change (2 ^ 32) with 4294967296. lia. }
  rewrite Hw. change 0xffff with (Z.ones 16). split.
  - rewrite Z.shiftr_lor, Z.shiftr_shiftl_l, Z.sub_diag, Z.shiftl_0_r by lia.
    rewrite Z.land_ones, Z.shiftr_div_pow2 by lia.
    rewrite Z.div_small by (apply Z.mod_pos_bound; lia).
    apply Z.lor_0_l.
  - rewrite Z.land_lor_distr_l, <- Z.land_assoc, Z.land_diag.
    rewrite (Z.land_ones (Z.shiftl hash 16)) by lia.
    rewrite Z.shiftl_mul_pow2, Z.mod_mul by lia.
    apply Z.lor_0_r.
Qed.

Lemma hash_set_then_get_witness :
  duk_hstring_get_hash true
    (duk_hstring_set_hash true
       {| hdr_h_flags := 0xABCD1234; h_hash := 0 |} 0xBEEF) = 0xBEEF /\
  Z.land (hdr_h_flags
            (duk_hstring_set_hash true
               {| hdr_h_flags := 0xABCD1234; h_hash := 0 |} 0xBEEF)) 0xffff =
  Z.land 0xABCD1234 0xffff.
Proof.
  exact (hash_set_then_get true {| hdr_h_flags := 0xABCD1234; h_hash := 0 |}
                           0xBEEF ltac:(cbn; lia)).
Defined.

(** * Further properties of the substring *)

Lemma ascii_count_length p :
  wf_string p -> Forall (fun b => u8 b < 0x80) p ->
  count_chars p = Z.of_nat (length p).
Proof. intros H Ha. now apply (wf_string_ascii_iff p H). Qed.

Lemma sanitize_ascii p :
  Forall (fun b => u8 b < 0x80) p -> sanitize p = p.
Proof.
  intros H. pose proof (sanitize_ascii_app p [] H) as Hx.
  now rewrite sanitize_nil, !app_nil_r in Hx.
Qed.

(** The substring for every pair of offsets, on every path of the code:
    the manufactured halves around the sanitized middle. *)
Lemma substring_general cfg h pre A oa mid B ob post :
  hstring_wf cfg h ->
  h_data h = pre ++ A ++ mid ++ B ++ post ->
  wf_string pre -> split_codepoint A oa -> wf_string mid ->
  split_codepoint B ob -> wf_string post ->
  duk_push_wtf8_substring_hstring cfg h
    (count_chars pre + half_offset oa)
    (count_chars pre + count_chars A + count_chars mid + half_offset ob) =
  Some (manufactured low_half oa ++ sanitize mid ++ manufactured high_half ob).
Proof.
  intros Hwf Hd Hpre HA Hmid HB Hpost.
  pose proof (hstring_charlen_wf cfg h Hwf) as Hclen.
  pose proof (substring_bytes_spec h _ _ _ _ _ _ _ Hd Hpre HA Hmid HB) as Hb.
  destruct (split_codepoint_wf _ _ HA) as (HAw & HAc & HAl).
  destruct (split_codepoint_wf _ _ HB) as (HBw & HBc & HBl).
  pose proof (count_chars_nonneg _ Hpre) as Hp0.
  pose proof (count_chars_nonneg _ Hmid) as Hm0.
  assert (Hoa : 0 <= half_offset oa <= 1) by (destruct oa; cbn; lia).
  assert (Hob : 0 <= half_offset ob <= 1) by (destruct ob; cbn; lia).
  unfold duk_push_wtf8_substring_hstring. rewrite Hclen.
  unfold duk_hstring_get_bytelen, duk_hstring_get_data.
  destruct (Z.eqb_spec (count_chars (h_data h))
                       (Z.of_nat (length (h_data h)))) as [Hascii|Hnon].
  - (* ASCII fast path *)
    assert (Hall : Forall (fun b => u8 b < 0x80) (h_data h)).
    { destruct Hwf as (_ & Hv & _). apply valid_iff_wf_string in Hv.
      now apply (wf_string_ascii_iff _ Hv). }
    rewrite Hd in Hall. rewrite !Forall_app in Hall.
    destruct Hall as (Hapre & HaA & Hamid & HaB & Hapost).
    assert (A = [] /\ oa = None) as [-> ->].
    { destruct HA as [|s cp Hs Hcp]; [split; reflexivity|]. exfalso.
      destruct (supplementary_sequence _ _ Hs Hcp) as (_&_&_& b & cs & -> & ?).
      inversion HaA; subst. lia. }
    assert (B = [] /\ ob = None) as [-> ->].
    { destruct HB as [|s cp Hs Hcp]; [split; reflexivity|]. exfalso.
      destruct (supplementary_sequence _ _ Hs Hcp) as (_&_&_& b & cs & -> & ?).
      inversion HaB; subst. lia. }
    cbn [half_offset manufactured app count_chars] in *.
    pose proof (ascii_count_length _ Hpre Hapre) as Hcp.
    pose proof (ascii_count_length _ Hmid Hamid) as Hcm.
    rewrite Hd.
    match goal with
    | |- context [read_bytes _ _ ?l] =>
      replace l with (Z.of_nat (length mid)) by lia
    end.
    match goal with
    | |- context [read_bytes _ ?s _] =>
      replace s with (Z.of_nat (length pre)) by lia
    end.
    rewrite read_bytes_middle.
    cbn [option_map]. rewrite (push_lstring_wf_string _ Hmid).
    now rewrite app_nil_r.
  - destruct (Z.eqb_spec (count_chars pre + half_offset oa)
                         (count_chars pre + count_chars A + count_chars mid
                          + half_offset ob)) as [Heq|Hne].
    + assert (oa = None /\ ob = None /\ count_chars mid = 0)
        as (-> & -> & Hm).
      { destruct oa, ob; cbn [half_offset] in *; repeat split;
          try reflexivity; lia. }
      rewrite (count_chars_zero _ Hmid Hm). reflexivity.
    + rewrite Hb. cbn [option_map].
      now rewrite (push_lstring_manufactured A oa mid B ob HA Hmid HB).
Qed.

Lemma manufactured_chars A oa half :
  split_codepoint A oa ->
  (forall cp, 0x10000 <= cp <= 0x10FFFF -> 0xD800 <= half cp <= 0xDFFF) ->
  wf_string (manufactured half oa) /\
  count_chars (manufactured half oa) = half_offset oa.
Proof.
  intros HA Hhalf. destruct HA as [|s cp Hs Hcp];
    cbn [manufactured half_offset].
  - split; [constructor | reflexivity].
  - destruct (supplementary_sequence _ _ Hs Hcp) as (_ & _ & Hmax & _).
    specialize (Hhalf cp ltac:(lia)).
    assert (Hw : wf_sequence (wtf8_encode (half cp)) (half cp))
      by (apply encode_wf_sequence; unfold scalar_ok; lia).
    split; [eapply wf_string_sequence, Hw|].
    rewrite (count_chars_single _ _ Hw). unfold scalar_chars.
    destruct (Z.ltb_spec (half cp) 0x10000); lia.
Qed.

Lemma count_chars_sanitize p :
  wf_string p -> count_chars (sanitize p) = count_chars p.
Proof.
  intros H.
  rewrite (count_chars_wf_string _ H),
    (count_chars_wf_string _ (sanitize_wf_string p)).
  rewrite (sanitize_wf_string_coalesce _ H) at 1.
  rewrite scalars_encode_all
    by (apply coalesce_pairs_ok; now apply wf_string_scalars).
  apply coalesce_pairs_chars.
Qed.

(** X13: on the handle of a well-formed string, the substring for
    character offsets [0 <= i <= j <= charlength] is defined, is valid
    WTF-8, and its character length is [j - i]. *)
Theorem substring_has_requested_charlength
        (cfg : duk_config) (h : duk_hstring) (i j : Z) :
  hstring_wf cfg h -> 0 <= i <= j -> j <= count_chars (h_data h) ->
  exists r,
    duk_push_wtf8_substring_hstring cfg h i j = Some r /\
    duk_unicode_is_valid_wtf8 r = true /\
    duk_unicode_wtf8_charlength r = Some (j - i).
Proof.
  intros Hwf Hi Hj.
  destruct (Z.eq_dec i j) as [<-|Hne].
  { exists []. rewrite substring_empty by (auto; lia).
    repeat split. cbn. f_equal. lia. }
  pose proof Hwf as (_ & Hv & _). apply valid_iff_wf_string in Hv.
  destruct (range_cases _ i j Hv ltac:(lia) Hj)
    as (pre & A & oa & mid & B & ob & post & Hd & Hpre & HA & Hmid & HB &
        Hpost & -> & ->).
  rewrite (substring_general cfg h _ _ _ _ _ _ _ Hwf Hd Hpre HA Hmid HB Hpost).
  eexists. split; [reflexivity|].
  destruct (manufactured_chars A oa low_half HA) as [Hlw Hlc].
  { intros cp Hcp. pose proof (low_half_range cp Hcp). lia. }
  destruct (manufactured_chars B ob high_half HB) as [Hhw Hhc].
  { intros cp Hcp. pose proof (high_half_range cp Hcp). lia. }
  pose proof (sanitize_wf_string mid) as Hsw.
  assert (Hall : wf_string (manufactured low_half oa ++ sanitize mid ++
                            manufactured high_half ob))
    by (repeat apply wf_string_concat; assumption).
  split; [now apply valid_iff_wf_string|].
  rewrite charlength_valid_count by now apply valid_iff_wf_string.
  rewrite !count_chars_concat, Hlc, Hhc, (count_chars_sanitize _ Hmid)
    by assumption.
  destruct (split_codepoint_wf _ _ HA) as (_ & HAc & _).
  f_equal. lia.
Qed.

Lemma substring_has_requested_charlength_witness :
  let cfg := {| USE_HSTRING_LAZY_CLEN := true; USE_HSTRING_CLEN := true;
                USE_ROM_STRINGS := false; USE_STRLEN16 := false |} in
  let h := {| h_readonly := false; h_symbol := false; h_ascii := false;
              h_clen := 0;
              h_data := bytes_of [0x41; 0xF0; 0x9F; 0x98; 0x80; 0x42] |} in
  exists r,
    duk_push_wtf8_substring_hstring cfg h 0 2 = Some r /\
    duk_unicode_is_valid_wtf8 r = true /\
    duk_unicode_wtf8_charlength r = Some (2 - 0).
Proof.
  intros cfg h. apply substring_has_requested_charlength.
  - unfold hstring_wf, clen_field_ok.
    split; [reflexivity|]. split; [reflexivity|].
    split; [intros Hf; discriminate Hf|]. right. split; reflexivity.
  - lia.
  - vm_compute. discriminate.
Defined.

(** X14: the substring over the whole character range of a handle is the
    sanitized form of its bytes, hence the string itself when its bytes
    are a fixed point of the sanitizer, as the bytes of an interned string
    are. *)
Theorem substring_whole_range (cfg : duk_config) (h : duk_hstring) :
  hstring_wf cfg h ->
  duk_push_wtf8_substring_hstring cfg h 0 (count_chars (h_data h)) =
    Some (sanitize (h_data h)) /\
  (sanitize (h_data h) = h_data h ->
   duk_push_wtf8_substring_hstring cfg h 0 (count_chars (h_data h)) =
   Some (h_data h)).
Proof.
  intros Hwf.
  pose proof Hwf as (_ & Hv & _). apply valid_iff_wf_string in Hv.
  assert (H : duk_push_wtf8_substring_hstring cfg h 0
                (count_chars (h_data h)) = Some (sanitize (h_data h))).
  { pose proof (substring_general cfg h [] [] None (h_data h) [] None []
                  Hwf) as Hg.
    cbn [app count_chars half_offset manufactured] in Hg.
    rewrite !app_nil_r in Hg. rewrite !Z.add_0_l, !Z.add_0_r in Hg.
    apply Hg; try constructor. exact Hv. }
  split; [exact H|]. intros Hfix. now rewrite H, Hfix.
Qed.

Lemma substring_whole_range_witness :
  let cfg := {| USE_HSTRING_LAZY_CLEN := true; USE_HSTRING_CLEN := true;
                USE_ROM_STRINGS := false; USE_STRLEN16 := false |} in
  let h := {| h_readonly := false; h_symbol := false; h_ascii := false;
              h_clen := 0;
              h_data := bytes_of [0x41; 0xF0; 0x9F; 0x98; 0x80; 0x42] |} in
  duk_push_wtf8_substring_hstring cfg h 0 (count_chars (h_data h)) =
  Some (h_data h).
Proof.
  intros cfg h.
  assert (Hwf : hstring_wf cfg h).
  { unfold hstring_wf, clen_field_ok.
    split; [reflexivity|]. split; [reflexivity|].
    split; [intros Hf; discriminate Hf|]. right. split; reflexivity. }
  exact (proj2 (substring_whole_range cfg h Hwf) eq_refl).
Defined.

(** * Character codes *)

Lemma nth_error_middle (pre : list byte) b post :
  nth_error (pre ++ b :: post) (Z.to_nat (Z.of_nat (length pre))) = Some b.
Proof.
  rewrite Nat2Z.id, nth_error_app2, Nat.sub_diag by lia. reflexivity.
Qed.

(** The branch of [duk_unicode_wtf8_charcodeat_helper] taken on a string
    whose character length equals its byte length: every byte is ASCII. *)
Lemma charcodeat_ascii_branch
      (cfg : duk_config) (h : duk_hstring)
      (pre s post : list byte) (cp : Z) :
  hstring_wf cfg h ->
  h_data h = pre ++ s ++ post ->
  wf_string pre -> wf_sequence s cp ->
  count_chars (h_data h) = Z.of_nat (length (h_data h)) ->
  exists b, s = [b] /\ cp = u8 b /\ u8 b < 0x80 /\
            count_chars pre = Z.of_nat (length pre).
Proof.
  intros Hwf Hd Hpre Hs Hascii.
  assert (Hall : Forall (fun b => u8 b < 0x80) (h_data h)).
  { destruct Hwf as (_ & Hv & _). apply valid_iff_wf_string in Hv.
    now apply (wf_string_ascii_iff _ Hv). }
  rewrite Hd in Hall. rewrite !Forall_app in Hall.
  destruct Hall as (Hapre & Has & Hapost).
  destruct Hs; inversion Has; subst; try lia.
  eexists. repeat split; try eassumption.
  now apply ascii_count_length.
Qed.

(** The character code at the character offset where a sequence starts. *)
Lemma charcodeat_at_sequence
      (cfg : duk_config) (h : duk_hstring)
      (pre s post : list byte) (cp : Z) (surrogate_aware : bool) :
  hstring_wf cfg h ->
  h_data h = pre ++ s ++ post ->
  wf_string pre -> wf_sequence s cp ->
  duk_unicode_wtf8_charcodeat_helper cfg h (count_chars pre) surrogate_aware
    = Some (if (cp <? 0x10000) || surrogate_aware then cp
            else high_half cp).
Proof.
  intros Hwf Hd Hpre Hs.
  pose proof (hstring_charlen_wf cfg h Hwf) as Hclen.
  pose proof (count_chars_nonneg _ Hpre) as Hp0.
  unfold duk_unicode_wtf8_charcodeat_helper. rewrite Hclen.
  unfold duk_strcache_scan_char2byte_wtf8, duk_hstring_get_bytelen,
    duk_hstring_get_data.
  destruct (Z.eqb_spec (count_chars (h_data h))
                       (Z.of_nat (length (h_data h)))) as [Hascii|Hnon].
  - destruct (charcodeat_ascii_branch cfg h pre s post cp Hwf Hd Hpre Hs
                Hascii) as (b & -> & -> & Hb & Hlen).
    destruct (Z.leb_spec 0 (count_chars pre)); [|lia].
    rewrite Hlen, Hd. cbn [app].
    rewrite nth_error_middle. cbn [option_map].
    destruct (Z.ltb_spec (u8 b) 0x10000); [reflexivity | lia].
  - rewrite Hd.
    pose proof (scan_boundary pre Hpre (s ++ post) 0 0) as Hscan.
    rewrite !Z.add_0_l in Hscan. rewrite Hscan, skipn_prefix.
    rewrite (decode_known_sequence _ _ _ Hs), Z.eqb_refl.
    unfold high_half.
    destruct (cp <? 0x10000), surrogate_aware; reflexivity.
Qed.

(** The character code at the second character of a scalar from U+10000
    on. *)
Lemma charcodeat_at_low_half
      (cfg : duk_config) (h : duk_hstring)
      (pre s post : list byte) (cp : Z) (surrogate_aware : bool) :
  hstring_wf cfg h ->
  h_data h = pre ++ s ++ post ->
  wf_string pre -> wf_sequence s cp -> 0x10000 <= cp ->
  duk_unicode_wtf8_charcodeat_helper
    cfg h (count_chars pre + 1) surrogate_aware = Some (low_half cp).
Proof.
  intros Hwf Hd Hpre Hs Hbig.
  pose proof (hstring_charlen_wf cfg h Hwf) as Hclen.
  unfold duk_unicode_wtf8_charcodeat_helper. rewrite Hclen.
  unfold duk_strcache_scan_char2byte_wtf8, duk_hstring_get_bytelen,
    duk_hstring_get_data.
  destruct (Z.eqb_spec (count_chars (h_data h))
                       (Z.of_nat (length (h_data h)))) as [Hascii|Hnon].
  - destruct (charcodeat_ascii_branch cfg h pre s post cp Hwf Hd Hpre Hs
                Hascii) as (b & _ & -> & Hb & _).
    lia.
  - rewrite Hd.
    pose proof (scan_split pre Hpre s cp post 0 0 Hs Hbig) as Hscan.
    rewrite !Z.add_0_l in Hscan. rewrite Hscan, skipn_prefix.
    rewrite (decode_known_sequence _ _ _ Hs).
    destruct (Z.ltb_spec cp 0x10000); [lia|].
    destruct (Z.eqb_spec (count_chars pre) (count_chars pre + 1)); [lia|].
    reflexivity.
Qed.

(** X15: on the handle of a well-formed string, the character code at the
    character offset of a sequence is its scalar when that is below
    U+10000 or the call is surrogate aware, and the high surrogate of the
    scalar otherwise; at the following offset of a supplementary scalar it
    is the low surrogate. *)
Theorem charcodeat_code_units
        (cfg : duk_config) (h : duk_hstring)
        (pre s post : list byte) (cp : Z) (surrogate_aware : bool) :
  hstring_wf cfg h ->
  h_data h = pre ++ s ++ post ->
  wf_string pre -> wf_sequence s cp -> wf_string post ->
  duk_unicode_wtf8_charcodeat_helper cfg h (count_chars pre) surrogate_aware
    = Some (if (cp <? 0x10000) || surrogate_aware then cp
            else high_half cp) /\
  (0x10000 <= cp ->
   duk_unicode_wtf8_charcodeat_helper
     cfg h (count_chars pre + 1) surrogate_aware = Some (low_half cp)).
Proof.
  intros Hwf Hd Hpre Hs Hpost. split.
  - now apply (charcodeat_at_sequence cfg h pre s post).
  - intros Hbig. now apply (charcodeat_at_low_half cfg h pre s post).
Qed.

Lemma charcodeat_code_units_witness :
  let cfg := {| USE_HSTRING_LAZY_CLEN := true; USE_HSTRING_CLEN := true;
                USE_ROM_STRINGS := false; USE_STRLEN16 := false |} in
  let h := {| h_readonly := false; h_symbol := false; h_ascii := false;
              h_clen := 0; h_data := bytes_of [0xF0; 0x9F; 0x98; 0x80] |} in
  duk_unicode_wtf8_charcodeat_helper cfg h 0 false = Some 0xD83D /\
  duk_unicode_wtf8_charcodeat_helper cfg h 0 true = Some 0x1F600 /\
  duk_unicode_wtf8_charcodeat_helper cfg h 1 false = Some 0xDE00.
Proof.
  intros cfg h.
  assert (Hwf : hstring_wf cfg h).
  { unfold hstring_wf, clen_field_ok.
    split; [reflexivity|]. split; [reflexivity|].
    split; [intros Hf; discriminate Hf|]. right. split; reflexivity. }
  assert (Hseq : wf_sequence (bytes_of [0xF0; 0x9F; 0x98; 0x80]) 0x1F600).
  { apply (wf_seq4 (byte.of_Z 0xF0) (byte.of_Z 0x9F) (byte.of_Z 0x98)
                   (byte.of_Z 0x80));
      vm_compute; try split; intros; discriminate. }
  split; [|split].
  - exact (proj1 (charcodeat_code_units cfg h []
                    (bytes_of [0xF0; 0x9F; 0x98; 0x80]) [] 0x1F600 false
                    Hwf eq_refl wf_string_nil Hseq wf_string_nil)).
  - exact (proj1 (charcodeat_code_units cfg h []
                    (bytes_of [0xF0; 0x9F; 0x98; 0x80]) [] 0x1F600 true
                    Hwf eq_refl wf_string_nil Hseq wf_string_nil)).
  - exact (proj2 (charcodeat_code_units cfg h []
                    (bytes_of [0xF0; 0x9F; 0x98; 0x80]) [] 0x1F600 false
                    Hwf eq_refl wf_string_nil Hseq wf_string_nil)
                 ltac:(lia)).
Defined.

Lemma sanitize_single_sequence s cp : wf_sequence s cp -> sanitize s = s.
Proof.
  intros H. rewrite <- (app_nil_r s) at 1.
  rewrite (sanitize_sequence _ _ _ H), combine_nil. cbn [fst snd].
  rewrite sanitize_nil, app_nil_r.
  now destruct (wf_sequence_encode _ _ H).
Qed.

(** X16: on the handle of a well-formed string, at every character offset
    inside the string the character code without surrogate awareness is a
    16-bit code unit, and the substring of one character at that offset is
    the encoding of that code unit. *)
Theorem one_character_substring_is_char_code
        (cfg : duk_config) (h : duk_hstring) (pos : Z) :
  hstring_wf cfg h -> 0 <= pos < count_chars (h_data h) ->
  exists c,
    duk_unicode_wtf8_charcodeat_helper cfg h pos false = Some c /\
    0 <= c <= 0xFFFF /\
    duk_push_wtf8_substring_hstring cfg h pos (pos + 1) =
      Some (wtf8_encode c).
Proof.
  intros Hwf Hpos.
  pose proof Hwf as (_ & Hv & _). apply valid_iff_wf_string in Hv.
  destruct (position_cases _ Hv pos ltac:(lia))
    as [(pre & post0 & Hd & Hpre & Hpost0 & Hc)
       |(pre & s & cp & post & Hd & Hpre & Hs & Hcp & Hpost & Hc)].
  - destruct Hpost0 as [|s cp post Hs Hpost].
    { rewrite Hd, app_nil_r in Hpos. lia. }
    pose proof (charcodeat_at_sequence cfg h pre s post cp false
                  Hwf Hd Hpre Hs) as Hcode.
    rewrite Hc in Hcode. rewrite orb_false_r in Hcode.
    destruct (wf_sequence_encode _ _ Hs) as [Hok Henc].
    destruct (Z.ltb_spec cp 0x10000) as [Hbmp|Hsupp].
    + exists cp. split; [exact Hcode|]. split; [unfold scalar_ok in Hok; lia|].
      pose proof (substring_general cfg h pre [] None s [] None post Hwf
                    Hd Hpre split_none (wf_string_sequence _ _ Hs)
                    split_none Hpost) as Hg.
      cbn [app half_offset manufactured count_chars] in Hg.
      rewrite (count_chars_single _ _ Hs) in Hg.
      unfold scalar_chars in Hg.
      destruct (Z.ltb_spec cp 0x10000); [|lia].
      rewrite !Z.add_0_r, Hc in Hg.
      rewrite Hg.
      now rewrite (sanitize_single_sequence _ _ Hs), app_nil_r, Henc.
    + exists (high_half cp). split; [exact Hcode|].
      pose proof (high_half_range cp ltac:(unfold scalar_ok in Hok; lia)).
      split; [lia|].
      pose proof (substring_general cfg h pre [] None [] s (Some cp) post
                    Hwf Hd Hpre split_none wf_string_nil
                    (split_some _ _ Hs Hsupp) Hpost) as Hg.
      cbn [app half_offset manufactured count_chars] in Hg.
      rewrite !Z.add_0_r, Hc in Hg.
      rewrite Hg. now rewrite sanitize_nil.
  - pose proof (charcodeat_at_low_half cfg h pre s post cp false
                  Hwf Hd Hpre Hs Hcp) as Hcode.
    rewrite Hc in Hcode.
    destruct (supplementary_sequence _ _ Hs Hcp) as (_ & Hchars & Hmax & _).
    exists (low_half cp). split; [exact Hcode|].
    pose proof (low_half_range cp ltac:(lia)). split; [lia|].
    pose proof (substring_general cfg h pre s (Some cp) [] [] None post
                  Hwf ltac:(rewrite Hd; cbn [app]; reflexivity) Hpre
                  (split_some _ _ Hs Hcp) wf_string_nil split_none Hpost)
      as Hg.
    cbn [app half_offset manufactured count_chars] in Hg.
    rewrite (count_chars_single _ _ Hs), Hchars in Hg.
    replace (count_chars pre + 2 + 0 + 0) with (pos + 1) in Hg by lia.
    rewrite Hc in Hg.
    rewrite Hg. now rewrite sanitize_nil, app_nil_r.
Qed.

Lemma one_character_substring_is_char_code_witness :
  let cfg := {| USE_HSTRING_LAZY_CLEN := true; USE_HSTRING_CLEN := true;
                USE_ROM_STRINGS := false; USE_STRLEN16 := false |} in
  let h := {| h_readonly := false; h_symbol := false; h_ascii := false;
              h_clen := 0;
              h_data := bytes_of [0x41; 0xF0; 0x9F; 0x98; 0x80] |} in
  exists c,
    duk_unicode_wtf8_charcodeat_helper cfg h 2 false = Some c /\
    0 <= c <= 0xFFFF /\
    duk_push_wtf8_substring_hstring cfg h 2 (2 + 1) = Some (wtf8_encode c).
Proof.
  intros cfg h. apply one_character_substring_is_char_code.
  - unfold hstring_wf, clen_field_ok.
    split; [reflexivity|]. split; [reflexivity|].
    split; [intros Hf; discriminate Hf|]. right. split; reflexivity.
  - vm_compute. split; [discriminate | reflexivity].
Defined.

(** * Backward search *)

Section SearchBackLoop.

Variable cfg : duk_config.
Variables h_input h_match : duk_hstring.
Hypothesis Hwf_input : hstring_wf cfg h_input.
Hypothesis Hwf_match : hstring_wf cfg h_match.
Hypothesis Hmax_input : duk_hstring_get_bytelen h_input <= 0x7fffffff.
Hypothesis Hmax_match : duk_hstring_get_bytelen h_match <= 0x7fffffff.

Local Abbreviation ic := (count_chars (h_data h_input)).
Local Abbreviation mc := (count_chars (h_data h_match)).

(** The loop returns the last offset up to [i] where the needle is found,
    and -1 when there is none. *)
Lemma search_backwards_loop_spec fuel : forall i,
  -1 <= i <= 0x7fffffff ->
  fuel = Z.to_nat (i + 1) ->
  exists r,
    search_backwards_loop fuel cfg h_input h_match ic mc i = Some r /\
    (r = -1 \/
     (0 <= r <= i /\ r + mc <= ic /\ matches_at cfg h_input h_match r)) /\
    (forall j, 0 <= j <= i -> j + mc <= ic -> r < j ->
               ~ matches_at cfg h_input h_match j).
Proof.
  pose proof (charlen_bounds cfg h_input h_match Hwf_input Hwf_match
                Hmax_input Hmax_match) as (Hic & Hmc).
  induction fuel as [|fuel IH]; intros i Hi Hfuel.
  - exists (-1). cbn [search_backwards_loop].
    destruct (Z.leb_spec 0 i); [lia|].
    split; [reflexivity|]. split; [now left|]. intros j Hj1 Hj2. lia.
  - cbn [search_backwards_loop].
    destruct (Z.leb_spec 0 i); [|lia].
    rewrite (wrap32_small i) by lia.
    rewrite (wrap32_small (i + mc)) by lia.
    destruct (IH (i - 1) ltac:(lia) ltac:(lia))
      as (r & Hr & Hfound & Hlast).
    destruct (Z.leb_spec (i + mc) ic) as [Hfit|Hnofit].
    + destruct (substring_defined cfg h_input i (i + mc)
                  Hwf_input ltac:(lia) Hfit) as (tmp & Htmp).
      rewrite Htmp.
      destruct (bytes_eqb tmp (duk_hstring_get_data h_match)) eqn:Heq.
      * apply bytes_eqb_eq in Heq. exists i.
        rewrite to_int32_small by lia.
        split; [reflexivity|]. split.
        -- right. repeat split; try lia.
           unfold matches_at. now rewrite Htmp, Heq.
        -- intros j Hj1 Hj2 Hj3. lia.
      * exists r. split; [exact Hr|]. split.
        -- destruct Hfound as [->|(? & ? & ?)]; [now left|].
           right. repeat split; try assumption; lia.
        -- intros j Hj1 Hj2 Hj3.
           destruct (Z.eq_dec j i) as [->|Hne].
           ++ unfold matches_at. rewrite Htmp. intros [= Habs].
              apply bytes_eqb_eq in Habs.
              unfold duk_hstring_get_data in Heq. congruence.
           ++ apply Hlast; lia.
    + exists r. split; [exact Hr|]. split.
      * destruct Hfound as [->|(? & ? & ?)]; [now left|].
        right. repeat split; try assumption; lia.
      * intros j Hj1 Hj2 Hj3.
        destruct (Z.eq_dec j i) as [->|Hne]; [lia|].
        apply Hlast; lia.
Qed.

Lemma search_backwards_spec start_charoff :
  0 <= start_charoff <= 0x7fffffff ->
  exists r,
    duk_unicode_wtf8_search_backwards cfg h_input h_match start_charoff
      = Some r /\
    (r = -1 \/
     (0 <= r <= start_charoff /\ r + mc <= ic /\
      matches_at cfg h_input h_match r)) /\
    (forall j, 0 <= j <= start_charoff -> j + mc <= ic -> r < j ->
               ~ matches_at cfg h_input h_match j).
Proof.
  intros Hstart.
  pose proof (charlen_bounds cfg h_input h_match Hwf_input Hwf_match
                Hmax_input Hmax_match) as (Hic & Hmc).
  unfold duk_unicode_wtf8_search_backwards,
    duk__unicode_wtf8_search_backwards_reference.
  rewrite (hstring_charlen_wf _ _ Hwf_input),
    (hstring_charlen_wf _ _ Hwf_match).
  cbv zeta. rewrite !wrap32_small, to_int32_small by lia.
  apply search_backwards_loop_spec; lia.
Qed.

End SearchBackLoop.

(** X17: on the handles of well-formed strings of at most 0x7FFFFFFF
    bytes, the backward search from [k] returns the largest character
    offset [i <= k], with the needle's character length fitting between
    [i] and the end of the input, at which the substring of that length is
    the needle byte for byte, and -1 when there is none.  With the empty
    needle it returns the smaller of [k] and the character length of the
    input.  A start offset from 0x80000000 on is negative as a signed
    32-bit integer and gives -1. *)
Theorem search_backwards_last_match
        (cfg : duk_config) (h n : duk_hstring) (k : Z) :
  hstring_wf cfg h -> hstring_wf cfg n ->
  duk_hstring_get_bytelen h <= 0x7fffffff ->
  duk_hstring_get_bytelen n <= 0x7fffffff ->
  0 <= k < 2 ^ 32 ->
  (0x80000000 <= k ->
   duk_unicode_wtf8_search_backwards cfg h n k = Some (-1)) /\
  (k <= 0x7fffffff ->
   exists r,
     duk_unicode_wtf8_search_backwards cfg h n k = Some r /\
     (r = -1 \/
      (0 <= r <= k /\
       r + count_chars (h_data n) <= count_chars (h_data h) /\
       matches_at cfg h n r)) /\
     (forall j, 0 <= j <= k ->
                j + count_chars (h_data n) <= count_chars (h_data h) ->
                r < j -> ~ matches_at cfg h n j) /\
     (h_data n = [] -> r = Z.min k (count_chars (h_data h)))).
Proof.
  intros Hh Hn Hmaxh Hmaxn Hk. split.
  - intros Hbig.
    unfold duk_unicode_wtf8_search_backwards,
      duk__unicode_wtf8_search_backwards_reference.
    rewrite (hstring_charlen_wf _ _ Hh), (hstring_charlen_wf _ _ Hn).
    cbv zeta.
    assert (Hneg : to_int32 k < 0).
    { unfold to_int32. rewrite wrap32_small by lia.
      change (2 ^ 31) with 2147483648 in *.
      change (2 ^ 32) with 4294967296 in *.
      destruct (Z.ltb_spec k 2147483648); lia. }
    destruct (Z.to_nat (to_int32 k + 1)); cbn [search_backwards_loop];
      destruct (Z.leb_spec 0 (to_int32 k)); try lia; reflexivity.
  - intros Hsmall.
    destruct (search_backwards_spec cfg h n Hh Hn Hmaxh Hmaxn k
                ltac:(lia)) as (r & Hr & Hfound & Hlast).
    exists r. split; [exact Hr|]. split; [exact Hfound|].
    split; [exact Hlast|].
    intros Hempty.
    pose proof (charlen_bounds cfg h n Hh Hn Hmaxh Hmaxn) as (Hic & _).
    rewrite Hempty in *. cbn [count_chars] in *.
    set (m := Z.min k (count_chars (h_data h))).
    assert (Hm : matches_at cfg h n m).
    { unfold matches_at. rewrite Hempty. cbn [count_chars].
      rewrite Z.add_0_r. apply substring_empty; [exact Hh | lia]. }
    destruct (Z.lt_trichotomy r m) as [Hlt|[Heq|Hgt]]; [|exact Heq|].
    + exfalso. apply (Hlast m); try lia. exact Hm.
    + destruct Hfound as [->|(? & ? & _)]; lia.
Qed.

Lemma search_backwards_last_match_witness :
  let cfg := {| USE_HSTRING_LAZY_CLEN := true; USE_HSTRING_CLEN := true;
                USE_ROM_STRINGS := false; USE_STRLEN16 := false |} in
  let h := {| h_readonly := false; h_symbol := false; h_ascii := false;
              h_clen := 0; h_data := bytes_of [0x41] |} in
  let n := {| h_readonly := false; h_symbol := false; h_ascii := false;
              h_clen := 0; h_data := [] |} in
  duk_unicode_wtf8_search_backwards cfg h n 7 = Some 1 /\
  duk_unicode_wtf8_search_backwards cfg h h 0x80000000 = Some (-1).
Proof.
  intros cfg h n.
  assert (Hwf : forall d, duk_unicode_is_valid_wtf8 d = true ->
            hstring_wf cfg {| h_readonly := false; h_symbol := false;
                              h_ascii := false; h_clen := 0; h_data := d |}).
  { intros d Hv. unfold hstring_wf, clen_field_ok.
    split; [reflexivity|]. split; [exact Hv|].
    split; [intros Hf; discriminate Hf|]. right. split; reflexivity. }
  split.
  - destruct (proj2 (search_backwards_last_match cfg h n 7
                       (Hwf (bytes_of [0x41]) eq_refl) (Hwf [] eq_refl)
                       ltac:(vm_compute; discriminate)
                       ltac:(vm_compute; discriminate)
                       ltac:(lia)) ltac:(lia))
      as (r & Hr & _ & _ & Hempty).
    rewrite Hr, (Hempty eq_refl). vm_compute. reflexivity.
  - exact (proj1 (search_backwards_last_match cfg h h 0x80000000
                    (Hwf (bytes_of [0x41]) eq_refl)
                    (Hwf (bytes_of [0x41]) eq_refl)
                    ltac:(vm_compute; discriminate)
                    ltac:(vm_compute; discriminate)
                    ltac:(lia)) ltac:(lia)).
Defined.

(** * CESU-8 conversion *)

Lemma cesu8_sequence s cp r :
  wf_sequence s cp ->
  cesu8_written (s ++ r) =
    option_map (app (cesu8_emitted cp)) (cesu8_written r) /\
  cesu8_nonbmp_count (s ++ r) =
    (if cp <? 0x10000 then 0 else 1) + cesu8_nonbmp_count r.
Proof.
  intros H. pose proof (wf_sequence_encode _ _ H) as [Hok Henc].
  unfold cesu8_emitted. rewrite Henc. clear Henc.
  destruct H; cbn [app cesu8_written cesu8_nonbmp_count tl].
  - ifs. split; [|lia]. now destruct (cesu8_written r).
  - ifs. split; [|lia]. now destruct (cesu8_written r).
  - ifs. split; [|lia]. now destruct (cesu8_written r).
  - destruct (Z.ltb_spec
                (u8 b mod 8 * 262144 + u8 c1 mod 64 * 4096 +
                 u8 c2 mod 64 * 64 + u8 c3 mod 64) 0x10000) as [Hs|Hb];
      [exfalso; zsolve|].
    destruct (Z.leb_spec 0xf0 (u8 b)); [|lia].
    destruct (Z.leb_spec 0xf0 (u8 c1)); [lia|].
    destruct (Z.leb_spec 0xf0 (u8 c2)); [lia|].
    destruct (Z.leb_spec 0xf0 (u8 c3)); [lia|].
    split; [|lia].
    assert (Hcp : Z.shiftl (Z.land (u8 b) 7) 18 +
                  Z.shiftl (Z.land (u8 c1) 63) 12 +
                  Z.shiftl (Z.land (u8 c2) 63) 6 + Z.land (u8 c3) 63 =
                  u8 b mod 8 * 262144 + u8 c1 mod 64 * 4096 +
                  u8 c2 mod 64 * 64 + u8 c3 mod 64)
      by (zbits; lia).
    rewrite Hcp.
    set (cp := u8 b mod 8 * 262144 + u8 c1 mod 64 * 4096 +
               u8 c2 mod 64 * 64 + u8 c3 mod 64) in *.
    unfold scalar_ok in Hok.
    rewrite (wrap32_small (cp - 0x10000)) by lia.
    fold (high_half cp). fold (low_half cp).
    pose proof (high_half_range cp ltac:(lia)) as Hhi.
    pose proof (low_half_range cp ltac:(lia)) as Hlo.
    rewrite <- (surrogate_bytes_encode (high_half cp)) by lia.
    rewrite <- (surrogate_bytes_encode (low_half cp)) by lia.
    unfold surrogate_bytes.
    destruct (cesu8_written r); reflexivity.
Qed.

Lemma cesu8_emitted_length cp :
  scalar_ok cp ->
  Z.of_nat (length (cesu8_emitted cp)) =
  Z.of_nat (length (wtf8_encode cp)) + (if cp <? 0x10000 then 0 else 5).
Proof.
  intros Hok. unfold cesu8_emitted.
  destruct (Z.ltb_spec cp 0x10000); [lia|].
  unfold scalar_ok in Hok.
  pose proof (high_half_range cp ltac:(lia)) as Hhi.
  pose proof (low_half_range cp ltac:(lia)) as Hlo.
  rewrite <- (surrogate_bytes_encode (high_half cp)) by lia.
  rewrite <- (surrogate_bytes_encode (low_half cp)) by lia.
  unfold wtf8_encode. ifs. cbn [surrogate_bytes length app tl]. lia.
Qed.

Lemma cesu8_written_wf_string p :
  wf_string p ->
  cesu8_written p = Some (flat_map cesu8_emitted (wtf8_scalars p)) /\
  0 <= cesu8_nonbmp_count p /\
  Z.of_nat (length (flat_map cesu8_emitted (wtf8_scalars p))) =
    Z.of_nat (length p) + 5 * cesu8_nonbmp_count p /\
  (cesu8_nonbmp_count p = 0 ->
   flat_map cesu8_emitted (wtf8_scalars p) = p).
Proof.
  induction 1 as [|s cp r Hs _ (IHw & IHn & IHl & IHid)].
  - cbn. repeat split; lia.
  - destruct (cesu8_sequence s cp r Hs) as [Hw Hc].
    destruct (wf_sequence_encode _ _ Hs) as [Hok Henc].
    pose proof (cesu8_emitted_length cp Hok) as Hel.
    rewrite Hw, Hc, IHw, (scalars_sequence_app _ _ _ Hs).
    cbn [flat_map option_map]. rewrite !length_app, Henc in *.
    repeat split.
    + destruct (cp <? 0x10000); lia.
    + destruct (cp <? 0x10000); lia.
    + intros Hz. rewrite IHid by (destruct (cp <? 0x10000); lia).
      unfold cesu8_emitted.
      destruct (Z.ltb_spec cp 0x10000); [|lia].
      rewrite Henc. reflexivity.
Qed.

(** X18: on valid input the second pass of the CESU-8 conversion writes,
    for each scalar below U+10000, its sequence, and for each scalar from
    U+10000 on, its two surrogates followed by the three continuation
    bytes of its sequence, because the read position is not moved past
    them.  It writes 5 bytes more than the input for each such scalar,
    and the buffer has room for 2: the conversion returns the input as it
    is when the input has no 4-byte sequence, and writes past its buffer
    otherwise. *)
Theorem to_cesu8_on_valid_input (data : list byte) :
  duk_unicode_is_valid_wtf8 data = true ->
  cesu8_written data =
    Some (flat_map cesu8_emitted (wtf8_scalars data)) /\
  Z.of_nat (length (flat_map cesu8_emitted (wtf8_scalars data))) =
    Z.of_nat (length data) + 5 * cesu8_nonbmp_count data /\
  duk_unicode_wtf8_to_cesu8 data =
    (if cesu8_nonbmp_count data =? 0 then Some data else None).
Proof.
  intros Hv. apply valid_iff_wf_string in Hv.
  destruct (cesu8_written_wf_string data Hv) as (Hw & Hn & Hl & Hid).
  split; [exact Hw|]. split; [exact Hl|].
  unfold duk_unicode_wtf8_to_cesu8. rewrite Hw.
  destruct (Z.eqb_spec (cesu8_nonbmp_count data) 0) as [Hz|Hnz].
  - rewrite (Hid Hz) in *.
    destruct (Z.leb_spec (Z.of_nat (length data))
                (Z.of_nat (length data) + 2 * cesu8_nonbmp_count data));
      [reflexivity | lia].
  - destruct (Z.leb_spec
                (Z.of_nat (length (flat_map cesu8_emitted
                                            (wtf8_scalars data))))
                (Z.of_nat (length data) + 2 * cesu8_nonbmp_count data));
      [lia | reflexivity].
Qed.

Lemma to_cesu8_on_valid_input_witness :
  cesu8_written (bytes_of [0xF0; 0x9F; 0x98; 0x80]) =
    Some (bytes_of [0xED; 0xA0; 0xBD; 0xED; 0xB8; 0x80; 0x9F; 0x98; 0x80]) /\
  duk_unicode_wtf8_to_cesu8 (bytes_of [0xF0; 0x9F; 0x98; 0x80]) = None.
Proof.
  destruct (to_cesu8_on_valid_input
              (bytes_of [0xF0; 0x9F; 0x98; 0x80]) eq_refl)
    as (Hw & _ & Hc).
  split; [exact Hw | exact Hc].
Defined.

(** * Comparison with a C string *)

Lemma c_strlen_spec s rest :
  Forall (fun b => u8 b <> 0) s ->
  c_strlen (s ++ byte.of_Z 0 :: rest) = Some (length s).
Proof.
  induction 1 as [|b s Hb _ IH]; cbn [app c_strlen length].
  - reflexivity.
  - destruct (Z.eqb_spec (u8 b) 0); [contradiction|].
    now rewrite IH.
Qed.

(** X19: for a C string [s] (bytes without NUL, then a NUL, then whatever
    the buffer holds after it) the comparison returns true exactly when the
    bytes of the string are [s]; a string that holds a NUL byte is
    therefore equal to no C string. *)
Theorem equals_ascii_cstring_iff
        (h : duk_hstring) (s rest : list byte) :
  Forall (fun b => u8 b <> 0) s ->
  exists r,
    duk_hstring_equals_ascii_cstring h (s ++ byte.of_Z 0 :: rest) = Some r /\
    (r = true <-> duk_hstring_get_data h = s) /\
    (In (byte.of_Z 0) (duk_hstring_get_data h) -> r = false).
Proof.
  intros Hs. unfold duk_hstring_equals_ascii_cstring.
  rewrite (c_strlen_spec _ _ Hs).
  unfold duk_hstring_get_bytelen, duk_hstring_get_data.
  assert (Hnul : In (byte.of_Z 0) (h_data h) -> h_data h <> s).
  { intros Hin Hd. rewrite Hd in Hin. rewrite Forall_forall in Hs.
    apply (Hs _ Hin). reflexivity. }
  rewrite firstn_app, Nat.sub_diag, firstn_all. cbn [firstn].
  rewrite app_nil_r.
  destruct (Z.eqb_spec (Z.of_nat (length s)) (Z.of_nat (length (h_data h))))
    as [Hl|Hl]; cbn [negb].
  - apply Nat2Z.inj in Hl. rewrite Hl, firstn_all.
    destruct (bytes_eqb s (h_data h)) eqn:Heq.
    + apply bytes_eqb_eq in Heq. exists true.
      split; [reflexivity|]. split; [split; auto|].
      intros Hin. exfalso. apply (Hnul Hin). now symmetry.
    + exists false. split; [reflexivity|]. split; [|reflexivity].
      split; [discriminate|].
      intros Hd. symmetry in Hd. apply bytes_eqb_eq in Hd. congruence.
  - exists false. split; [reflexivity|]. split; [|reflexivity].
    split; [discriminate|].
    intros Hd. rewrite Hd in Hl. contradiction.
Qed.

Lemma equals_ascii_cstring_iff_witness :
  let h := {| h_readonly := false; h_symbol := false; h_ascii := true;
              h_clen := 2; h_data := bytes_of [0x61; 0x62] |} in
  exists r,
    duk_hstring_equals_ascii_cstring
      h (bytes_of [0x61; 0x62] ++ byte.of_Z 0 :: bytes_of [0x63]) = Some r /\
    (r = true <-> duk_hstring_get_data h = bytes_of [0x61; 0x62]) /\
    (In (byte.of_Z 0) (duk_hstring_get_data h) -> r = false).
Proof.
  intros h. apply equals_ascii_cstring_iff.
  repeat constructor; vm_compute; discriminate.
Defined.
